(** * LLDP/CDP network discovery: a shallow embedding of [net_discovery.py]

    The development follows the source file top to bottom:

    - [PyStr]: the [str] methods the program calls ([strip], [split],
      [splitlines], [lower], [startswith], [in]);
    - [Re]: a backtracking matcher for the fragment of [re] the program
      uses, and [findall];
    - the static tables [VENDOR_COMMANDS] and [PLATFORM_MAPPING];
    - the credentials as the value [yaml.safe_load] returns, with the
      look-ups of [get_device_cred], [detect_device_type] and
      [ssh_connect], which raise on a value that is no mapping;
    - the external collaborators (netmiko's [SSHDetect] and
      [ConnectHandler]) as an environment record;
    - the worker [discover_single] as a tree of atomic instructions over
      the module-global state, and [concurrent_discover] as a machine that
      interleaves the workers of a level with the collecting main thread;
    - [save_to_csv].

    Text is modelled as [string], each character standing for the code
    point of the same number (0..255). *)

From Stdlib Require Import String Ascii List ZArith Lia Bool DecimalString.
From stdpp Require Import base option list sets gmap strings.

Local Open Scope string_scope.
Local Open Scope list_scope.
Local Open Scope nat_scope.

(** ** Python [str] methods *)

Module PyStr.

Definition code (c : ascii) : nat := nat_of_ascii c.

Definition between (lo hi n : nat) : bool := (lo <=? n) && (n <=? hi).

(** [str.isspace] on one character: TAB..CR, FS..US, space, NEL, NBSP. *)
Definition is_space (c : ascii) : bool :=
  let n := code c in
  between 9 13 n || between 28 32 n || (n =? 133) || (n =? 160).

(** The line boundaries of [str.splitlines] (besides the pair CR LF). *)
Definition is_linebreak (c : ascii) : bool :=
  let n := code c in
  between 10 13 n || between 28 30 n || (n =? 133).

Definition lower_char (c : ascii) : ascii :=
  let n := code c in
  if between 65 90 n || (between 192 222 n && negb (n =? 215))
  then ascii_of_nat (n + 32) else c.

Definition chars (s : string) : list ascii := list_ascii_of_string s.
Definition text (l : list ascii) : string := string_of_list_ascii l.

Fixpoint lstrip_by (p : ascii -> bool) (l : list ascii) : list ascii :=
  match l with
  | c :: l' => if p c then lstrip_by p l' else l
  | [] => []
  end.

Definition strip_by (p : ascii -> bool) (l : list ascii) : list ascii :=
  rev (lstrip_by p (rev (lstrip_by p l))).

(** [s.strip()] *)
Definition strip (s : string) : string := text (strip_by is_space (chars s)).

(** [s.strip(cs)] *)
Definition strip_chars (cs s : string) : string :=
  text (strip_by (fun c => bool_decide (c ∈ chars cs)) (chars s)).

(** [s.lower()] *)
Definition lower (s : string) : string := text (map lower_char (chars s)).

Fixpoint prefixb (p l : list ascii) : bool :=
  match p, l with
  | [], _ => true
  | a :: p', b :: l' => Ascii.eqb a b && prefixb p' l'
  | _ :: _, [] => false
  end.

(** [s.startswith(p)] *)
Definition startswith (s p : string) : bool := prefixb (chars p) (chars s).

Fixpoint infix_b (p l : list ascii) : bool :=
  prefixb p l || match l with [] => false | _ :: l' => infix_b p l' end.

(** [p in s] *)
Definition contains (p s : string) : bool := infix_b (chars p) (chars s).

Definition flush (acc : list ascii) : list (list ascii) :=
  match acc with [] => [] | _ => [rev acc] end.

Fixpoint split_go (acc l : list ascii) : list (list ascii) :=
  match l with
  | [] => flush acc
  | c :: l' =>
      if is_space c then flush acc ++ split_go [] l'
      else split_go (c :: acc) l'
  end.

(** [s.split()]: the maximal runs of non-whitespace characters. *)
Definition split (s : string) : list string :=
  map text (split_go [] (chars s)).

Fixpoint splitlines_go (acc l : list ascii) : list (list ascii) :=
  match l with
  | [] => flush acc
  | c :: l' =>
      if is_linebreak c then
        rev acc ::
        match l' with
        | c' :: l'' =>
            if (code c =? 13) && (code c' =? 10)
            then splitlines_go [] l''
            else splitlines_go [] l'
        | [] => []
        end
      else splitlines_go (c :: acc) l'
  end.

(** [s.splitlines()] *)
Definition splitlines (s : string) : list string :=
  map text (splitlines_go [] (chars s)).

(** [str(n)] for a natural number. *)
Definition of_nat (n : nat) : string := NilZero.string_of_uint (Nat.to_uint n).

(** [str(n)] for an integer. *)
Definition of_Z (n : Z) : string :=
  match n with
  | Z0 => "0"
  | Zpos p => of_nat (Pos.to_nat p)
  | Zneg p => "-" +:+ of_nat (Pos.to_nat p)
  end.

End PyStr.

(** ** The regular expressions of [re] the program uses *)

Module Re.

Inductive regex : Type :=
| Digit                                  (* \d *)
| Chr (c : ascii)                        (* an escaped literal *)
| WordB                                  (* \b *)
| Seq (r1 r2 : regex)
| Rep (r : regex) (lo hi : nat).         (* greedy r{lo,hi} *)

Definition is_digit (c : ascii) : bool := PyStr.between 48 57 (PyStr.code c).

(** [\w]: alphanumeric code points and the underscore. *)
Definition is_word (c : ascii) : bool :=
  let n := PyStr.code c in
  PyStr.between 48 57 n || PyStr.between 65 90 n || (n =? 95) ||
  PyStr.between 97 122 n || (n =? 170) || PyStr.between 178 179 n ||
  (n =? 181) || PyStr.between 185 186 n || PyStr.between 188 190 n ||
  PyStr.between 192 214 n || PyStr.between 216 246 n ||
  PyStr.between 248 255 n.

Definition word_at (c : option ascii) : bool :=
  match c with Some a => is_word a | None => false end.

(** A position in the subject: the character before it and what is left. *)
Definition cont (R : Type) : Type := option ascii -> list ascii -> option R.

(** Backtracking match of [r] at a position, continuing with [k]; the
    first alternative that lets [k] succeed wins. *)
Fixpoint exec {R} (r : regex) (prev : option ascii) (s : list ascii)
    (k : cont R) : option R :=
  match r with
  | Digit =>
      match s with
      | c :: s' => if is_digit c then k (Some c) s' else None
      | [] => None
      end
  | Chr a =>
      match s with
      | c :: s' => if Ascii.eqb a c then k (Some c) s' else None
      | [] => None
      end
  | WordB => if xorb (word_at prev) (word_at (head s)) then k prev s else None
  | Seq r1 r2 => exec r1 prev s (fun p t => exec r2 p t k)
  | Rep r lo hi =>
      (fix rep (lo hi : nat) (p : option ascii) (t : list ascii) : option R :=
         match hi with
         | O => match lo with O => k p t | S _ => None end
         | S hi' =>
             match exec r p t (fun p' t' => rep (pred lo) hi' p' t') with
             | Some x => Some x
             | None => match lo with O => k p t | S _ => None end
             end
         end) lo hi prev s
  end.

(** [pattern.match] at a position: what is left after the match. *)
Definition match_here (r : regex) (prev : option ascii) (s : list ascii)
  : option (list ascii) :=
  exec r prev s (fun _ t => Some t).

(** The scan of [findall]: leftmost matches, not overlapping; [skip]
    counts the characters of the last match still to step over. *)
Fixpoint scan (r : regex) (prev : option ascii) (s : list ascii) (skip : nat)
  : list (list ascii) :=
  match s with
  | [] => match skip, match_here r prev [] with
          | O, Some _ => [[]]
          | _, _ => []
          end
  | c :: s' =>
      match skip with
      | S n => scan r (Some c) s' n
      | O =>
          match match_here r prev s with
          | Some rest =>
              let n := length s - length rest in
              take n s :: scan r (Some c) s' (pred n)
          | None => scan r (Some c) s' 0
          end
      end
  end.

(** [re.findall(r, s)] for a pattern without groups. *)
Definition findall (r : regex) (s : string) : list string :=
  map PyStr.text (scan r None (PyStr.chars s) 0).

End Re.

(** ** Address extraction (source lines 139-141) *)

Definition Address : Type := string.

(** [\b(?:\d{1,3}\.){3}\d{1,3}\b] *)
Definition ipv4_pattern : Re.regex :=
  Re.Seq Re.WordB
    (Re.Seq (Re.Rep (Re.Seq (Re.Rep Re.Digit 1 3) (Re.Chr ".")) 3 3)
       (Re.Seq (Re.Rep Re.Digit 1 3) Re.WordB)).

Definition extract_all_ips (output : string) : gset Address :=
  list_to_set (Re.findall ipv4_pattern output).

(** ** Static tables (source lines 13-56) *)

Definition VENDOR_COMMANDS : gmap string (gmap string (option string)) :=
  list_to_map
    [ ("cisco_ios", list_to_map [ ("cdp", Some "show cdp neighbors detail");
                                  ("lldp", Some "show lldp neighbors detail") ]);
      ("arista_eos", list_to_map [ ("cdp", None);
                                   ("lldp", Some "show lldp neighbors detail") ]);
      ("juniper", list_to_map [ ("cdp", None);
                                ("lldp", Some "show lldp neighbors detail") ]);
      ("paloalto_panos", list_to_map [ ("cdp", None);
                                       ("lldp", Some "show lldp neighbors") ]);
      ("ubiquiti_edge", list_to_map [ ("cdp", None);
                                      ("lldp", Some "show lldp neighbors") ]) ].

Definition PLATFORM_MAPPING : gmap string string :=
  list_to_map
    [ ("cisco_ios", "cisco_ios");
      ("cisco_xe", "cisco_ios");
      ("cisco_xr", "cisco_ios");
      ("arista_eos", "arista_eos");
      ("juniper", "juniper");
      ("juniper_junos", "juniper");
      ("paloalto_panos", "paloalto_panos");
      ("ubiquiti_edgerouter", "ubiquiti_edge");
      ("ubiquiti_edgeswitch", "ubiquiti_edge") ].

(** ** Values and records *)

(** An exception is represented by its text, [str(e)]. *)
Definition exn : Type := string.

(** Truth value of an optional string: [None] and [''] are false. *)
Definition truthy (v : option string) : bool :=
  match v with
  | Some s => negb (String.eqb s "")
  | None => false
  end.

(** How an f-string prints an optional string. *)
Definition fmt (v : option string) : string := default "None" v.

(** *** The credentials file

    [load_credentials] hands on whatever [yaml.safe_load] returns.  The
    program does four things with such a value: it calls [.get] on it,
    tests its truth, compares it with a string, and prints it in an
    f-string.  A value is modelled with what these four need. *)

Inductive Value : Type :=
| VNone                                       (* null *)
| VStr (s : string)
| VInt (n : Z)
| VDict (items : list (string * Value))       (* the entries with a string key *)
    (other_keys : bool)                       (* whether it has other keys *)
    (shown : string)                          (* what [str] gives *)
| VOther (type_name : string) (truth : bool) (shown : string).
                                              (* a bool, a float, a list, a date ... *)

(** [type(v).__name__] *)
Definition type_name (v : Value) : string :=
  match v with
  | VNone => "NoneType"
  | VStr _ => "str"
  | VInt _ => "int"
  | VDict _ _ _ => "dict"
  | VOther name _ _ => name
  end.

(** [bool(v)]: what [not v] and [if v] test. *)
Definition truth (v : Value) : bool :=
  match v with
  | VNone => false
  | VStr s => negb (String.eqb s "")
  | VInt n => negb (n =? 0)%Z
  | VDict items other_keys _ =>
      match items with [] => other_keys | _ :: _ => true end
  | VOther _ b _ => b
  end.

(** [str(v)]: what an f-string prints. *)
Definition py_str (v : Value) : string :=
  match v with
  | VNone => "None"
  | VStr s => s
  | VInt n => PyStr.of_Z n
  | VDict _ _ shown => shown
  | VOther _ _ shown => shown
  end.

(** [v == s] for a string [s]. *)
Definition eq_str (v : Value) (s : string) : bool :=
  match v with
  | VStr s' => String.eqb s' s
  | _ => false
  end.

Fixpoint lookup_key (k : string) (items : list (string * Value)) : option Value :=
  match items with
  | [] => None
  | (k', v) :: rest => if String.eqb k' k then Some v else lookup_key k rest
  end.

(** [{}] *)
Definition empty_dict : Value := VDict [] false "{}".

(** [v.get(k, d)]: only a mapping has the method. *)
Definition get (v : Value) (k : string) (d : Value) : exn + Value :=
  match v with
  | VDict items _ _ => inr (default d (lookup_key k items))
  | _ => inl ("'" +:+ type_name v +:+ "' object has no attribute 'get'")
  end.

(** The credentials as loaded. *)
Definition Creds : Type := Value.

(** Source lines 76-77: [creds.get('devices', {}).get(ip, creds.get('default', {}))]. *)
Definition get_device_cred (ip : Address) (creds : Creds) : exn + Value :=
  match get creds "devices" empty_dict with
  | inl e => inl e
  | inr devices =>
      match get creds "default" empty_dict with
      | inl e => inl e
      | inr default_cred => get devices ip default_cred
      end
  end.

(** Keyword arguments of [SSHDetect] (source lines 122-129). *)
Record BaseParams : Type := {
  bp_device_type : string;
  bp_host : Address;
  bp_username : Value;
  bp_password : Value;
  bp_port : Value;
  bp_timeout : Z
}.

(** The dictionary of lines 122-129, its values evaluated in order. *)
Definition base_params (ip : Address) (device_cred : Value) : exn + BaseParams :=
  match get device_cred "username" (VStr "") with
  | inl e => inl e
  | inr username =>
  match get device_cred "password" (VStr "") with
  | inl e => inl e
  | inr password =>
  match get device_cred "optional_args" empty_dict with
  | inl e => inl e
  | inr optional_args =>
  match get optional_args "port" (VInt 22) with
  | inl e => inl e
  | inr port =>
      inr {| bp_device_type := "autodetect";
             bp_host := ip;
             bp_username := username;
             bp_password := password;
             bp_port := port;
             bp_timeout := 10 |}
  end end end end.

(** Keyword arguments of [ConnectHandler] (source lines 85-101); a key
    that is not set is [None]. *)
Record DeviceParams : Type := {
  dp_device_type : string;
  dp_host : Address;
  dp_username : Value;
  dp_port : Value;
  dp_secret : Value;
  dp_timeout : Z;
  dp_banner_timeout : Z;
  dp_auth_timeout : Z;
  dp_password : option Value;
  dp_use_keys : bool;
  dp_key_file : option Value
}.

(** Lines 85-104: the dictionary, then the key [auth_method] and what it
    adds; [inr (auth_method, None)] for an [auth_method] that is neither
    [password] nor [ssh_key]. *)
Definition device_params (ip : Address) (device_cred : Value) (device_type : string)
  : exn + (Value * option DeviceParams) :=
  match get device_cred "username" (VStr "") with
  | inl e => inl e
  | inr username =>
  match get device_cred "optional_args" empty_dict with
  | inl e => inl e
  | inr optional_args =>
  match get optional_args "port" (VInt 22) with
  | inl e => inl e
  | inr port =>
  match get device_cred "secret" (VStr "") with
  | inl e => inl e
  | inr secret =>
      let params (pw : option Value) (keys : bool) (kf : option Value) :=
        {| dp_device_type := device_type;
           dp_host := ip;
           dp_username := username;
           dp_port := port;
           dp_secret := secret;
           dp_timeout := 10;
           dp_banner_timeout := 200;
           dp_auth_timeout := 30;
           dp_password := pw; dp_use_keys := keys; dp_key_file := kf |} in
      match get device_cred "auth_method" (VStr "password") with
      | inl e => inl e
      | inr auth_method =>
          if eq_str auth_method "password" then
            match get device_cred "password" (VStr "") with
            | inl e => inl e
            | inr password =>
                inr (auth_method, Some (params (Some password) false None))
            end
          else if eq_str auth_method "ssh_key" then
            match get device_cred "ssh_key_file" VNone with
            | inl e => inl e
            | inr ssh_key_file =>
                inr (auth_method, Some (params None true (Some ssh_key_file)))
            end
          else inr (auth_method, None)
      end
  end end end end.

(** A row of [results_global] (source lines 175-179). *)
Record DeviceRecord : Type := {
  rec_ip : Address;                   (* 'ip' *)
  rec_device_type : string;           (* 'device_type' *)
  rec_hostname : string               (* 'hostname' *)
}.

Inductive Level : Type := DEBUG | INFO | WARNING | ERROR.

Record LogRecord : Type := { lvl : Level; msg : string }.

(** Calls that leave the process, in the order they are made. *)
Inductive Call : Type :=
| CallDetect (host : Address)
| CallConnect (host : Address) (device_type : string)
| CallEnable (host : Address)
| CallPrompt (host : Address)
| CallSend (host : Address) (cmd : string).

(** The module-global state (source lines 143-147), the records handed to
    [logging], and the trace of outside calls. *)
Record World : Type := {
  visited_global : gset Address;
  results_global : list DeviceRecord;
  log : list LogRecord;
  calls : list Call
}.

Definition initial_world : World :=
  {| visited_global := ∅; results_global := []; log := []; calls := [] |}.

Definition add_log (l : Level) (m : string) (w : World) : World :=
  {| visited_global := visited_global w; results_global := results_global w;
     log := log w ++ [{| lvl := l; msg := m |}]; calls := calls w |}.

Definition add_call (c : Call) (w : World) : World :=
  {| visited_global := visited_global w; results_global := results_global w;
     log := log w; calls := calls w ++ [c] |}.

Definition add_visited (ip : Address) (w : World) : World :=
  {| visited_global := visited_global w ∪ {[ ip ]};
     results_global := results_global w; log := log w; calls := calls w |}.

Definition add_result (r : DeviceRecord) (w : World) : World :=
  {| visited_global := visited_global w;
     results_global := results_global w ++ [r]; log := log w; calls := calls w |}.

(** ** The outside world

    netmiko is not part of the program: [SSHDetect], [ConnectHandler] and
    the methods of a connection are functions of an environment.  A
    connection object is a value of type [sess]; a method that changes the
    object returns its new state.  [iter_order] is the order in which a
    [for] loop walks a set of strings. *)

Record Env (sess : Type) : Type := {
  SSHDetect : BaseParams -> exn + option string;
  ConnectHandler : DeviceParams -> exn + sess;
  enable : sess -> exn + sess;
  find_prompt : sess -> exn + string;
  send_command : sess -> string -> (exn + string) * sess;
  iter_order : gset string -> list string;
  iter_order_perm : forall X, iter_order X ≡ₚ elements X
}.

Arguments SSHDetect {sess} _ _.
Arguments ConnectHandler {sess} _ _.
Arguments enable {sess} _ _.
Arguments find_prompt {sess} _ _.
Arguments send_command {sess} _ _ _.
Arguments iter_order {sess} _ _.
Arguments iter_order_perm {sess} _ _.

(** ** Threads

    A thread is a tree of instructions.  An instruction is what runs
    without another thread in between: a [with lock] block, a call to
    [logging], a call that leaves the process. *)

Inductive instr (sess : Type) : Type -> Type :=
| Log (l : Level) (m : string) : instr sess unit
| SeenUnderLock (ip : Address) : instr sess bool
| VisitedAdd (ip : Address) : instr sess unit
| ResultsAppend (r : DeviceRecord) : instr sess unit
| Autodetect (p : BaseParams) : instr sess (exn + option string)
| Connect (p : DeviceParams) : instr sess (exn + sess)
| Enable (host : Address) (s : sess) : instr sess (exn + sess)
| FindPrompt (host : Address) (s : sess) : instr sess (exn + string)
| SendCommand (host : Address) (s : sess) (cmd : string)
    : instr sess ((exn + string) * sess).

Arguments Log {sess} _ _.
Arguments SeenUnderLock {sess} _.
Arguments VisitedAdd {sess} _.
Arguments ResultsAppend {sess} _.
Arguments Autodetect {sess} _.
Arguments Connect {sess} _.
Arguments Enable {sess} _ _.
Arguments FindPrompt {sess} _ _.
Arguments SendCommand {sess} _ _ _.

Inductive Thread (sess A : Type) : Type :=
| Ret (a : A)
| Vis {X : Type} (i : instr sess X) (k : X -> Thread sess A).

Arguments Ret {sess A} _.
Arguments Vis {sess A X} _ _.

(** Python code with local variables [L]: it runs as a thread and ends
    with the locals and either an exception or a value.  Locals outlive
    an exception, as the objects they name do. *)
Definition Py (sess L A : Type) : Type := L -> Thread sess (L * (exn + A)).

Section Program.

Context {sess : Type}.
Variable env : Env sess.

(** *** What one instruction does to the world *)

Definition do_instr {X} (i : instr sess X) (w : World) : World * X :=
  match i in instr _ X return World * X with
  | Log l m => (add_log l m w, tt)
  | SeenUnderLock ip =>
      (* source lines 150-153 *)
      if bool_decide (ip ∈ visited_global w)
      then (add_log DEBUG (ip +:+ " already visited, skipping") w, true)
      else (w, false)
  | VisitedAdd ip => (add_visited ip w, tt)
  | ResultsAppend r => (add_result r w, tt)
  | Autodetect p => (add_call (CallDetect (bp_host p)) w, SSHDetect env p)
  | Connect p =>
      (add_call (CallConnect (dp_host p) (dp_device_type p)) w,
       ConnectHandler env p)
  | Enable host s => (add_call (CallEnable host) w, enable env s)
  | FindPrompt host s => (add_call (CallPrompt host) w, find_prompt env s)
  | SendCommand host s cmd =>
      (add_call (CallSend host cmd) w, send_command env s cmd)
  end.

(** A thread run alone, to its end. *)
Fixpoint run {A} (t : Thread sess A) (w : World) : World * A :=
  match t with
  | Ret a => (w, a)
  | Vis i k => let '(w', x) := do_instr i w in run (k x) w'
  end.

(** *** The monad of Python code *)

Fixpoint tbind {A B} (t : Thread sess A) (k : A -> Thread sess B)
  : Thread sess B :=
  match t with
  | Ret a => k a
  | Vis i h => Vis i (fun x => tbind (h x) k)
  end.

Definition ret {L A} (a : A) : Py sess L A := fun l => Ret (l, inr a).

Definition raise {L A} (e : exn) : Py sess L A := fun l => Ret (l, inl e).

Definition bind {L A B} (m : Py sess L A) (k : A -> Py sess L B)
  : Py sess L B :=
  fun l => tbind (m l) (fun '(l', r) =>
    match r with
    | inl e => Ret (l', inl e)
    | inr a => k a l'
    end).

#[local] Instance Py_ret {L} : MRet (Py sess L) := fun _ a => ret a.
#[local] Instance Py_bind {L} : MBind (Py sess L) := fun _ _ k m => bind m k.

(** [try: body / except Exception as e: handler e] *)
Definition try_except {L A} (body : Py sess L A) (handler : exn -> Py sess L A)
  : Py sess L A :=
  fun l => tbind (body l) (fun '(l', r) =>
    match r with
    | inl e => handler e l'
    | inr a => Ret (l', inr a)
    end).

(** An instruction that cannot fail. *)
Definition vis {L X} (i : instr sess X) : Py sess L X :=
  fun l => Vis i (fun x => Ret (l, inr x)).

(** An outside call: its failure is raised. *)
Definition call {L X} (i : instr sess (exn + X)) : Py sess L X :=
  fun l => Vis i (fun r => Ret (l, r)).

Definition logging {L} (lv : Level) (m : string) : Py sess L unit :=
  vis (Log lv m).

(** [for x in xs: body x] *)
Fixpoint for_each {L X} (xs : list X) (body : X -> Py sess L unit)
  : Py sess L unit :=
  match xs with
  | [] => ret tt
  | x :: xs' => bind (body x) (fun _ => for_each xs' body)
  end.

(** A block with locals of its own, starting from [l0]. *)
Definition with_locals {L L' A} (l0 : L') (m : Py sess L' A) : Py sess L A :=
  fun l => tbind (m l0) (fun '(_, r) => Ret (l, r)).

(** A computation outside any [try]: its exception is raised. *)
Definition lift {L A} (r : exn + A) : Py sess L A := fun l => Ret (l, r).

(** *** [detect_device_type] (source lines 116-137) *)

Definition detect_device_type {L} (ip : Address) (creds : Creds)
  : Py sess L (option string) :=
  device_cred ← lift (get_device_cred ip creds);
  if negb (truth device_cred) then
    logging ERROR ("No credentials found for device " +:+ ip);;
    ret None
  else
    base_params ← lift (base_params ip device_cred);
    try_except
      (best_match ← call (Autodetect base_params);
       logging INFO ("Detected device type for " +:+ ip +:+ ": "
                     +:+ fmt best_match);;
       ret best_match)
      (fun e =>
         logging ERROR ("Failed to autodetect device type for " +:+ ip
                        +:+ ": " +:+ e);;
         ret None).

(** *** [ssh_connect] (source lines 79-114) *)

Definition ssh_connect {L} (ip : Address) (creds : Creds) (device_type : string)
  : Py sess L (option sess) :=
  device_cred ← lift (get_device_cred ip creds);
  if negb (truth device_cred) then
    logging ERROR ("No credentials found for device " +:+ ip);;
    ret None
  else
    chosen ← lift (device_params ip device_cred device_type);
    match chosen with
    | (auth_method, None) =>
        logging ERROR ("Unknown auth_method '" +:+ py_str auth_method
                       +:+ "' for " +:+ ip);;
        ret None
    | (_, Some device_params) =>
        try_except
          (net_connect ← call (Connect device_params);
           net_connect ← (if truth (dp_secret device_params)
                          then call (Enable ip net_connect)
                          else ret net_connect);
           logging DEBUG ("SSH connection established to " +:+ ip +:+ " ("
                          +:+ device_type +:+ ")");;
           ret (Some net_connect))
          (fun e =>
             logging ERROR ("Failed to connect to " +:+ ip +:+ " ("
                            +:+ device_type +:+ "): " +:+ e);;
             ret None)
    end.

(** *** [parse_juniper_lldp_interfaces] (source lines 222-231) *)

Definition parse_juniper_lldp_interfaces (output : string) : gset string :=
  foldl
    (fun interfaces line =>
       if PyStr.startswith line "Local Interface"
          || String.eqb (PyStr.strip line) ""
       then interfaces
       else match PyStr.split line with
            | part :: _ => interfaces ∪ {[ part ]}
            | [] => interfaces
            end)
    ∅ (PyStr.splitlines (PyStr.strip output)).

(** *** [discover_single] (source lines 149-220) *)

(** The locals of the second half of the worker: the connection object
    and the set [neighbor_ips]. *)
Record Locals : Type := { net_connect : sess; neighbor_ips : gset Address }.

(** [net_connect.send_command(cmd)] *)
Definition session_send (host : Address) (cmd : string) : Py sess Locals string :=
  fun l =>
    Vis (SendCommand host (net_connect l) cmd)
      (fun '(r, s') =>
         Ret ({| net_connect := s'; neighbor_ips := neighbor_ips l |}, r)).

(** [net_connect.find_prompt()] *)
Definition session_prompt (host : Address) : Py sess Locals string :=
  fun l => Vis (FindPrompt host (net_connect l)) (fun r => Ret (l, r)).

(** [neighbor_ips.update(ips)] *)
Definition neighbor_ips_update (ips : gset Address) : Py sess Locals unit :=
  fun l =>
    Ret ({| net_connect := net_connect l;
            neighbor_ips := neighbor_ips l ∪ ips |}, inr tt).

(** [neighbor_ips = set()] *)
Definition neighbor_ips_clear : Py sess Locals unit :=
  fun l => Ret ({| net_connect := net_connect l; neighbor_ips := ∅ |}, inr tt).

Definition neighbor_ips_get : Py sess Locals (gset Address) :=
  fun l => Ret (l, inr (neighbor_ips l)).

(** Source lines 189-209: the Juniper LLDP branch. *)
Definition juniper_lldp (ip : Address) : Py sess Locals unit :=
  try_except
    (output ← session_send ip "show lldp neighbors";
     let ips := extract_all_ips output in
     neighbor_ips_update ips)
    (fun e =>
       if PyStr.contains "syntax error" (PyStr.lower e) then
         logging WARNING ("Falling back to per-interface LLDP for " +:+ ip);;
         try_except
           (summary_output ← session_send ip "show lldp neighbors";
            let interfaces := parse_juniper_lldp_interfaces summary_output in
            for_each (iter_order env interfaces) (fun iface =>
              detail_output ←
                session_send ip ("show lldp neighbors interface " +:+ iface);
              let ips := extract_all_ips detail_output in
              neighbor_ips_update ips))
           (fun inner_e =>
              logging ERROR ("Fallback LLDP per-interface also failed on "
                             +:+ ip +:+ ": " +:+ inner_e))
       else
         logging ERROR ("LLDP detail failed on " +:+ ip +:+ ": " +:+ e)).

(** Source lines 184-218: the loop over the two protocols. *)
Definition run_protocols (ip : Address) (device_type : string)
    (commands : gmap string (option string)) : Py sess Locals unit :=
  for_each ["cdp"; "lldp"] (fun proto =>
    let cmd := commands !! proto ≫= id in
    if negb (truthy cmd) then ret tt
    else if String.eqb device_type "juniper" && String.eqb proto "lldp"
    then juniper_lldp ip
    else
      let cmd := default "" cmd in
      try_except
        (output ← session_send ip cmd;
         let ips := extract_all_ips output in
         neighbor_ips_update ips)
        (fun e =>
           logging ERROR ("Failed to run '" +:+ cmd +:+ "' on " +:+ ip
                          +:+ ": " +:+ e))).

Definition Result : Type := gset Address * list (Address * string).

Definition discover_single (ip : Address) (creds : Creds)
    (templates_path : string) : Py sess unit Result :=
  seen ← vis (SeenUnderLock ip);
  if (seen : bool) then ret (∅, [])
  else
    logging INFO ("Discovering " +:+ ip);;
    device_type ← detect_device_type ip creds;
    if negb (truthy device_type)
       || negb (bool_decide (is_Some (VENDOR_COMMANDS !! fmt device_type)))
    then
      logging WARNING ("Skipping " +:+ ip
                       +:+ ": unsupported or undetected device type '"
                       +:+ fmt device_type +:+ "'");;
      vis (VisitedAdd ip);;
      ret (∅, [])
    else
      let device_type := fmt device_type in
      net_connect ← ssh_connect ip creds device_type;
      match net_connect with
      | None =>
          vis (VisitedAdd ip);;
          ret (∅, [])
      | Some net_connect =>
          with_locals {| net_connect := net_connect; neighbor_ips := ∅ |}
            (prompt ← session_prompt ip;
             let hostname := PyStr.strip (PyStr.strip_chars "#>" prompt) in
             vis (VisitedAdd ip);;
             vis (ResultsAppend {| rec_ip := ip;
                                   rec_device_type := device_type;
                                   rec_hostname := hostname |});;
             commands ← match VENDOR_COMMANDS !! device_type with
                        | Some c => ret c
                        | None => raise ("'" +:+ device_type +:+ "'")
                        end;
             neighbor_ips_clear;;
             run_protocols ip device_type commands;;
             neighbor_ips ← neighbor_ips_get;
             ret (neighbor_ips, [(ip, device_type)]))
      end.

(** The task the pool runs for one address, and how it ended. *)
Definition Outcome : Type := unit * (exn + Result).

Definition worker (ip : Address) (creds : Creds) (templates_path : string)
  : Thread sess Outcome :=
  discover_single ip creds templates_path tt.

End Program.

(** ** [concurrent_discover] (source lines 233-257)

    The main thread and the pool threads run interleaved: one action of
    the machine is one instruction of one of them.  The futures of a
    level are indexed in the order of [elements]; the pool may start and
    finish them in any order. *)

Section Scheduler.

Context {sess : Type}.
Variable env : Env sess.
Variables (creds : Creds) (templates_path : string).
Variables (max_depth : Z) (max_workers : nat).

(** A submitted task: what is left of it to run, whether a pool thread
    has picked it up, whether [as_completed] has handed it out. *)
Record Future : Type := {
  task : Thread sess Outcome;
  started : bool;
  yielded : bool
}.

Definition finished (f : Future) : bool :=
  match task f with Ret _ => true | Vis _ _ => false end.

Definition running (f : Future) : bool := started f && negb (finished f).

(** [executor.submit(discover_single, ip, creds, templates_path)] *)
Definition submit (ip : Address) : Future :=
  {| task := worker env ip creds templates_path;
     started := false; yielded := false |}.

Inductive Mode : Type :=
| AtLoop (to_visit : gset Address)          (* at the test of [while] *)
| InPool (to_visit : gset Address) (futures : list Future)
    (next_to_visit : gset Address)      (* inside [with ThreadPoolExecutor] *)
| Returned                                  (* line 257 *)
| Failed (e : exn).                         (* an exception left the function *)

Record Sched : Type := {
  world : World;
  current_depth : nat;
  mode : Mode
}.

Inductive Action : Type :=
| Main                (* the main thread, outside the loop over the futures *)
| Work (i : nat)      (* a pool thread runs one instruction of future [i] *)
| Yield (i : nat).    (* [as_completed] hands out future [i]; lines 247-252 *)

Definition init (seed_ip : Address) (w : World) : Sched :=
  {| world := w; current_depth := 0; mode := AtLoop {[ seed_ip ]} |}.

Definition main_step (st : Sched) : option Sched :=
  match mode st with
  | AtLoop to_visit =>
      if (Z.of_nat (current_depth st) <=? max_depth)%Z
         && negb (bool_decide (to_visit = ∅))
      then
        let w :=
          add_log INFO
            ("Starting discovery depth " +:+ PyStr.of_nat (current_depth st)
             +:+ " with " +:+ PyStr.of_nat (size to_visit) +:+ " device(s)")
            (world st) in
        if max_workers =? 0 then
          Some {| world := w; current_depth := current_depth st;
                  mode := Failed "max_workers must be greater than 0" |}
        else
          Some {| world := w; current_depth := current_depth st;
                  mode := InPool to_visit (map submit (elements to_visit)) ∅ |}
      else
        Some {| world := world st; current_depth := current_depth st;
                mode := Returned |}
  | InPool _ futures next_to_visit =>
      if forallb yielded futures then
        Some {| world := world st; current_depth := S (current_depth st);
                mode := AtLoop next_to_visit |}
      else None
  | Returned | Failed _ => None
  end.

Definition work_step (i : nat) (st : Sched) : option Sched :=
  match mode st with
  | InPool to_visit futures next_to_visit =>
      match futures !! i with
      | Some f =>
          match task f with
          | Ret _ => None
          | Vis ins k =>
              if started f
                 || (length (filter (fun g => running g = true) futures)
                     <? max_workers)
              then
                let '(w, x) := do_instr env ins (world st) in
                Some {| world := w; current_depth := current_depth st;
                        mode := InPool to_visit
                                  (<[ i := {| task := k x; started := true;
                                              yielded := yielded f |} ]> futures)
                                  next_to_visit |}
              else None
          end
      | None => None
      end
  | _ => None
  end.

Definition yield_step (i : nat) (st : Sched) : option Sched :=
  match mode st with
  | InPool to_visit futures next_to_visit =>
      match futures !! i with
      | Some f =>
          match task f, yielded f with
          | Ret (_, r), false =>
              let '(w, next) :=
                match r with
                | inr (neighbor_ips, _) =>
                    let new_ips := neighbor_ips ∖ visited_global (world st) in
                    (world st, next_to_visit ∪ new_ips)
                | inl e =>
                    (add_log ERROR ("Error in thread during discovery: " +:+ e)
                       (world st),
                     next_to_visit)
                end in
              Some {| world := w; current_depth := current_depth st;
                      mode := InPool to_visit
                                (<[ i := {| task := task f; started := started f;
                                            yielded := true |} ]> futures)
                                next |}
          | _, _ => None
          end
      | None => None
      end
  | _ => None
  end.

Definition step (a : Action) (st : Sched) : option Sched :=
  match a with
  | Main => main_step st
  | Work i => work_step i st
  | Yield i => yield_step i st
  end.

(** A schedule, action by action; [None] when an action cannot happen. *)
Fixpoint exec (sched : list Action) (st : Sched) : option Sched :=
  match sched with
  | [] => Some st
  | a :: sched' =>
      match step a st with
      | Some st' => exec sched' st'
      | None => None
      end
  end.

(** The states a schedule goes through, the first one included. *)
Fixpoint states (sched : list Action) (st : Sched) : list Sched :=
  st :: match sched with
        | [] => []
        | a :: sched' =>
            match step a st with
            | Some st' => states sched' st'
            | None => []
            end
        end.

(** [concurrent_discover(seed_ip, creds, templates_path, max_depth,
    max_workers)] called in world [w], its threads interleaved as
    [sched] says: the state it is in when the schedule ends. *)
Definition concurrent_discover (seed_ip : Address) (sched : list Action)
    (w : World) : option Sched :=
  exec sched (init seed_ip w).

(** What [concurrent_discover] returns: the two global objects. *)
Definition returned (st : Sched) : option (gset Address * list DeviceRecord) :=
  match mode st with
  | Returned => Some (visited_global (world st), results_global (world st))
  | _ => None
  end.

(** The actions that may happen in a state, and the states reached by
    every schedule of a given length. *)
Definition candidates (st : Sched) : list Action :=
  match mode st with
  | InPool _ futures _ =>
      Main :: flat_map (fun i => [Work i; Yield i]) (seq 0 (length futures))
  | _ => [Main]
  end.

Fixpoint reach (n : nat) (st : Sched) : list Sched :=
  match n with
  | O => [st]
  | S n' =>
      flat_map (fun a => match step a st with
                         | Some st' => reach n' st'
                         | None => []
                         end) (candidates st)
  end.

End Scheduler.

Arguments task {sess} _.
Arguments started {sess} _.
Arguments yielded {sess} _.
Arguments world {sess} _.
Arguments current_depth {sess} _.
Arguments mode {sess} _.
Arguments AtLoop {sess} _.
Arguments InPool {sess} _ _ _.
Arguments Returned {sess}.
Arguments Failed {sess} _.

(** ** [save_to_csv] (source lines 259-272)

    The file is what [csv.DictWriter] is asked to write: the header row
    and the data rows, each a list of fields.  Opening or writing the file
    may fail. *)

Inductive FileOp : Type :=
| OpenForWrite (filename : string)
| WriteRow (fields : list string).

(** [results[0].keys()]: the keys of a record, in the order of lines 176-178. *)
Definition keys (r : DeviceRecord) : list string := ["ip"; "device_type"; "hostname"].

(** The value of a record under a key. *)
Definition field (r : DeviceRecord) (k : string) : string :=
  if String.eqb k "ip" then rec_ip r
  else if String.eqb k "device_type" then rec_device_type r
  else if String.eqb k "hostname" then rec_hostname r
  else "".

Record CsvOutcome : Type := {
  file_ops : list FileOp;             (* the operations attempted, in order *)
  csv_log : list LogRecord
}.

(** [io_error]: the file operation that raises, if one does, counted from 0,
    and the exception. *)
Definition save_to_csv (io_error : option (nat * exn))
    (results : list DeviceRecord) (filename : string) : CsvOutcome :=
  match results with
  | [] =>
      {| file_ops := [];
         csv_log := [{| lvl := WARNING;
                        msg := "No devices discovered, skipping CSV export" |}] |}
  | first :: _ =>
      let fieldnames := keys first in
      let ops :=
        OpenForWrite filename
        :: WriteRow fieldnames
        :: map (fun r => WriteRow (map (field r) fieldnames)) results in
      match io_error with
      | Some (n, e) =>
          if n <? length ops then
            {| file_ops := take (S n) ops;
               csv_log := [{| lvl := ERROR;
                              msg := "Failed to write CSV file '" +:+ filename
                                     +:+ "': " +:+ e |}] |}
          else
            {| file_ops := ops;
               csv_log := [{| lvl := INFO;
                              msg := "Exported discovered devices to "
                                     +:+ filename |}] |}
      | None =>
          {| file_ops := ops;
             csv_log := [{| lvl := INFO;
                            msg := "Exported discovered devices to "
                                   +:+ filename |}] |}
      end
  end.

(** ** Networks to run the program on

    A device answers detection, connection and the prompt query in one
    way, and a command according to how many commands the session has
    already received.  A session is the address of its device and that
    number. *)

Module Lab.

Record Device : Type := {
  detect : exn + option string;
  connect_error : option exn;
  prompt : exn + string;
  reply : nat -> string -> exn + string
}.

Definition Session : Type := (Address * nat)%type.

Definition network_env (net : Address -> Device) : Env Session :=
  {| SSHDetect := fun p => detect (net (bp_host p));
     ConnectHandler := fun p =>
       match connect_error (net (dp_host p)) with
       | Some e => inl e
       | None => inr (dp_host p, 0)
       end;
     enable := fun s => inr s;
     find_prompt := fun s => prompt (net (fst s));
     send_command := fun s cmd => (reply (net (fst s)) (snd s) cmd, (fst s, S (snd s)));
     iter_order := elements;
     iter_order_perm := fun X => reflexivity (elements X) |}.

(** A device that does not answer. *)
Definition silent : Device :=
  {| detect := inl "timed out";
     connect_error := Some "timed out";
     prompt := inl "timed out";
     reply := fun _ _ => inl "timed out" |}.

(** A device of a platform that answers every command the same way each
    time it is asked. *)
Definition device (platform hostname : string) (answers : string -> exn + string)
  : Device :=
  {| detect := inr (Some platform);
     connect_error := None;
     prompt := inr (hostname +:+ "#");
     reply := fun _ cmd => answers cmd |}.

Definition lldp_only (text : string) (cmd : string) : exn + string :=
  if String.eqb cmd "show lldp neighbors detail" then inr text
  else inl "% Invalid input detected".

(** The credentials file [default: {username: admin, password: admin}]. *)
Definition admin : Creds :=
  VDict
    [("default",
      VDict [("username", VStr "admin"); ("password", VStr "admin")] false
        "{'username': 'admin', 'password': 'admin'}")]
    false "{'default': {'username': 'admin', 'password': 'admin'}}".

(** One Cisco switch whose LLDP table names two neighbours. *)
Definition two_neighbours (ip : Address) : Device :=
  if String.eqb ip "10.0.0.1" then
    device "cisco_ios" "sw1"
      (lldp_only "Management address: 10.0.0.2; Management address: 10.0.0.3")
  else silent.

(** A switch that is detected as IOS-XE. *)
Definition xe_switch (ip : Address) : Device :=
  if String.eqb ip "10.0.0.1" then
    device "cisco_xe" "cat9k"
      (lldp_only "Management address: 10.0.0.2")
  else silent.

(** A switch that is detected as IOS-XR. *)
Definition xr_router (ip : Address) : Device :=
  if String.eqb ip "10.0.0.1" then
    device "cisco_xr" "asr9k"
      (lldp_only "Management address: 10.0.0.2")
  else silent.

(** The seed names three devices; 10.0.0.2 names 10.0.0.3, which does
    not answer the detector; 10.0.0.4 names itself. *)
Definition diamond (ip : Address) : Device :=
  if String.eqb ip "10.0.0.1" then
    device "cisco_ios" "core"
      (lldp_only "10.0.0.2 10.0.0.3 10.0.0.4")
  else if String.eqb ip "10.0.0.2" then
    device "cisco_ios" "edge2" (lldp_only "Management address: 10.0.0.3")
  else if String.eqb ip "10.0.0.4" then
    device "cisco_ios" "edge4" (lldp_only "Management address: 10.0.0.4")
  else silent.

(** A Juniper router whose first answer to the consolidated LLDP command
    is a syntax error; asked again it prints the summary table. *)
Definition juniper_table : string :=
  "Local Interface    Parent Interface    Chassis Id          Port info     System Name
ge-0/0/0           -                   00:11:22:33:44:55   ge-0/0/5      mx-a
ge-0/0/1           -                   00:11:22:33:44:66   ge-0/0/7      mx-b
".

Definition old_junos (ip : Address) : Device :=
  if String.eqb ip "10.0.0.9" then
    {| detect := inr (Some "juniper");
       connect_error := None;
       prompt := inr "admin@mx> ";
       reply := fun n cmd =>
         if String.eqb cmd "show lldp neighbors" then
           match n with
           | O => inl "syntax error, expecting <command>."
           | S _ => inr juniper_table
           end
         else if String.eqb cmd "show lldp neighbors interface ge-0/0/0"
         then inr "Management address: 10.0.1.1"
         else if String.eqb cmd "show lldp neighbors interface ge-0/0/1"
         then inr "Management address: 10.0.1.2"
         else inl "unknown command." |}
  else silent.

(** A switch whose prompt cannot be read. *)
Definition mute_prompt (ip : Address) : Device :=
  if String.eqb ip "10.0.0.1" then
    {| detect := inr (Some "cisco_ios");
       connect_error := None;
       prompt := inl "Unable to find prompt";
       reply := fun _ _ => inr "" |}
  else silent.

(** The seed names 10.0.0.2, whose prompt cannot be read, and 10.0.0.3,
    which names 10.0.0.2 too. *)
Definition relapse (ip : Address) : Device :=
  if String.eqb ip "10.0.0.1" then
    device "cisco_ios" "core" (lldp_only "10.0.0.2 10.0.0.3")
  else if String.eqb ip "10.0.0.2" then
    {| detect := inr (Some "cisco_ios");
       connect_error := None;
       prompt := inl "Unable to find prompt";
       reply := fun _ _ => inr "" |}
  else if String.eqb ip "10.0.0.3" then
    device "cisco_ios" "edge3" (lldp_only "Management address: 10.0.0.2")
  else silent.

(** Every address is a switch that names 10.0.0.1 and 10.0.0.2. *)
Definition pair (ip : Address) : Device :=
  device "cisco_ios" "sw" (lldp_only "10.0.0.1 10.0.0.2").

(** The call of the main program (line 294) on a network, with the
    credentials [admin] and the ten workers of the default. *)
Definition discover (net : Address -> Device) (seed_ip : Address)
    (max_depth : Z) (sched : list Action) : option (@Sched Session) :=
  concurrent_discover (network_env net) admin "~/ntc-templates" max_depth 10
    seed_ip sched initial_world.

End Lab.

(** ** What the properties are stated with *)

(** *** Matching, declaratively

    [Matches r prev m rest]: the expression [r] matches the characters [m]
    at a position where the character before is [prev] and [rest] follows
    the match. *)

Definition last_of (p : option ascii) (m : list ascii) : option ascii :=
  match last m with Some c => Some c | None => p end.

Inductive Matches : Re.regex -> option ascii -> list ascii -> list ascii -> Prop :=
| M_digit p c rest : Re.is_digit c = true -> Matches Re.Digit p [c] rest
| M_chr p a rest : Matches (Re.Chr a) p [a] rest
| M_wordb p rest :
    xorb (Re.word_at p) (Re.word_at (head rest)) = true ->
    Matches Re.WordB p [] rest
| M_seq r1 r2 p m1 m2 rest :
    Matches r1 p m1 (m2 ++ rest) ->
    Matches r2 (last_of p m1) m2 rest ->
    Matches (Re.Seq r1 r2) p (m1 ++ m2) rest
| M_rep_stop r hi p rest : Matches (Re.Rep r 0 hi) p [] rest
| M_rep_more r lo hi p m1 m2 rest :
    Matches r p m1 (m2 ++ rest) ->
    Matches (Re.Rep r (pred lo) hi) (last_of p m1) m2 rest ->
    Matches (Re.Rep r lo (S hi)) p (m1 ++ m2) rest.

(** [x] is matched somewhere in [s], the character before [s] being [prev]. *)
Definition occurs (r : Re.regex) (prev : option ascii) (s x : list ascii) : Prop :=
  exists pre rest, s = pre ++ x ++ rest /\ Matches r (last_of prev pre) x rest.

(** One to three digits. *)
Definition digit_group (g : list ascii) : Prop :=
  1 <= length g <= 3 /\ Forall (fun c => Re.is_digit c = true) g.

(** Four groups of one to three digits, separated by dots. *)
Definition dotted_quad (x : string) : Prop :=
  exists g1 g2 g3 g4,
    PyStr.chars x = g1 ++ "."%char :: g2 ++ "."%char :: g3 ++ "."%char :: g4 /\
    digit_group g1 /\ digit_group g2 /\ digit_group g3 /\ digit_group g4.

Definition substring (x text : string) : Prop :=
  exists pre post, text = pre +:+ x +:+ post.

(** The address pattern matches [x] in [text] between [pre] and [post]. *)
Definition pattern_at (text pre x post : string) : Prop :=
  text = pre +:+ x +:+ post /\
  Matches ipv4_pattern (last (PyStr.chars pre)) (PyStr.chars x) (PyStr.chars post).

(** *** The scan of [findall], declaratively

    [Leftmost r prev s xs]: reading [s] from left to right, [prev] being
    the character before it, the matches found are [xs], in this order.
    Where the expression matches at the current position the match is
    taken and the reading goes on after it; where it does not, the
    reading goes on one character further.  So the matches do not
    overlap, and each starts at the first position after the one before
    where the expression matches. *)
Inductive Leftmost (r : Re.regex)
  : option ascii -> list ascii -> list (list ascii) -> Prop :=
| L_nil prev : Leftmost r prev [] []
| L_skip prev c s xs :
    (forall x rest, c :: s = x ++ rest -> ~ Matches r prev x rest) ->
    Leftmost r (Some c) s xs ->
    Leftmost r prev (c :: s) xs
| L_match prev x rest xs :
    x <> [] ->
    Matches r prev x rest ->
    Leftmost r (last_of prev x) rest xs ->
    Leftmost r prev (x ++ rest) (x :: xs).

(** The first character of [t], if there is one, is no digit. *)
Definition no_digit_ahead (t : list ascii) : Prop :=
  match t with
  | c :: _ => Re.is_digit c = false
  | [] => True
  end.

(** *** Threads under interference

    Between two instructions of a thread the other threads run, so each
    instruction finds the world in a state of its own. *)

Section ThreadProps.

Context {sess : Type}.
Variable env : Env sess.

(** The values a thread may end with. *)
Fixpoint may_end {A} (t : Thread sess A) (o : A) : Prop :=
  match t with
  | Ret a => a = o
  | Vis i k => exists w, may_end (k (snd (do_instr env i w))) o
  end.

(** Every instruction the thread may come to satisfies [P]. *)
Fixpoint always (P : forall X, instr sess X -> Prop) {A} (t : Thread sess A)
  : Prop :=
  match t with
  | Ret _ => True
  | Vis i k => P _ i /\ forall w, always P (k (snd (do_instr env i w)))
  end.

(** The exceptions a piece of code may end with are all in [Q]. *)
Definition raises_only {L A} (Q : exn -> Prop) (m : Py sess L A) : Prop :=
  forall l l' e, may_end (m l) (l', inl e) -> Q e.

(** The record line 155 hands to [logging] when a worker sets out to
    discover [ip]. *)
Definition is_attempt (ip : Address) (r : LogRecord) : bool :=
  match lvl r with
  | INFO => String.eqb (msg r) ("Discovering " +:+ ip)
  | _ => false
  end.

(** How many times the discovery of [ip] has been set out on. *)
Definition attempts (w : World) (ip : Address) : nat :=
  length (filter (fun r => is_attempt ip r = true) (log w)).

Definition no_attempt {X} (i : instr sess X) : Prop :=
  match i with
  | Log l m => forall ip, is_attempt ip {| lvl := l; msg := m |} = false
  | _ => True
  end.

(** An instruction that leaves the visited set alone and starts no
    discovery. *)
Definition settled {X} (i : instr sess X) : Prop :=
  match i with
  | VisitedAdd _ => False
  | _ => no_attempt i
  end.

(** An instruction that, besides, leaves the results alone. *)
Definition quiet {X} (i : instr sess X) : Prop :=
  match i with
  | ResultsAppend _ => False
  | _ => settled i
  end.

(** A thread that has set out to discover [ip] and has not yet added it
    to the visited set: whatever happens it adds [ip], before anything
    else it does to the shared state, and does not end before. *)
Fixpoint owes (ip : Address) {A} (t : Thread sess A) : Prop :=
  match t with
  | Ret _ => False
  | Vis i k =>
      match i in instr _ X return (X -> Thread sess A) -> Prop with
      | VisitedAdd ip' => fun k => ip' = ip /\ always (@settled) (k tt)
      | i' => fun k => quiet i' /\ forall w, owes ip (k (snd (do_instr env i' w)))
      end k
  end.

(** A thread about to run line 155 for [ip]. *)
Definition about_to_claim (ip : Address) {A} (t : Thread sess A) : Prop :=
  match t with
  | Ret _ => False
  | Vis i k =>
      match i in instr _ X return (X -> Thread sess A) -> Prop with
      | Log INFO m => fun k => m = "Discovering " +:+ ip /\ owes ip (k tt)
      | _ => fun _ => False
      end k
  end.

(** A thread about to run the test of lines 150-153 for [ip]. *)
Definition unclaimed (ip : Address) {A} (t : Thread sess A) : Prop :=
  match t with
  | Ret _ => False
  | Vis i k =>
      match i in instr _ X return (X -> Thread sess A) -> Prop with
      | SeenUnderLock ip' =>
          fun k => ip' = ip
                   /\ match k true with Ret _ => True | Vis _ _ => False end
                   /\ about_to_claim ip (k false)
      | _ => fun _ => False
      end k
  end.

(** The prompt of a session can always be read. *)
Definition prompt_total : Prop :=
  forall s, exists p, find_prompt env s = inr p.

End ThreadProps.

(** The exceptions the credential look-ups of lines 77, 88-89 and 117-127
    raise for an address: they are made outside any [try]. *)
Definition lookup_raises (ip : Address) (creds : Creds) (e : exn) : Prop :=
  get_device_cred ip creds = inl e \/
  exists device_cred,
    get_device_cred ip creds = inr device_cred /\ truth device_cred = true /\
    base_params ip device_cred = inl e.

(** Credentials whose look-ups raise for no address. *)
Definition lookups_total (creds : Creds) : Prop :=
  forall ip e, ~ lookup_raises ip creds e.

(** *** The Juniper fallback, in the words of its description *)

Section JuniperSpec.

Context {sess : Type}.
Variable env : Env sess.

(** The consolidated command, which is also the summary command. *)
Definition lldp_summary_cmd : string := "show lldp neighbors".

Definition lldp_detail_cmd (iface : string) : string :=
  "show lldp neighbors interface " +:+ iface.

(** An error of the syntax-error class. *)
Definition syntax_error_class (e : exn) : bool :=
  PyStr.contains "syntax error" (PyStr.lower e).

(** A line of the summary that names an interface: neither the header nor
    blank. *)
Definition interface_line (line : string) : Prop :=
  PyStr.startswith line "Local Interface" = false /\ PyStr.strip line <> "".

(** What asking the interfaces one after the other gives: the commands
    sent, the outputs received, the session afterwards, and the error
    that stopped the loop, if one did. *)
Record Polled : Type := {
  sent : list string;
  outputs : list string;
  session_after : sess;
  stopped_by : option exn
}.

Fixpoint poll (s : sess) (ifaces : list string) : Polled :=
  match ifaces with
  | [] => {| sent := []; outputs := []; session_after := s; stopped_by := None |}
  | iface :: rest =>
      let cmd := lldp_detail_cmd iface in
      match send_command env s cmd with
      | (inr output, s') =>
          let p := poll s' rest in
          {| sent := cmd :: sent p; outputs := output :: outputs p;
             session_after := session_after p; stopped_by := stopped_by p |}
      | (inl e, s') =>
          {| sent := [cmd]; outputs := []; session_after := s';
             stopped_by := Some e |}
      end
  end.

(** The addresses found in a list of outputs. *)
Definition addresses_in (outs : list string) : gset Address :=
  ⋃ (extract_all_ips <$> outs).

End JuniperSpec.

Arguments sent {sess} _.
Arguments outputs {sess} _.
Arguments session_after {sess} _.
Arguments stopped_by {sess} _.

Definition add_calls (cs : list Call) (w : World) : World :=
  {| visited_global := visited_global w; results_global := results_global w;
     log := log w; calls := calls w ++ cs |}.

(** A world that differs from [w] in the log and the trace of calls only. *)
Definition same_shared (w w' : World) : Prop :=
  visited_global w' = visited_global w /\ results_global w' = results_global w.

(** *** States of the scheduler *)

Section MachineProps.

Context {sess : Type}.
Variable env : Env sess.

(** The shared state only grows. *)
Definition grows (w w' : World) : Prop :=
  visited_global w ⊆ visited_global w' /\
  results_global w `prefix_of` results_global w'.

Definition ended {A} (t : Thread sess A) : Prop :=
  match t with Ret _ => True | Vis _ _ => False end.

(** The neighbour set a finished task returned; an unfinished task and a
    task that raised have none. *)
Definition neighbours_of (f : @Future sess) : gset Address :=
  match task f with
  | Ret (_, inr (neighbor_ips, _)) => neighbor_ips
  | _ => ∅
  end.

(** The union of the neighbour sets of the futures handed out so far. *)
Definition collected (futures : list (@Future sess)) : gset Address :=
  ⋃ ((fun f => if yielded f then neighbours_of f else ∅) <$> futures).

(** The union of the neighbour sets of all the futures of the level
    that returned. *)
Definition level_union (futures : list (@Future sess)) : gset Address :=
  ⋃ (neighbours_of <$> futures).

Definition level_done (st : @Sched sess) : Prop :=
  match mode st with
  | InPool _ futures _ => forallb yielded futures = true
  | _ => False
  end.

Definition next_frontier (st : @Sched sess) : gset Address :=
  match mode st with
  | InPool _ _ next_to_visit => next_to_visit
  | AtLoop to_visit => to_visit
  | _ => ∅
  end.

(** What the scheduler keeps true of the next frontier inside a level. *)
Definition frontier_inv (st : @Sched sess) : Prop :=
  match mode st with
  | InPool _ futures next_to_visit =>
      next_to_visit ⊆ collected futures /\
      collected futures ∖ visited_global (world st) ⊆ next_to_visit /\
      (forall i f, futures !! i = Some f -> yielded f = true -> ended (task f))
  | _ => True
  end.

(** A task that can only find its address visited, or has. *)
Definition noop_task (seed : Address) (t : Thread sess Outcome) : Prop :=
  match t with
  | Ret o => o = (tt, inr (∅, []))
  | Vis i k =>
      match i in instr _ X return (X -> Thread sess Outcome) -> Prop with
      | SeenUnderLock ip => fun k => ip = seed /\ k true = Ret (tt, inr (∅, []))
      | _ => fun _ => False
      end k
  end.

(** A run started on a visited seed touches nothing but the log. *)
Definition noop_inv (seed : Address) (w0 : World) (st : @Sched sess) : Prop :=
  visited_global (world st) = visited_global w0 /\
  results_global (world st) = results_global w0 /\
  calls (world st) = calls w0 /\
  match mode st with
  | AtLoop to_visit => to_visit = {[ seed ]} \/ to_visit = ∅
  | InPool _ futures next_to_visit =>
      next_to_visit = ∅ /\
      forall i f, futures !! i = Some f -> noop_task seed (task f)
  | _ => True
  end.

(** Where the worker of [ip] stands. *)
Definition phase (ip : Address) (w : World) (t : Thread sess Outcome) : Prop :=
  unclaimed env ip t
  \/ (about_to_claim env ip t /\ (ip ∉ visited_global w) /\ attempts w ip = 0)
  \/ owes env ip t
  \/ (always env (@settled sess) t /\ ip ∈ visited_global w).

(** What makes a second attempt on an address impossible. *)
Definition once_inv (st : @Sched sess) : Prop :=
  (forall ip, attempts (world st) ip <= 1) /\
  match mode st with
  | InPool to_visit futures _ =>
      length futures = length (elements to_visit) /\
      (forall i ip f,
          elements to_visit !! i = Some ip -> futures !! i = Some f ->
          phase ip (world st) (task f)) /\
      (forall i f, futures !! i = Some f -> yielded f = true -> ended (task f)) /\
      (forall ip,
          attempts (world st) ip = 1 ->
          ip ∈ visited_global (world st) \/
          exists i f, elements to_visit !! i = Some ip /\ futures !! i = Some f
                      /\ owes env ip (task f))
  | _ =>
      forall ip, attempts (world st) ip = 1 -> ip ∈ visited_global (world st)
  end.

End MachineProps.

(** *** The steps of the scheduler, case by case *)

Section Steps.

Context {sess : Type}.
Variable env : Env sess.
Variables (creds : Creds) (templates_path : string).
Variables (max_depth : Z) (max_workers : nat).

(** The test of [while] (line 237). *)
Definition loop_test (st : @Sched sess) (to_visit : gset Address) : bool :=
  (Z.of_nat (current_depth st) <=? max_depth)%Z
  && negb (bool_decide (to_visit = ∅)).

(** The world after line 238. *)
Definition level_logged (st : @Sched sess) (to_visit : gset Address) : World :=
  add_log INFO
    ("Starting discovery depth " +:+ PyStr.of_nat (current_depth st)
     +:+ " with " +:+ PyStr.of_nat (size to_visit) +:+ " device(s)")
    (world st).

Inductive Stepped (st : @Sched sess) : Action -> @Sched sess -> Prop :=
| S_enter to_visit :
    mode st = AtLoop to_visit -> loop_test st to_visit = true ->
    max_workers <> 0 ->
    Stepped st Main
      {| world := level_logged st to_visit;
         current_depth := current_depth st;
         mode := InPool to_visit
                   (submit env creds templates_path <$> elements to_visit) ∅ |}
| S_no_pool to_visit :
    mode st = AtLoop to_visit -> loop_test st to_visit = true ->
    max_workers = 0 ->
    Stepped st Main
      {| world := level_logged st to_visit;
         current_depth := current_depth st;
         mode := Failed "max_workers must be greater than 0" |}
| S_return to_visit :
    mode st = AtLoop to_visit -> loop_test st to_visit = false ->
    Stepped st Main
      {| world := world st; current_depth := current_depth st;
         mode := Returned |}
| S_next_level to_visit futures next_to_visit :
    mode st = InPool to_visit futures next_to_visit ->
    forallb yielded futures = true ->
    Stepped st Main
      {| world := world st; current_depth := S (current_depth st);
         mode := AtLoop next_to_visit |}
| S_work i to_visit futures next_to_visit f X (ins : instr sess X) k :
    mode st = InPool to_visit futures next_to_visit ->
    futures !! i = Some f -> task f = Vis ins k ->
    Stepped st (Work i)
      {| world := fst (do_instr env ins (world st));
         current_depth := current_depth st;
         mode := InPool to_visit
                   (<[ i := {| task := k (snd (do_instr env ins (world st)));
                               started := true; yielded := yielded f |} ]>
                      futures)
                   next_to_visit |}
| S_collect i to_visit futures next_to_visit f u neighbor_ips records :
    mode st = InPool to_visit futures next_to_visit ->
    futures !! i = Some f -> task f = Ret (u, inr (neighbor_ips, records)) ->
    yielded f = false ->
    Stepped st (Yield i)
      {| world := world st; current_depth := current_depth st;
         mode := InPool to_visit
                   (<[ i := {| task := task f; started := started f;
                               yielded := true |} ]> futures)
                   (next_to_visit
                    ∪ (neighbor_ips ∖ visited_global (world st))) |}
| S_caught i to_visit futures next_to_visit f u e :
    mode st = InPool to_visit futures next_to_visit ->
    futures !! i = Some f -> task f = Ret (u, inl e) ->
    yielded f = false ->
    Stepped st (Yield i)
      {| world := add_log ERROR ("Error in thread during discovery: " +:+ e)
                    (world st);
         current_depth := current_depth st;
         mode := InPool to_visit
                   (<[ i := {| task := task f; started := started f;
                               yielded := true |} ]> futures)
                   next_to_visit |}.

End Steps.

(** *** Two callers of [discover_single] *)

Section TwoThreads.

Context {sess : Type}.
Variable env : Env sess.

(** One instruction of a thread, if it has one left. *)
Definition advance {A} (t : Thread sess A) (w : World) : World * Thread sess A :=
  match t with
  | Ret _ => (w, t)
  | Vis i k => let '(w', x) := do_instr env i w in (w', k x)
  end.

(** Two threads taking turns on the shared state; [true] is a turn of the
    first. *)
Fixpoint interleave {A} (turns : list bool) (t1 t2 : Thread sess A) (w : World)
  : World * (Thread sess A * Thread sess A) :=
  match turns with
  | [] => (w, (t1, t2))
  | true :: rest =>
      let '(w', t1') := advance t1 w in interleave rest t1' t2 w'
  | false :: rest =>
      let '(w', t2') := advance t2 w in interleave rest t1 t2' w'
  end.

End TwoThreads.

(** *** Schedules of the example networks *)

#[global] Instance DeviceRecord_eq_dec : EqDecision DeviceRecord.
Proof. solve_decision. Defined.

#[global] Instance Call_eq_dec : EqDecision Call.
Proof. solve_decision. Defined.

Module Schedule.

(** [n] instructions of the worker of future [i]. *)
Definition works (i n : nat) : list Action := repeat (Work i) n.

(** A level of one address: the pool is filled, the worker runs its [n]
    instructions, its result is collected, the pool is left. *)
Definition level_of_one (n : nat) : list Action :=
  Main :: works 0 n ++ [Yield 0; Main].

(** [Lab.two_neighbours], depth 0: the level of the seed, then the test
    of [while] that ends the loop. *)
Definition seed_only : list Action := level_of_one 12 ++ [Main].

(** [Lab.pair], depth 1. *)
Definition two_levels : list Action :=
  level_of_one 12 ++ level_of_one 12 ++ [Main].

(** [Lab.relapse], depth 2, one worker after the other: at level 1 the
    worker of 10.0.0.3 and then that of 10.0.0.2, which the prompt stops;
    at level 2 the worker of 10.0.0.2 again. *)
Definition relapse_run : list Action :=
  level_of_one 12
  ++ (Main :: works 0 12 ++ works 1 7 ++ [Yield 0; Yield 1; Main])
  ++ level_of_one 7 ++ [Main].

(** [Lab.diamond]: the level of the seed; then, at level 1, the worker
    of 10.0.0.2 (future 1) runs and is collected before the worker of
    10.0.0.3 (future 0) starts; the worker of 10.0.0.4 (future 2) runs
    last. *)
Definition overtaken : list Action :=
  level_of_one 12
  ++ (Main :: works 1 12 ++ [Yield 1] ++ works 0 6 ++ works 2 12
      ++ [Yield 0; Yield 2]).

(** Two threads, one instruction each in turn, [n] times. *)
Definition alternate (n : nat) : list bool :=
  concat (repeat [true; false] n).

End Schedule.

(** The futures of the level a state is in. *)
Definition pool_futures {sess} (st : @Sched sess) : list (@Future sess) :=
  match mode st with
  | InPool _ futures _ => futures
  | _ => []
  end.

(** *** The scenario of depth 0 *)

Definition seed_record : DeviceRecord :=
  {| rec_ip := "10.0.0.1"; rec_device_type := "cisco_ios"; rec_hostname := "sw1" |}.

(** What holds of every state of a run on [Lab.two_neighbours] with
    [max_depth = 0], as a test. *)
Definition depth0_check (st : @Sched Lab.Session) : bool :=
  bool_decide (results_global (world st) `prefix_of` [seed_record])
  && bool_decide (visited_global (world st) ⊆ {[ "10.0.0.1" ]})
  && (attempts (world st) "10.0.0.2" =? 0)
  && (attempts (world st) "10.0.0.3" =? 0)
  && match mode st with
     | Returned =>
         bool_decide (visited_global (world st) = {[ "10.0.0.1" ]})
         && bool_decide (results_global (world st) = [seed_record])
     | AtLoop to_visit =>
         if current_depth st =? 0
         then bool_decide (to_visit = {[ "10.0.0.1" ]})
         else bool_decide (to_visit = {[ "10.0.0.2"; "10.0.0.3" ]})
     | InPool to_visit _ next_to_visit =>
         bool_decide (to_visit = {[ "10.0.0.1" ]})
         && bool_decide (next_to_visit ⊆ {[ "10.0.0.2"; "10.0.0.3" ]})
     | Failed _ => false
     end.

(** *** The outside calls of a connection *)

(** The outside calls of lines 106-109 and how they end: the connection,
    then [enable] when the credentials hold a secret. *)
Definition connection {sess} (env : Env sess) (p : DeviceParams)
    : list Call * (exn + sess) :=
  match ConnectHandler env p with
  | inl e => ([CallConnect (dp_host p) (dp_device_type p)], inl e)
  | inr s =>
      if truth (dp_secret p)
      then ([CallConnect (dp_host p) (dp_device_type p); CallEnable (dp_host p)],
            enable env s)
      else ([CallConnect (dp_host p) (dp_device_type p)], inr s)
  end.

(** *** What a piece of code does to its locals *)

Section LocalsProps.

Context {sess : Type}.
Variable env : Env sess.

(** However the code ends, its locals are related by [R] to the ones it
    started with. *)
Definition keeps {L A} (R : L -> L -> Prop) (m : Py sess L A) : Prop :=
  forall l l' r, may_end env (m l) (l', r) -> R l l'.

(** The neighbour set has lost nothing, and what it has gained has the
    shape of an IPv4 address. *)
Definition gains_addresses (l l' : @Locals sess) : Prop :=
  neighbor_ips l ⊆ neighbor_ips l' /\
  forall x, x ∈ neighbor_ips l' -> x ∈ neighbor_ips l \/ dotted_quad x.

End LocalsProps.

(** *** Where a worker stands with respect to its record *)

Section RecordProps.

Context {sess : Type}.
Variable env : Env sess.

(** A platform [discover_single] has commands for. *)
Definition supported (device_type : string) : Prop :=
  is_Some (VENDOR_COMMANDS !! device_type).

(** A thread that has added [ip]: it adds no address any more, and if it
    appends a record it is one record, of [ip] and of a supported
    platform. *)
Fixpoint appends_own (ip : Address) {A} (t : Thread sess A) : Prop :=
  match t with
  | Ret _ => True
  | Vis i k =>
      match i in instr _ X return (X -> Thread sess A) -> Prop with
      | ResultsAppend r =>
          fun k => rec_ip r = ip /\ supported (rec_device_type r)
                   /\ always env (@quiet sess) (k tt)
      | VisitedAdd _ => fun _ => False
      | i' => fun k => forall w, appends_own ip (k (snd (do_instr env i' w)))
      end k
  end.

(** A thread that appends nothing before it has added [ip]. *)
Fixpoint adds_then_appends (ip : Address) {A} (t : Thread sess A) : Prop :=
  match t with
  | Ret _ => True
  | Vis i k =>
      match i in instr _ X return (X -> Thread sess A) -> Prop with
      | VisitedAdd ip' => fun k => ip' = ip /\ appends_own ip (k tt)
      | ResultsAppend _ => fun _ => False
      | i' => fun k => forall w, adds_then_appends ip (k (snd (do_instr env i' w)))
      end k
  end.

(** A thread about to test whether [ip] is visited. *)
Definition tests_first (ip : Address) {A} (t : Thread sess A) : Prop :=
  match t with
  | Ret _ => False
  | Vis i k =>
      match i in instr _ X return (X -> Thread sess A) -> Prop with
      | SeenUnderLock ip' =>
          fun k => ip' = ip
                   /\ match k true with Ret _ => True | Vis _ _ => False end
                   /\ adds_then_appends ip (k false)
      | _ => fun _ => False
      end k
  end.

(** The addresses that have a record. *)
Definition recorded (w : World) : list Address := rec_ip <$> results_global w.

(** Every record is of a visited address and of a supported platform, and
    no address has two. *)
Definition records_ok (w : World) : Prop :=
  NoDup (recorded w) /\
  forall r, r ∈ results_global w ->
            rec_ip r ∈ visited_global w /\ supported (rec_device_type r).

Definition record_phase (ip : Address) (w : World) (t : Thread sess Outcome)
  : Prop :=
  tests_first ip t
  \/ (adds_then_appends ip t /\ ip ∉ recorded w)
  \/ (appends_own ip t /\ ip ∈ visited_global w /\ ip ∉ recorded w)
  \/ always env (@quiet sess) t.

Definition records_inv (st : @Sched sess) : Prop :=
  records_ok (world st) /\
  match mode st with
  | InPool to_visit futures _ =>
      length futures = length (elements to_visit) /\
      forall i ip f,
        elements to_visit !! i = Some ip -> futures !! i = Some f ->
        record_phase ip (world st) (task f)
  | _ => True
  end.

End RecordProps.

(** *** What a worker touches *)

(** The host an outside call goes to. *)
Definition call_host (c : Call) : Address :=
  match c with
  | CallDetect host | CallConnect host _ | CallEnable host
  | CallPrompt host | CallSend host _ => host
  end.

(** An instruction that concerns the address [ip] and no other. *)
Definition of_address {sess} (ip : Address) {X} (i : instr sess X) : Prop :=
  match i with
  | Log _ _ => True
  | SeenUnderLock ip' | VisitedAdd ip' => ip' = ip
  | ResultsAppend r => rec_ip r = ip
  | Autodetect p => bp_host p = ip
  | Connect p => dp_host p = ip
  | Enable host _ | FindPrompt host _ | SendCommand host _ _ => host = ip
  end.

(** The world [w'] differs from [w] by what concerns [ip] only: the
    visited set may have gained [ip], the results records of [ip], the
    trace calls to [ip], the log any record. *)
Definition touches_only (ip : Address) (w w' : World) : Prop :=
  visited_global w ⊆ visited_global w' /\
  visited_global w' ⊆ visited_global w ∪ {[ ip ]} /\
  (exists rs, results_global w' = results_global w ++ rs
              /\ Forall (fun r => rec_ip r = ip) rs) /\
  (exists cs, calls w' = calls w ++ cs
              /\ Forall (fun c => call_host c = ip) cs) /\
  log w `prefix_of` log w'.

(** *** Failures of the outside calls and what follows them *)

Section Handled.

Context {sess : Type}.

(** The exception an outside call of the platform detection
    ([SSHDetect(...).autodetect()]), of the session establishment
    ([ConnectHandler], [enable]) or of the command execution
    ([send_command]) has ended with, if it has. *)
Definition failure {X} (i : instr sess X) : X -> option exn :=
  match i in instr _ X return X -> option exn with
  | Autodetect _ => fun r => match r with inl e => Some e | inr _ => None end
  | Connect _ => fun r => match r with inl e => Some e | inr _ => None end
  | Enable _ _ => fun r => match r with inl e => Some e | inr _ => None end
  | SendCommand _ _ _ =>
      fun r => match fst r with inl e => Some e | inr _ => None end
  | _ => fun _ => None
  end.

(** The next thing the thread does is to log [e]: an error record that
    ends with the text of [e], or, for the syntax error that sends the
    Juniper branch to its per-interface commands, the warning of line
    196. *)
Definition reports (e : exn) {A} (t : Thread sess A) : Prop :=
  match t with
  | Ret _ => False
  | Vis i _ =>
      match i with
      | Log ERROR m => exists prefix, m = prefix +:+ e
      | Log WARNING _ => PyStr.contains "syntax error" (PyStr.lower e) = true
      | _ => False
      end
  end.

(** What may follow a failure: the log record, or, inside a [try], the
    end of the block with the exception. *)
Definition reports_or_raises (inside_try : bool) (e : exn) {L A}
    (t : Thread sess (L * (exn + A))) : Prop :=
  match t with
  | Ret (_, inl e') => inside_try = true /\ e' = e
  | _ => reports e t
  end.

Variable env : Env sess.

(** Every failure of an outside call of detection, connection or command
    execution in [t] is followed by its log record; inside a [try] it may
    also end the block, for the handler to log it. *)
Fixpoint handled (inside_try : bool) {L A} (t : Thread sess (L * (exn + A)))
  : Prop :=
  match t with
  | Ret _ => True
  | Vis i k =>
      forall w,
        let x := snd (do_instr env i w) in
        match failure i x with
        | Some e => reports_or_raises inside_try e (k x)
        | None => True
        end /\ handled inside_try (k x)
  end.

End Handled.

(** * Properties *)

(** ** The matcher and the address extractor *)

Section Matcher.

Import Re.

Lemma last_of_app p m1 m2 : last_of (last_of p m1) m2 = last_of p (m1 ++ m2).
Proof.
  unfold last_of. destruct m2 as [|c m2] using rev_ind.
  - rewrite app_nil_r. simpl. destruct (last m1); reflexivity.
  - rewrite app_assoc, !last_snoc. reflexivity.
Qed.

Lemma exec_sound r : forall R (k : Re.cont R) p s x,
  Re.exec r p s k = Some x ->
  exists m rest, s = m ++ rest /\ Matches r p m rest /\ k (last_of p m) rest = Some x.
Proof.
  induction r as [ | a | | r1 IH1 r2 IH2 | r IH lo hi ]; intros R k p s x H; simpl in H.
  - destruct s as [|c s']; [discriminate|].
    destruct (is_digit c) eqn:Hd; [|discriminate].
    exists [c], s'. repeat split; [by constructor | exact H].
  - destruct s as [|c s']; [discriminate|].
    destruct (Ascii.eqb a c) eqn:Hd; [|discriminate].
    apply Ascii.eqb_eq in Hd. subst c.
    exists [a], s'. repeat split; [constructor | exact H].
  - destruct (xorb _ _) eqn:Hx; [|discriminate].
    exists [], s. repeat split; [by constructor | exact H].
  - apply IH1 in H as (m1 & t & -> & Hm1 & H).
    apply IH2 in H as (m2 & rest & -> & Hm2 & H).
    exists (m1 ++ m2), rest. rewrite app_assoc. repeat split.
    + by constructor.
    + by rewrite <- last_of_app.
  - revert lo p s H. induction hi as [|hi IHhi]; intros lo p s H.
    + destruct lo; [|discriminate].
      exists [], s. repeat split; [constructor | exact H].
    + match type of H with
      | match ?e with _ => _ end = _ => destruct e as [y|] eqn:He
      end.
      * inversion H; subst y; clear H.
        apply IH in He as (m1 & t & -> & Hm1 & He).
        apply IHhi in He as (m2 & rest & -> & Hm2 & He).
        exists (m1 ++ m2), rest. rewrite app_assoc. repeat split.
        -- by constructor.
        -- by rewrite <- last_of_app.
      * destruct lo; [|discriminate].
        exists [], s. repeat split; [constructor | exact H].
Qed.

Lemma exec_complete r p m rest :
  Matches r p m rest ->
  forall R (k : Re.cont R) x, k (last_of p m) rest = Some x ->
  exists y, Re.exec r p (m ++ rest) k = Some y.
Proof.
  induction 1 as [ p c rest Hd | p a rest | p rest Hx
                 | r1 r2 p m1 m2 rest _ IH1 _ IH2
                 | r hi p rest
                 | r lo hi p m1 m2 rest _ IH1 _ IH2 ]; intros R k x Hk; simpl.
  - rewrite Hd. eauto.
  - rewrite Ascii.eqb_refl. eauto.
  - rewrite Hx. eauto.
  - rewrite <- last_of_app in Hk.
    destruct (IH2 _ k x Hk) as [y Hy].
    rewrite <- app_assoc.
    exact (IH1 _ (fun p t => Re.exec r2 p t k) y Hy).
  - simpl in Hk. destruct hi as [|hi]; [eauto|].
    match goal with |- exists _, match ?e with _ => _ end = _ => destruct e end; eauto.
  - rewrite <- last_of_app in Hk.
    destruct (IH2 _ k x Hk) as [y Hy]. simpl in Hy.
    rewrite <- app_assoc.
    match goal with
    | |- exists _, match Re.exec r p ?s ?k' with _ => _ end = _ =>
        destruct (IH1 _ k' y Hy) as [z Hz]
    end.
    rewrite Hz. eauto.
Qed.

Lemma last_of_cons prev c pre : last_of (Some c) pre = last_of prev (c :: pre).
Proof.
  unfold last_of. destruct pre as [|d pre]; [reflexivity|].
  change (c :: d :: pre) with ([c] ++ d :: pre).
  rewrite last_app. simpl. destruct (last (d :: pre)) eqn:E; [reflexivity|].
  apply last_None in E. discriminate.
Qed.

Lemma occurs_cons r prev c s x : occurs r (Some c) s x -> occurs r prev (c :: s) x.
Proof.
  intros (pre & rest & -> & H). exists (c :: pre), rest. split; [reflexivity|].
  by rewrite <- last_of_cons.
Qed.

Lemma match_here_sound r prev s rest :
  Re.match_here r prev s = Some rest ->
  exists m, s = m ++ rest /\ Matches r prev m rest.
Proof.
  intros H. apply exec_sound in H as (m & t & -> & Hm & [= ->]). eauto.
Qed.

Lemma scan_cons r prev c s skip :
  Re.scan r prev (c :: s) skip =
  match skip with
  | S n => Re.scan r (Some c) s n
  | O =>
      match Re.match_here r prev (c :: s) with
      | Some rest =>
          let n := length (c :: s) - length rest in
          take n (c :: s) :: Re.scan r (Some c) s (pred n)
      | None => Re.scan r (Some c) s 0
      end
  end.
Proof. reflexivity. Qed.

Lemma scan_sound r s : forall prev skip x,
  x ∈ Re.scan r prev s skip -> occurs r prev s x.
Proof.
  induction s as [|c s IH]; intros prev skip x Hx; [simpl in Hx | rewrite scan_cons in Hx].
  - destruct skip; [|by apply elem_of_nil in Hx].
    destruct (Re.match_here r prev []) as [rest|] eqn:E; [|by apply elem_of_nil in Hx].
    apply list_elem_of_singleton in Hx. subst x.
    apply match_here_sound in E as (m & Hs & Hm).
    symmetry in Hs. apply app_eq_nil in Hs as [-> ->].
    exists [], []. split; [reflexivity | exact Hm].
  - destruct skip as [|n].
    + destruct (Re.match_here r prev (c :: s)) as [rest|] eqn:E.
      * cbv zeta in Hx. apply elem_of_cons in Hx as [-> | Hx].
        -- apply match_here_sound in E as (m & Hs & Hm).
           exists [], rest. rewrite Hs.
           rewrite length_app, Nat.add_sub, take_app_length. split; [reflexivity | exact Hm].
        -- apply occurs_cons. eapply IH, Hx.
      * apply occurs_cons. eapply IH, Hx.
    + apply occurs_cons. eapply IH, Hx.
Qed.

Lemma scan_complete r pre : forall prev skip s x rest,
  s = pre ++ x ++ rest -> skip <= length pre ->
  Matches r (last_of prev pre) x rest ->
  Re.scan r prev s skip <> [].
Proof.
  induction pre as [|c pre IH]; intros prev skip s x rest -> Hskip Hm.
  - simpl in Hskip. assert (skip = 0) as -> by lia. simpl app.
    destruct (exec_complete _ _ _ _ Hm _ (fun _ t => Some t) rest eq_refl) as [y Hy].
    fold (Re.match_here r (last_of prev []) (x ++ rest)) in Hy. simpl in Hy.
    destruct (x ++ rest) as [|d t]; simpl; unfold last_of in Hy; simpl in Hy; rewrite Hy; discriminate.
  - simpl. destruct skip as [|n].
    + destruct (Re.match_here r prev (c :: pre ++ x ++ rest)); [discriminate|].
      eapply IH; [reflexivity | lia |]. by rewrite (last_of_cons prev).
    + eapply IH; [reflexivity | simpl in Hskip; lia |]. by rewrite (last_of_cons prev).
Qed.


(** *** The scan finds the leftmost matches *)

Section Scan.

Variable r : Re.regex.
Hypothesis nonempty : forall p m rest, Matches r p m rest -> m <> [].
Hypothesis unique :
  forall p m rest m' rest',
    Matches r p m rest -> Matches r p m' rest' -> m ++ rest = m' ++ rest' -> m = m'.

Lemma match_here_none prev s :
  (forall x rest, s = x ++ rest -> ~ Matches r prev x rest) ->
  Re.match_here r prev s = None.
Proof.
  intros Hno. destruct (Re.match_here r prev s) as [rest|] eqn:E; [|reflexivity].
  apply match_here_sound in E as (m & Hs & Hm). by destruct (Hno m rest Hs).
Qed.

Lemma match_here_some prev x rest :
  Matches r prev x rest -> Re.match_here r prev (x ++ rest) = Some rest.
Proof.
  intros Hm.
  destruct (exec_complete _ _ _ _ Hm _ (fun _ t => Some t) rest eq_refl) as [y Hy].
  fold (Re.match_here r prev (x ++ rest)) in Hy. rewrite Hy.
  apply match_here_sound in Hy as (m & Hs & Hm').
  pose proof (unique _ _ _ _ _ Hm Hm' Hs) as <-.
  apply app_inv_head in Hs. by subst y.
Qed.

Lemma match_here_nil prev : Re.match_here r prev [] = None.
Proof.
  apply match_here_none. intros x rest Hs Hm.
  symmetry in Hs. apply app_eq_nil in Hs as [-> _]. by apply nonempty in Hm.
Qed.

Lemma last_of_nil prev : last_of prev [] = prev.
Proof. unfold last_of. simpl. by destruct prev. Qed.

Lemma scan_skip x : forall prev rest,
  Re.scan r prev (x ++ rest) (length x) = Re.scan r (last_of prev x) rest 0.
Proof.
  induction x as [|c x IH]; intros prev rest.
  - simpl app. simpl length. by rewrite last_of_nil.
  - simpl app. simpl length. rewrite scan_cons, IH. by rewrite (last_of_cons prev).
Qed.

Lemma scan_match prev x rest :
  x <> [] -> Re.match_here r prev (x ++ rest) = Some rest ->
  Re.scan r prev (x ++ rest) 0 = x :: Re.scan r (last_of prev x) rest 0.
Proof.
  intros Hx Hm. destruct x as [|c x]; [done|].
  simpl app in *. rewrite scan_cons, Hm. cbv zeta.
  change (c :: x ++ rest) with ((c :: x) ++ rest).
  rewrite length_app, Nat.add_sub, take_app_length. f_equal.
  simpl length. simpl pred. rewrite scan_skip. by rewrite (last_of_cons prev).
Qed.

(** What the declarative scan finds is what [scan] returns. *)
Lemma leftmost_scan prev s xs :
  Leftmost r prev s xs -> Re.scan r prev s 0 = xs.
Proof.
  induction 1 as [prev | prev c s xs Hno _ IH | prev x rest xs Hx Hm _ IH].
  - simpl. by rewrite match_here_nil.
  - rewrite scan_cons, (match_here_none _ _ Hno). exact IH.
  - rewrite (scan_match _ _ _ Hx (match_here_some _ _ _ Hm)). by rewrite IH.
Qed.

(** And [scan] is such a reading. *)
Lemma scan_leftmost n : forall s prev,
  length s <= n -> Leftmost r prev s (Re.scan r prev s 0).
Proof.
  induction n as [|n IH]; intros s prev Hlen.
  { destruct s; [|simpl in Hlen; lia]. simpl. rewrite match_here_nil. constructor. }
  destruct s as [|c s]; [simpl; rewrite match_here_nil; constructor|].
  destruct (Re.match_here r prev (c :: s)) as [rest|] eqn:E.
  - pose proof E as E'. apply match_here_sound in E' as (m & Hs & Hm).
    pose proof (nonempty _ _ _ Hm) as Hne. rewrite Hs in E |- *.
    rewrite (scan_match _ _ _ Hne E). apply L_match; [done | done |].
    apply IH. apply (f_equal length) in Hs. rewrite length_app in Hs.
    simpl in Hs, Hlen. destruct m; [done|]. simpl in Hs. lia.
  - rewrite scan_cons, E. apply L_skip.
    + intros x rest Hs Hm. rewrite Hs, (match_here_some _ _ _ Hm) in E.
      discriminate E.
    + apply IH. simpl in Hlen. lia.
Qed.

End Scan.

End Matcher.

Ltac invert H := inversion H; subst; clear H.

Lemma text_chars s : PyStr.text (PyStr.chars s) = s.
Proof. apply string_of_list_ascii_of_string. Qed.

Lemma chars_text l : PyStr.chars (PyStr.text l) = l.
Proof. apply list_ascii_of_string_of_list_ascii. Qed.

Lemma text_app a b : PyStr.text (a ++ b) = PyStr.text a +:+ PyStr.text b.
Proof.
  unfold PyStr.text. induction a as [|c a IH]; simpl; [reflexivity|].
  rewrite IH. reflexivity.
Qed.

Lemma chars_app a b : PyStr.chars (a +:+ b) = PyStr.chars a ++ PyStr.chars b.
Proof.
  unfold PyStr.text. induction a as [|c a IH]; simpl; [reflexivity|].
  rewrite IH. reflexivity.
Qed.

Lemma rep_digit_group hi : forall lo p m rest,
  Matches (Re.Rep Re.Digit lo hi) p m rest ->
  lo <= length m <= hi /\ Forall (fun c => Re.is_digit c = true) m.
Proof.
  induction hi as [|hi IH]; intros lo p m rest H; invert H.
  - simpl. split; [lia | constructor].
  - simpl. split; [lia | constructor].
  - match goal with
    | H1 : Matches Re.Digit _ _ _, H2 : Matches (Re.Rep _ _ _) _ _ _ |- _ =>
        invert H1; apply IH in H2 as [Hlen Hall]
    end.
    simpl. split; [lia | by constructor].
Qed.

Lemma group_dot p m rest :
  Matches (Re.Seq (Re.Rep Re.Digit 1 3) (Re.Chr ".")) p m rest ->
  exists g, m = g ++ ["."%char] /\ digit_group g.
Proof.
  intros H. invert H.
  match goal with
  | H1 : Matches (Re.Rep _ _ _) _ _ _, H2 : Matches (Re.Chr _) _ _ _ |- _ =>
      apply rep_digit_group in H1; invert H2
  end.
  eexists. split; [reflexivity | assumption].
Qed.

Lemma ipv4_pattern_shape p m rest :
  Matches ipv4_pattern p m rest -> dotted_quad (PyStr.text m).
Proof.
  unfold ipv4_pattern. intros H.
  invert H. match goal with H : Matches Re.WordB _ _ _ |- _ => invert H end.
  match goal with H : Matches (Re.Seq (Re.Rep _ 3 3) _) _ _ _ |- _ => invert H end.
  match goal with H : Matches (Re.Seq (Re.Rep Re.Digit _ _) Re.WordB) _ _ _ |- _ => invert H end.
  match goal with H : Matches Re.WordB _ _ _ |- _ => invert H end.
  match goal with H : Matches (Re.Rep Re.Digit _ _) _ _ _ |- _ =>
    apply rep_digit_group in H; rename H into G4 end.
  match goal with H : Matches (Re.Rep _ 3 3) _ _ _ |- _ => invert H end.
  match goal with H : Matches (Re.Rep _ _ 2) _ _ _ |- _ => simpl in H; invert H end.
  match goal with H : Matches (Re.Rep _ _ 1) _ _ _ |- _ => simpl in H; invert H end.
  match goal with H : Matches (Re.Rep _ _ 0) _ _ _ |- _ => simpl in H; invert H end.
  match goal with H : Matches (Re.Seq _ _) _ _ _ |- _ =>
    apply group_dot in H as (ga & -> & Ha) end.
  match goal with H : Matches (Re.Seq _ _) _ _ _ |- _ =>
    apply group_dot in H as (gb & -> & Hb) end.
  match goal with H : Matches (Re.Seq _ _) _ _ _ |- _ =>
    apply group_dot in H as (gc & -> & Hc) end.
  match type of G4 with _ <= length ?g <= _ /\ _ => set (gd := g) in * end.
  unfold dotted_quad. rewrite chars_text.
  assert (Hshape : forall g1 g2 g3 : list ascii,
             [] ++ ((g1 ++ ["."%char]) ++ (g2 ++ ["."%char]) ++ (g3 ++ ["."%char]) ++ [])
                ++ gd ++ []
             = g1 ++ "."%char :: g2 ++ "."%char :: g3 ++ "."%char :: gd).
  { intros g1 g2 g3. rewrite !app_nil_r. simpl. rewrite <- !app_assoc. reflexivity. }
  match goal with
  | |- exists _ _ _ _, [] ++ ((?g1 ++ _) ++ (?g2 ++ _) ++ (?g3 ++ _) ++ []) ++ _ = _ /\ _ =>
      exists g1, g2, g3, gd; split; [apply Hshape|]
  end.
  repeat split; first [apply Ha | apply Hb | apply Hc | apply G4].
Qed.

(** *** The address pattern matches in one way at a position *)

Lemma is_digit_word c : Re.is_digit c = true -> Re.is_word c = true.
Proof. unfold Re.is_digit, Re.is_word. intros ->. reflexivity. Qed.

Lemma last_of_digit_group q g :
  digit_group g -> Re.word_at (last_of q g) = true.
Proof.
  intros [Hlen Hall]. unfold last_of.
  destruct (last g) as [c|] eqn:E.
  - simpl. apply is_digit_word.
    rewrite Forall_forall in Hall. apply Hall.
    apply last_Some in E as [g' ->]. set_solver.
  - apply last_None in E. subst g. simpl in Hlen. lia.
Qed.

Lemma no_word_ahead rest :
  Re.word_at (head rest) = false -> no_digit_ahead rest.
Proof.
  destruct rest as [|c rest]; simpl; [done|].
  intros Hw. destruct (Re.is_digit c) eqn:Hd; [|reflexivity].
  apply is_digit_word in Hd. congruence.
Qed.

(** What a match of the pattern is made of, and what follows it. *)
Lemma ipv4_pattern_inv p m rest :
  Matches ipv4_pattern p m rest ->
  exists g1 g2 g3 g4,
    m = g1 ++ "."%char :: g2 ++ "."%char :: g3 ++ "."%char :: g4 /\
    digit_group g1 /\ digit_group g2 /\ digit_group g3 /\ digit_group g4 /\
    no_digit_ahead rest.
Proof.
  unfold ipv4_pattern. intros H.
  invert H. match goal with H : Matches Re.WordB _ _ _ |- _ => invert H end.
  match goal with H : Matches (Re.Seq (Re.Rep _ 3 3) _) _ _ _ |- _ => invert H end.
  match goal with H : Matches (Re.Seq (Re.Rep Re.Digit _ _) Re.WordB) _ _ _ |- _ => invert H end.
  match goal with H : Matches Re.WordB _ _ _ |- _ => invert H end.
  match goal with H : Matches (Re.Rep Re.Digit _ _) _ _ _ |- _ =>
    apply rep_digit_group in H; rename H into G4 end.
  match goal with H : Matches (Re.Rep _ 3 3) _ _ _ |- _ => invert H end.
  match goal with H : Matches (Re.Rep _ _ 2) _ _ _ |- _ => simpl in H; invert H end.
  match goal with H : Matches (Re.Rep _ _ 1) _ _ _ |- _ => simpl in H; invert H end.
  match goal with H : Matches (Re.Rep _ _ 0) _ _ _ |- _ => simpl in H; invert H end.
  match goal with H : Matches (Re.Seq _ _) _ _ _ |- _ =>
    apply group_dot in H as (ga & -> & Ha) end.
  match goal with H : Matches (Re.Seq _ _) _ _ _ |- _ =>
    apply group_dot in H as (gb & -> & Hb) end.
  match goal with H : Matches (Re.Seq _ _) _ _ _ |- _ =>
    apply group_dot in H as (gc & -> & Hc) end.
  match type of G4 with _ <= length ?g <= _ /\ _ => set (gd := g) in * end.
  assert (Hshape : forall g1 g2 g3 : list ascii,
             [] ++ ((g1 ++ ["."%char]) ++ (g2 ++ ["."%char]) ++ (g3 ++ ["."%char]) ++ [])
                ++ gd ++ []
             = g1 ++ "."%char :: g2 ++ "."%char :: g3 ++ "."%char :: gd).
  { intros g1 g2 g3. rewrite !app_nil_r. simpl. rewrite <- !app_assoc. reflexivity. }
  assert (Hend : no_digit_ahead rest).
  { apply no_word_ahead.
    match goal with
    | H : xorb (Re.word_at (last_of ?q gd)) (Re.word_at (head rest)) = true |- _ =>
        rewrite (last_of_digit_group q gd G4) in H; simpl in H;
        by apply negb_true_iff in H
    end. }
  match goal with
  | |- exists _ _ _ _, [] ++ ((?g1 ++ _) ++ (?g2 ++ _) ++ (?g3 ++ _) ++ []) ++ _ = _ /\ _ =>
      exists g1, g2, g3, gd; split; [apply Hshape|]
  end.
  repeat split; first [apply Ha | apply Hb | apply Hc | apply G4 | exact Hend].
Qed.

Lemma ipv4_pattern_nonempty p m rest : Matches ipv4_pattern p m rest -> m <> [].
Proof.
  intros (g1 & g2 & g3 & g4 & -> & _)%ipv4_pattern_inv.
  by destruct g1.
Qed.

(** Digits up to a character that is none: one way to cut. *)
Lemma digits_split g : forall g' t t',
  Forall (fun c => Re.is_digit c = true) g ->
  Forall (fun c => Re.is_digit c = true) g' ->
  no_digit_ahead t -> no_digit_ahead t' ->
  g ++ t = g' ++ t' -> g = g' /\ t = t'.
Proof.
  induction g as [|c g IH]; intros g' t t' Hg Hg' Ht Ht' Heq.
  - destruct g' as [|c' g']; [by split|].
    simpl in Heq. subst t. simpl in Ht.
    apply Forall_cons in Hg' as [Hc' _]. congruence.
  - destruct g' as [|c' g'].
    + simpl in Heq. subst t'. simpl in Ht'.
      apply Forall_cons in Hg as [Hc _]. congruence.
    + simpl in Heq. injection Heq as <- Heq.
      apply Forall_cons in Hg as [_ Hg]. apply Forall_cons in Hg' as [_ Hg'].
      destruct (IH g' t t' Hg Hg' Ht Ht' Heq) as [-> ->]. by split.
Qed.

Lemma ipv4_pattern_unique p m rest m' rest' :
  Matches ipv4_pattern p m rest -> Matches ipv4_pattern p m' rest' ->
  m ++ rest = m' ++ rest' -> m = m'.
Proof.
  intros (g1 & g2 & g3 & g4 & -> & [_ H1] & [_ H2] & [_ H3] & [_ H4] & Hrest)
           %ipv4_pattern_inv
         (g1' & g2' & g3' & g4' & -> & [_ H1'] & [_ H2'] & [_ H3'] & [_ H4'] & Hrest')
           %ipv4_pattern_inv Heq.
  assert (Hdot : forall t, no_digit_ahead ("."%char :: t)) by (intros t; reflexivity).
  rewrite <- !app_assoc in Heq. simpl in Heq.
  rewrite <- !app_assoc in Heq. simpl in Heq.
  rewrite <- !app_assoc in Heq. simpl in Heq.
  apply digits_split in Heq as [-> Heq]; [|done..].
  injection Heq as Heq.
  apply digits_split in Heq as [-> Heq]; [|done..].
  injection Heq as Heq.
  apply digits_split in Heq as [-> Heq]; [|done..].
  injection Heq as Heq.
  apply digits_split in Heq as [-> Heq]; done.
Qed.

Lemma elem_of_findall r text x :
  x ∈ Re.findall r text ->
  exists pre post,
    text = pre +:+ x +:+ post /\
    Matches r (last (PyStr.chars pre)) (PyStr.chars x) (PyStr.chars post).
Proof.
  unfold Re.findall. intros H.
  apply list_elem_of_fmap in H as (l & -> & Hl).
  apply scan_sound in Hl as (pre & rest & Hs & Hm).
  exists (PyStr.text pre), (PyStr.text rest). split.
  - rewrite <- !text_app, <- Hs. symmetry. apply text_chars.
  - rewrite !chars_text. unfold last_of in Hm. destruct (last pre); exact Hm.
Qed.

Lemma findall_nonempty r text pre x post :
  text = pre +:+ x +:+ post ->
  Matches r (last (PyStr.chars pre)) (PyStr.chars x) (PyStr.chars post) ->
  Re.findall r text <> [].
Proof.
  intros -> Hm. unfold Re.findall. intros Hnil.
  apply fmap_nil_inv in Hnil. revert Hnil.
  eapply scan_complete with (pre := PyStr.chars pre).
  - rewrite !chars_app. reflexivity.
  - lia.
  - unfold last_of. destruct (last (PyStr.chars pre)); exact Hm.
Qed.

(** C4.  For every text the address extractor returns a set: its elements
    are pairwise distinct; each is a substring of the text made of four
    groups of one to three digits separated by dots (nothing bounds a
    group by 255: all of [999.999.999.999] is returned).  The elements
    are the matches of a reading of the text from left to right, and of
    every such reading: where the pattern matches at the current position
    the match is taken and the reading goes on after it, otherwise it
    goes on one character further; [findall] lists them in this order.
    The result is empty exactly when the pattern matches nowhere in the
    text, so it is empty when no substring has the four-group shape, and
    for the empty text. *)
Theorem extract_all_ips_spec (text : string) :
  NoDup (elements (extract_all_ips text)) /\
  (forall x, x ∈ extract_all_ips text -> substring x text /\ dotted_quad x) /\
  (exists xs, Leftmost ipv4_pattern None (PyStr.chars text) xs) /\
  (forall xs,
      Leftmost ipv4_pattern None (PyStr.chars text) xs ->
      Re.findall ipv4_pattern text = map PyStr.text xs /\
      extract_all_ips text = list_to_set (map PyStr.text xs)) /\
  (extract_all_ips text = ∅ <-> forall pre x post, ~ pattern_at text pre x post) /\
  ((forall x, substring x text -> ~ dotted_quad x) -> extract_all_ips text = ∅) /\
  extract_all_ips "" = ∅ /\
  extract_all_ips "999.999.999.999" = {[ "999.999.999.999" ]}.
Proof.
  assert (Hmem : forall x, x ∈ extract_all_ips text ->
                 exists pre post, pattern_at text pre x post).
  { intros x Hx. unfold extract_all_ips in Hx. apply elem_of_list_to_set in Hx.
    apply elem_of_findall in Hx as (pre & post & ? & ?).
    exists pre, post. by split. }
  assert (Hsound : forall x, x ∈ extract_all_ips text ->
                   substring x text /\ dotted_quad x).
  { intros x Hx. destruct (Hmem x Hx) as (pre & post & Ht & Hm). split.
    - by exists pre, post.
    - apply ipv4_pattern_shape in Hm. by rewrite text_chars in Hm. }
  split; [apply NoDup_elements|].
  split; [exact Hsound|].
  split.
  { exists (Re.scan ipv4_pattern None (PyStr.chars text) 0).
    by apply (scan_leftmost ipv4_pattern ipv4_pattern_nonempty ipv4_pattern_unique
                (length (PyStr.chars text))). }
  split.
  { intros xs Hxs.
    apply (leftmost_scan ipv4_pattern ipv4_pattern_nonempty ipv4_pattern_unique)
      in Hxs.
    unfold extract_all_ips, Re.findall. by rewrite Hxs. }
  split; [|split; [|split]].
  - split.
    + intros Hempty pre x post [Ht Hm].
      apply (findall_nonempty _ _ _ _ _ Ht Hm).
      unfold extract_all_ips in Hempty.
      destruct (Re.findall ipv4_pattern text) as [|y l]; [reflexivity|].
      exfalso. apply (not_elem_of_empty (C := gset Address) y).
      rewrite <- Hempty. apply elem_of_list_to_set. left.
    + intros Hnone. apply set_eq. intros x. split; [|by intros ?%not_elem_of_empty].
      intros Hx. destruct (Hmem x Hx) as (pre & post & Hp). by destruct (Hnone pre x post).
  - intros Hnone. apply set_eq. intros x. split; [|by intros ?%not_elem_of_empty].
    intros Hx. destruct (Hsound x Hx) as [Hs Hq]. by destruct (Hnone x Hs).
  - by vm_compute.
  - by vm_compute.
Qed.

(** Against C4 as stated: in [1.2.3.4.5] the pattern matches [2.3.4.5],
    after [1.] and up to the end, but the scan has taken [1.2.3.4] and
    goes on after it: the result is not the set of the substrings that
    match the pattern. *)
Lemma overlapping_match_not_returned :
  pattern_at "1.2.3.4.5" "1." "2.3.4.5" "" /\
  extract_all_ips "1.2.3.4.5" = {[ "1.2.3.4" ]} /\
  ~ (forall x, x ∈ extract_all_ips "1.2.3.4.5" <->
               exists pre post, pattern_at "1.2.3.4.5" pre x post).
Proof.
  assert (Hat : pattern_at "1.2.3.4.5" "1." "2.3.4.5" "").
  { split; [reflexivity|].
    assert (Hm : Re.match_here ipv4_pattern (Some "."%char) (PyStr.chars "2.3.4.5")
                 = Some []) by (vm_compute; reflexivity).
    apply match_here_sound in Hm as (m & Hs & Hm).
    rewrite app_nil_r in Hs. subst m. exact Hm. }
  assert (Hres : extract_all_ips "1.2.3.4.5" = {[ "1.2.3.4" ]}) by (by vm_compute).
  split; [exact Hat|]. split; [exact Hres|].
  intros Hall. destruct (Hall "2.3.4.5") as [_ Hback].
  assert (Hin : "2.3.4.5" ∈ extract_all_ips "1.2.3.4.5") by (apply Hback; eauto).
  rewrite Hres in Hin. apply elem_of_singleton in Hin. discriminate Hin.
Qed.

(** ** Threads and the monad of Python code *)

(** A look-up that returned: the code after it runs on its value. *)
Ltac lift_step :=
  repeat match goal with
         | |- context [mbind ?k (lift (inr ?a))] =>
             change (mbind k (lift (inr a))) with (k a); cbv beta
         end.

Section ThreadLemmas.

Context {sess : Type}.
Variable env : Env sess.

Lemma run_tbind {A B} (t : Thread sess A) (k : A -> Thread sess B) w :
  run env (tbind t k) w = let '(w1, a) := run env t w in run env (k a) w1.
Proof.
  revert w. induction t as [a | X i h IH]; intros w; simpl; [reflexivity|].
  destruct (do_instr env i w) as [w' x]. apply IH.
Qed.

Lemma bind_lift_inr {L A B} (a : A) (k : A -> Py sess L B) l :
  bind (lift (inr a)) k l = k a l.
Proof. reflexivity. Qed.

Lemma bind_lift_inl {L A B} (e : exn) (k : A -> Py sess L B) l :
  bind (lift (inl e)) k l = Ret (l, inl e).
Proof. reflexivity. Qed.

Lemma may_end_tbind {A B} (t : Thread sess A) (k : A -> Thread sess B) o :
  may_end env (tbind t k) o <-> exists a, may_end env t a /\ may_end env (k a) o.
Proof.
  induction t as [a | X i h IH]; simpl.
  - split; [eauto | by intros (? & -> & ?)].
  - split.
    + intros [w Hw]. apply IH in Hw as (a & ? & ?). eauto.
    + intros (a & [w Hw] & Ha). exists w. apply IH. eauto.
Qed.

Lemma run_may_end {A} (t : Thread sess A) w : may_end env t (snd (run env t w)).
Proof.
  revert w. induction t as [a | X i h IH]; intros w; simpl; [reflexivity|].
  exists w. destruct (do_instr env i w) as [w' x]. apply IH.
Qed.

Lemma always_tbind P {A B} (t : Thread sess A) (k : A -> Thread sess B) :
  always env P t -> (forall a, always env P (k a)) -> always env P (tbind t k).
Proof.
  intros Ht Hk. induction t as [a | X i h IH]; simpl in *; [apply Hk|].
  destruct Ht as [Hi Hh]. split; [exact Hi|]. intros w. apply IH, Hh.
Qed.

Lemma always_mono (P Q : forall X, instr sess X -> Prop) {A} (t : Thread sess A) :
  (forall X (i : instr sess X), P X i -> Q X i) -> always env P t -> always env Q t.
Proof.
  intros HPQ. induction t as [a | X i h IH]; simpl; [done|].
  intros [Hi Hh]. split; [by apply HPQ|]. intros w. apply IH, Hh.
Qed.

(** *** [always] through the combinators *)

Section Always.

Variable P : forall X, instr sess X -> Prop.

Lemma always_ret {L A} (a : A) (l : L) : always env P (ret a l).
Proof. exact I. Qed.

Lemma always_raise {L A} e (l : L) : always env P (raise (A := A) e l).
Proof. exact I. Qed.

Lemma always_bind {L A B} (m : Py sess L A) (k : A -> Py sess L B) :
  (forall l, always env P (m l)) -> (forall a l, always env P (k a l)) ->
  forall l, always env P (bind m k l).
Proof.
  intros Hm Hk l. unfold bind. apply always_tbind; [apply Hm|].
  intros [l' [e|a]]; [exact I | apply Hk].
Qed.

Lemma always_try_except {L A} (m : Py sess L A) (h : exn -> Py sess L A) :
  (forall l, always env P (m l)) -> (forall e l, always env P (h e l)) ->
  forall l, always env P (try_except m h l).
Proof.
  intros Hm Hh l. unfold try_except. apply always_tbind; [apply Hm|].
  intros [l' [e|a]]; [apply Hh | exact I].
Qed.

Lemma always_lift {L A} (r : exn + A) (l : L) : always env P (lift r l).
Proof. exact I. Qed.

Lemma always_bind_lift {L A B} (r : exn + A) (k : A -> Py sess L B) (l : L) :
  (forall a, r = inr a -> always env P (k a l)) ->
  always env P (bind (lift r) k l).
Proof. intros Hk. destruct r as [e|a]; [exact I | by apply Hk]. Qed.

Lemma always_vis {L X} (i : instr sess X) (l : L) : P _ i -> always env P (vis i l).
Proof. intros Hi. simpl. split; [exact Hi | by intros w]. Qed.

Lemma always_call {L X} (i : instr sess (exn + X)) (l : L) :
  P _ i -> always env P (call i l).
Proof. intros Hi. simpl. split; [exact Hi | by intros w]. Qed.

Lemma always_logging {L} lv m (l : L) : P _ (Log lv m) -> always env P (logging lv m l).
Proof. apply always_vis. Qed.

Lemma always_for_each {L X} (xs : list X) (body : X -> Py sess L unit) :
  (forall x l, always env P (body x l)) ->
  forall l, always env P (for_each xs body l).
Proof.
  intros Hb. induction xs as [|x xs IH]; intros l; simpl; [exact I|].
  apply always_bind; [apply Hb | intros _; apply IH].
Qed.

Lemma always_with_locals {L L' A} (l0 : L') (m : Py sess L' A) (l : L) :
  always env P (m l0) -> always env P (with_locals l0 m l).
Proof.
  intros Hm. unfold with_locals. apply always_tbind; [exact Hm|].
  by intros [l' r].
Qed.

Lemma always_session_send host cmd l :
  (forall s, P _ (SendCommand host s cmd)) -> always env P (session_send host cmd l).
Proof.
  intros Hi. simpl. split; [apply Hi|]. intros w.
  by destruct (send_command env (net_connect l) cmd).
Qed.

Lemma always_session_prompt host l :
  (forall s, P _ (FindPrompt host s)) -> always env P (session_prompt host l).
Proof. intros Hi. simpl. split; [apply Hi | by intros w]. Qed.

End Always.

(** *** [raises_only] through the combinators *)

Section Raises.

Variable Q : exn -> Prop.

Lemma raises_ret {L A} (a : A) : raises_only env (L := L) Q (ret a).
Proof. intros l l' e H. simpl in H. congruence. Qed.

Lemma raises_raise {L A} e : Q e -> raises_only env (L := L) (A := A) Q (raise e).
Proof. intros He l l' e' H. simpl in H. congruence. Qed.

Lemma raises_lift {L A} (r : exn + A) :
  (forall e, r = inl e -> Q e) -> raises_only env (L := L) Q (lift r).
Proof. intros Hr l l' e H. simpl in H. injection H as _ H. by apply Hr. Qed.

Lemma raises_bind {L A B} (m : Py sess L A) (k : A -> Py sess L B) :
  raises_only env Q m -> (forall a, raises_only env Q (k a)) ->
  raises_only env Q (bind m k).
Proof.
  intros Hm Hk l l' e H. unfold bind in H.
  apply may_end_tbind in H as ([l1 [e1|a]] & H1 & H2).
  - simpl in H2. injection H2 as -> ->. eapply Hm, H1.
  - eapply Hk, H2.
Qed.

Lemma raises_try_except {L A} (m : Py sess L A) (h : exn -> Py sess L A) :
  (forall e, raises_only env Q (h e)) -> raises_only env Q (try_except m h).
Proof.
  intros Hh l l' e H. unfold try_except in H.
  apply may_end_tbind in H as ([l1 [e1|a]] & H1 & H2).
  - eapply Hh, H2.
  - simpl in H2. congruence.
Qed.

Lemma raises_vis {L X} (i : instr sess X) : raises_only env (L := L) Q (vis i).
Proof. intros l l' e [w H]. simpl in H. congruence. Qed.

Lemma raises_logging {L} lv m : raises_only env (L := L) Q (logging lv m).
Proof. apply raises_vis. Qed.

Lemma raises_for_each {L X} (xs : list X) (body : X -> Py sess L unit) :
  (forall x, raises_only env Q (body x)) -> raises_only env Q (for_each xs body).
Proof.
  intros Hb. induction xs as [|x xs IH]; simpl.
  - apply raises_ret.
  - apply raises_bind; [apply Hb | intros _; apply IH].
Qed.

Lemma raises_with_locals {L L' A} (l0 : L') (m : Py sess L' A) :
  raises_only env Q m -> raises_only env (L := L) Q (with_locals l0 m).
Proof.
  intros Hm l l' e H. unfold with_locals in H.
  apply may_end_tbind in H as ([l1 r] & H1 & H2).
  simpl in H2. injection H2 as -> ->. eapply Hm, H1.
Qed.

Lemma raises_neighbor_ips_update ips : raises_only env Q (neighbor_ips_update ips).
Proof. intros l l' e H. simpl in H. congruence. Qed.

Lemma raises_neighbor_ips_clear : raises_only env Q (@neighbor_ips_clear sess).
Proof. intros l l' e H. simpl in H. congruence. Qed.

Lemma raises_neighbor_ips_get : raises_only env Q (@neighbor_ips_get sess).
Proof. intros l l' e H. simpl in H. congruence. Qed.

End Raises.

End ThreadLemmas.

(** ** The worker *)

Section WorkerLemmas.

Context {sess : Type}.
Variable env : Env sess.

Ltac unmonad := unfold mbind, mret, Py_bind, Py_ret in *.

(** What [device_params] raises, [base_params] raises too. *)
Lemma device_params_raises ip device_cred device_type e :
  device_params ip device_cred device_type = inl e ->
  base_params ip device_cred = inl e.
Proof.
  unfold device_params, base_params.
  destruct device_cred as [ | s | n | items other shown | name b shown ];
    simpl; try (by intros [= <-]).
  destruct (default empty_dict (lookup_key "optional_args" items))
    as [ | s | n | items' other' shown' | name b shown' ];
    simpl; try (by intros [= <-]).
  destruct (eq_str _ "password"); [discriminate|].
  destruct (eq_str _ "ssh_key"); discriminate.
Qed.

Lemma detect_device_type_raises {L} ip creds :
  raises_only env (L := L) (lookup_raises ip creds) (detect_device_type ip creds).
Proof.
  intros l l' e H. unfold detect_device_type in H. unmonad.
  destruct (get_device_cred ip creds) as [e0 | c] eqn:Hg.
  { simpl in H. injection H as _ <-. by left. }
  change (may_end env
            ((if negb (truth c)
              then bind (logging ERROR ("No credentials found for device " +:+ ip))
                     (fun _ => ret None)
              else bind (lift (base_params ip c))
                     (fun base_params : BaseParams =>
                        try_except
                          (bind (call (Autodetect base_params))
                             (fun best_match =>
                                bind (logging INFO
                                        ("Detected device type for " +:+ ip
                                         +:+ ": " +:+ fmt best_match))
                                  (fun _ => ret best_match)))
                          (fun e =>
                             bind (logging ERROR
                                     ("Failed to autodetect device type for "
                                      +:+ ip +:+ ": " +:+ e))
                               (fun _ => ret None)))) l) (l', inl e)) in H.
  destruct (truth c) eqn:Ht; simpl negb in H; cbv iota in H.
  - destruct (base_params ip c) as [e1 | bp] eqn:Hb.
    { simpl in H. injection H as _ <-. right. by exists c. }
    exfalso. revert H.
      change (bind (lift (inr ?a)) ?k l) with (k a l). cbv beta iota.
    apply (raises_try_except env (fun _ => False)). intros e'.
    apply raises_bind; [apply raises_logging | intros _; apply raises_ret].
  - exfalso. revert H.
    apply (raises_bind env (fun _ => False));
      [apply raises_logging | intros _; apply raises_ret].
Qed.

Lemma ssh_connect_raises {L} ip creds device_type :
  raises_only env (L := L) (lookup_raises ip creds)
    (ssh_connect ip creds device_type).
Proof.
  intros l l' e H. unfold ssh_connect in H. unmonad.
  destruct (get_device_cred ip creds) as [e0 | c] eqn:Hg.
  { simpl in H. injection H as _ <-. by left. }
  change (may_end env
            ((if negb (truth c)
              then bind (logging ERROR ("No credentials found for device " +:+ ip))
                     (fun _ => ret None)
              else bind (lift (device_params ip c device_type))
                     (fun chosen : Value * option DeviceParams =>
                        match chosen with
                        | (auth_method, None) =>
                            bind (logging ERROR
                                    ("Unknown auth_method '" +:+ py_str auth_method
                                     +:+ "' for " +:+ ip))
                              (fun _ => ret None)
                        | (_, Some device_params) =>
                            try_except
                              (bind (call (Connect device_params))
                                 (fun net_connect =>
                                    bind (if truth (dp_secret device_params)
                                          then call (Enable ip net_connect)
                                          else ret net_connect)
                                      (fun net_connect =>
                                         bind (logging DEBUG
                                                 ("SSH connection established to "
                                                  +:+ ip +:+ " (" +:+ device_type
                                                  +:+ ")"))
                                           (fun _ => ret (Some net_connect)))))
                              (fun e =>
                                 bind (logging ERROR
                                         ("Failed to connect to " +:+ ip +:+ " ("
                                          +:+ device_type +:+ "): " +:+ e))
                                   (fun _ => ret None))
                        end)) l) (l', inl e)) in H.
  destruct (truth c) eqn:Ht; simpl negb in H; cbv iota in H.
  - destruct (device_params ip c device_type) as [e1 | [auth [p|]]] eqn:Hp.
    + simpl in H. injection H as _ <-. right. exists c.
      split; [done|]. split; [done|]. by eapply device_params_raises.
    + exfalso. revert H.
      apply (raises_bind env (fun _ => False));
        [apply raises_lift; intros e' He'; discriminate He'|].
      intros [a' [p'|]].
      * apply raises_try_except. intros e'.
        apply raises_bind; [apply raises_logging | intros _; apply raises_ret].
      * apply raises_bind; [apply raises_logging | intros _; apply raises_ret].
    + exfalso. revert H.
      apply (raises_bind env (fun _ => False));
        [apply raises_lift; intros e' He'; discriminate He'|].
      intros [a' [p'|]].
      * apply raises_try_except. intros e'.
        apply raises_bind; [apply raises_logging | intros _; apply raises_ret].
      * apply raises_bind; [apply raises_logging | intros _; apply raises_ret].
  - exfalso. revert H.
    apply (raises_bind env (fun _ => False));
      [apply raises_logging | intros _; apply raises_ret].
Qed.

Lemma juniper_lldp_never_raises ip :
  raises_only env (fun _ => False) (juniper_lldp env ip).
Proof.
  unfold juniper_lldp. unmonad.
  apply raises_try_except. intros e.
  destruct (PyStr.contains _ _).
  - apply raises_bind; [apply raises_logging | intros _].
    apply raises_try_except. intros e'. apply raises_logging.
  - apply raises_logging.
Qed.

Lemma run_protocols_never_raises ip device_type commands :
  raises_only env (fun _ => False) (run_protocols env ip device_type commands).
Proof.
  unfold run_protocols. apply raises_for_each. intros proto.
  destruct (negb _); [apply raises_ret|].
  destruct (_ && _); [apply juniper_lldp_never_raises|].
  apply raises_try_except. intros e. apply raises_logging.
Qed.

Lemma session_prompt_raises host :
  raises_only env (fun e => exists s, find_prompt env s = inl e) (session_prompt host).
Proof.
  intros l l' e [w H]. simpl in H. injection H as _ H. eauto.
Qed.

Lemma raises_weaken {L A} (Q Q' : exn -> Prop) (m : Py sess L A) :
  (forall e, Q e -> Q' e) -> raises_only env Q m -> raises_only env Q' m.
Proof. intros HQ Hm l l' e H. eapply HQ, Hm, H. Qed.

(** The only exceptions that leave the worker: one raised by
    [find_prompt], or one raised by the credential look-ups. *)
Lemma discover_single_raises ip creds templates_path :
  raises_only env
    (fun e => (exists s, find_prompt env s = inl e) \/ lookup_raises ip creds e)
    (discover_single env ip creds templates_path).
Proof.
  set (Q := fun e => (exists s, find_prompt env s = inl e)
                     \/ lookup_raises ip creds e).
  assert (Hnever : forall L A (m : Py sess L A),
             raises_only env (fun _ => False) m -> raises_only env Q m).
  { intros L A m. apply raises_weaken. tauto. }
  assert (Hlook : forall L A (m : Py sess L A),
             raises_only env (lookup_raises ip creds) m -> raises_only env Q m).
  { intros L A m. apply raises_weaken. intros e He. by right. }
  unfold discover_single. unmonad.
  apply raises_bind; [apply raises_vis | intros seen].
  destruct seen; [apply raises_ret|].
  apply raises_bind; [apply raises_logging | intros _].
  apply raises_bind; [apply Hlook, detect_device_type_raises | intros device_type].
  destruct (negb (truthy device_type) || _) eqn:Hsupported.
  - apply raises_bind; [apply raises_logging | intros _].
    apply raises_bind; [apply raises_vis | intros _; apply raises_ret].
  - apply raises_bind; [apply Hlook, ssh_connect_raises | intros [nc|]].
    + apply raises_with_locals.
      apply raises_bind.
      { eapply raises_weaken; [|apply session_prompt_raises]. intros e He. by left. }
      intros prompt.
      apply raises_bind; [apply raises_vis | intros _].
      apply raises_bind; [apply raises_vis | intros _].
      apply orb_false_elim in Hsupported as [_ Hin].
      apply negb_false_iff, bool_decide_eq_true in Hin as [c Hc].
      rewrite Hc.
      apply raises_bind; [apply raises_ret | intros commands].
      apply raises_bind; [apply raises_neighbor_ips_clear | intros _].
      apply raises_bind; [apply Hnever, run_protocols_never_raises | intros _].
      apply raises_bind; [apply raises_neighbor_ips_get | intros nbrs].
      apply raises_ret.
    + apply raises_bind; [apply raises_vis | intros _; apply raises_ret].
Qed.

End WorkerLemmas.

(** ** The worker run alone *)

Section Runs.

Context {sess : Type}.
Variable env : Env sess.

Lemma run_bind {L A B} (m : Py sess L A) (k : A -> Py sess L B) l w :
  run env (bind m k l) w =
  let '(w1, (l1, r)) := run env (m l) w in
  match r with
  | inl e => (w1, (l1, inl e))
  | inr a => run env (k a l1) w1
  end.
Proof.
  unfold bind. rewrite run_tbind.
  destruct (run env (m l) w) as [w1 [l1 [e|a]]]; reflexivity.
Qed.

Lemma run_try_except {L A} (m : Py sess L A) (h : exn -> Py sess L A) l w :
  run env (try_except m h l) w =
  let '(w1, (l1, r)) := run env (m l) w in
  match r with
  | inl e => run env (h e l1) w1
  | inr a => (w1, (l1, inr a))
  end.
Proof.
  unfold try_except. rewrite run_tbind.
  destruct (run env (m l) w) as [w1 [l1 [e|a]]]; reflexivity.
Qed.

(** With its address in the visited set the worker is over after the test. *)
Lemma worker_seen ip creds templates_path w :
  ip ∈ visited_global w ->
  run env (worker env ip creds templates_path) w =
  (add_log DEBUG (ip +:+ " already visited, skipping") w, (tt, inr (∅, []))).
Proof.
  intros Hin. unfold worker, discover_single. simpl.
  rewrite bool_decide_eq_true_2 by exact Hin. reflexivity.
Qed.

Lemma worker_first_instruction ip creds templates_path :
  exists k, worker env ip creds templates_path = Vis (SeenUnderLock ip) k
            /\ k true = Ret (tt, inr (∅, [])).
Proof. eexists. split; reflexivity. Qed.

(** A platform that is not a key of [VENDOR_COMMANDS]: the worker logs
    the warning of line 159, adds the address and stops. *)
Lemma worker_unsupported ip creds templates_path w raw device_cred p :
  ip ∉ visited_global w ->
  get_device_cred ip creds = inr device_cred ->
  truth device_cred = true ->
  base_params ip device_cred = inr p ->
  SSHDetect env p = inr (Some raw) ->
  VENDOR_COMMANDS !! raw = None ->
  run env (worker env ip creds templates_path) w =
  (add_visited ip
     (add_log WARNING
        ("Skipping " +:+ ip +:+ ": unsupported or undetected device type '"
         +:+ raw +:+ "'")
        (add_log INFO ("Detected device type for " +:+ ip +:+ ": " +:+ raw)
           (add_call (CallDetect (bp_host p))
              (add_log INFO ("Discovering " +:+ ip) w)))),
   (tt, inr (∅, []))).
Proof.
  intros Hin Hg Ht Hp Hd Hv. unfold worker, discover_single. simpl.
  rewrite bool_decide_eq_false_2 by exact Hin. simpl.
  unfold detect_device_type. rewrite Hg. lift_step. rewrite Ht. simpl negb.
  cbv iota. rewrite Hp. lift_step. simpl. rewrite Hd. simpl. rewrite Hv. simpl.
  rewrite orb_true_r. reflexivity.
Qed.

Lemma base_params_host ip device_cred p :
  base_params ip device_cred = inr p -> bp_host p = ip.
Proof.
  unfold base_params.
  destruct (get device_cred "username" _); [discriminate|].
  destruct (get device_cred "password" _); [discriminate|].
  destruct (get device_cred "optional_args" _) as [|oa]; [discriminate|].
  destruct (get oa "port" _); [discriminate|]. by intros [= <-].
Qed.

(** Detection fails: no credentials, an exception of the detector, or no
    best match. *)
Lemma worker_undetected ip creds templates_path w device_cred :
  ip ∉ visited_global w ->
  get_device_cred ip creds = inr device_cred ->
  (truth device_cred = false \/
   exists p, truth device_cred = true /\ base_params ip device_cred = inr p /\
             forall dt, SSHDetect env p <> inr (Some dt)) ->
  exists w',
    run env (worker env ip creds templates_path) w = (w', (tt, inr (∅, []))) /\
    visited_global w' = visited_global w ∪ {[ ip ]} /\
    results_global w' = results_global w /\
    (forall c, c ∈ calls w' -> c ∈ calls w \/ c = CallDetect ip).
Proof.
  intros Hin Hg Hfail. unfold worker, discover_single. simpl.
  rewrite bool_decide_eq_false_2 by exact Hin. simpl.
  unfold detect_device_type. rewrite Hg. lift_step.
  destruct Hfail as [Ht | (p & Ht & Hp & Hfail)]; rewrite Ht; simpl negb;
    cbv iota.
  - simpl. eexists. split; [reflexivity|]. simpl. repeat split. tauto.
  - rewrite Hp. lift_step. simpl. rewrite (base_params_host _ _ _ Hp).
    destruct (SSHDetect env p) as [e | [dt|]] eqn:Hd.
    + simpl. eexists. split; [reflexivity|]. simpl. repeat split.
      intros c Hc'. apply elem_of_app in Hc' as [?|Hc']; [tauto|].
      apply list_elem_of_singleton in Hc'. tauto.
    + by destruct (Hfail dt).
    + simpl. eexists. split; [reflexivity|]. simpl. repeat split.
      intros c Hc'. apply elem_of_app in Hc' as [?|Hc']; [tauto|].
      apply list_elem_of_singleton in Hc'. tauto.
Qed.

End Runs.

(** ** The Juniper LLDP branch *)

Section Juniper.

Context {sess : Type}.
Variable env : Env sess.

Lemma parse_juniper_lldp_interfaces_spec output x :
  x ∈ parse_juniper_lldp_interfaces output <->
  exists line, line ∈ PyStr.splitlines (PyStr.strip output)
               /\ interface_line line
               /\ head (PyStr.split line) = Some x.
Proof.
  unfold parse_juniper_lldp_interfaces.
  generalize (PyStr.splitlines (PyStr.strip output)) as lines.
  assert (H : forall lines (acc : gset string),
    x ∈ foldl
          (fun interfaces line =>
             if PyStr.startswith line "Local Interface"
                || String.eqb (PyStr.strip line) ""
             then interfaces
             else match PyStr.split line with
                  | part :: _ => interfaces ∪ {[ part ]}
                  | [] => interfaces
                  end) acc lines <->
    x ∈ acc \/ exists line, line ∈ lines /\ interface_line line
                            /\ head (PyStr.split line) = Some x).
  { induction lines as [|line lines IH]; intros acc.
    - simpl. split; [tauto|]. intros [?|(line & Hl & _)]; [done|].
      by apply elem_of_nil in Hl.
    - simpl. rewrite IH. clear IH. unfold interface_line.
      destruct (PyStr.startswith line "Local Interface") eqn:Hh; simpl.
      + split.
        * intros [?|(l & ? & ?)]; [tauto|]. right. exists l.
          split; [apply elem_of_cons; tauto | done].
        * intros [?|(l & Hl & [Hs Hb] & Hx)]; [tauto|].
          apply elem_of_cons in Hl as [-> | Hl]; [congruence|]. right. eauto.
      + destruct (String.eqb (PyStr.strip line) "") eqn:Hb.
        * apply String.eqb_eq in Hb. split.
          -- intros [?|(l & ? & ?)]; [tauto|]. right. exists l.
             split; [apply elem_of_cons; tauto | done].
          -- intros [?|(l & Hl & [Hs Hb'] & Hx)]; [tauto|].
             apply elem_of_cons in Hl as [-> | Hl]; [congruence|]. right. eauto.
        * apply String.eqb_neq in Hb.
          destruct (PyStr.split line) as [|part parts] eqn:Hp.
          -- split.
             ++ intros [?|(l & ? & ?)]; [tauto|]. right. exists l.
                split; [apply elem_of_cons; tauto | done].
             ++ intros [?|(l & Hl & [Hs Hb'] & Hx)]; [tauto|].
                apply elem_of_cons in Hl as [-> | Hl].
                ** rewrite Hp in Hx. discriminate.
                ** right. eauto.
          -- split.
             ++ intros [Hx|(l & ? & ?)].
                ** apply elem_of_union in Hx as [?|Hx]; [tauto|].
                   apply elem_of_singleton in Hx. subst x. right. exists line.
                   rewrite Hp. repeat split; [apply elem_of_cons; tauto | done | done].
                ** right. exists l. split; [apply elem_of_cons; tauto | done].
             ++ intros [?|(l & Hl & [Hs Hb'] & Hx)].
                ** left. apply elem_of_union. tauto.
                ** apply elem_of_cons in Hl as [-> | Hl].
                   --- rewrite Hp in Hx. injection Hx as ->. left.
                       apply elem_of_union. right. by apply elem_of_singleton.
                   --- right. eauto. }
  intros lines. rewrite H. split; [|tauto].
  intros [Hx|?]; [|done]. by apply not_elem_of_empty in Hx.
Qed.

Lemma add_calls_add_call c cs w :
  add_calls cs (add_call c w) = add_calls (c :: cs) w.
Proof. unfold add_calls, add_call. simpl. by rewrite <- app_assoc. Qed.

Lemma add_calls_nil w : add_calls [] w = w.
Proof. destruct w. unfold add_calls. simpl. by rewrite app_nil_r. Qed.

(** The loop over the interfaces (source lines 201-204). *)
Lemma run_detail_loop ip ifaces : forall l w,
  run env
    (for_each ifaces
       (fun iface =>
          bind (session_send ip ("show lldp neighbors interface " +:+ iface))
            (fun detail_output =>
               neighbor_ips_update (extract_all_ips detail_output))) l) w =
  let p := poll env (net_connect l) ifaces in
  (add_calls (CallSend ip <$> sent p) w,
   ({| net_connect := session_after p;
       neighbor_ips := neighbor_ips l ∪ addresses_in (outputs p) |},
    match stopped_by p with Some e => inl e | None => inr tt end)).
Proof.
  induction ifaces as [|iface rest IH]; intros [s N] w.
  - simpl. rewrite add_calls_nil. unfold addresses_in. simpl.
    by rewrite (right_id_L ∅ (∪)).
  - cbn [for_each]. rewrite run_bind. simpl. unfold lldp_detail_cmd.
    destruct (send_command env s ("show lldp neighbors interface " +:+ iface))
      as [[e|output] s'] eqn:Hsend; simpl.
    + unfold addresses_in. simpl. rewrite (right_id_L ∅ (∪)).
      unfold add_calls, add_call. reflexivity.
    + rewrite IH. simpl. rewrite add_calls_add_call.
      unfold addresses_in. simpl. by rewrite (assoc_L (∪)).
Qed.

Lemma poll_all ifaces : forall s,
  stopped_by (poll env s ifaces) = None ->
  sent (poll env s ifaces) = lldp_detail_cmd <$> ifaces /\
  length (outputs (poll env s ifaces)) = length ifaces.
Proof.
  induction ifaces as [|iface rest IH]; intros s; simpl; [done|].
  destruct (send_command env s (lldp_detail_cmd iface)) as [[e|output] s']; simpl.
  - discriminate.
  - intros H. destruct (IH s' H) as [-> ->]. done.
Qed.

(** On a Juniper device the loop over the protocols is the LLDP branch:
    the table has no CDP command for it. *)
Lemma run_protocols_lldp_only ip commands l w :
  truthy (commands !! "cdp" ≫= id) = false ->
  truthy (commands !! "lldp" ≫= id) = true ->
  run env (run_protocols env ip "juniper" commands l) w =
  run env (juniper_lldp env ip l) w.
Proof.
  intros Hcdp Hlldp. unfold run_protocols.
  change (for_each ["cdp"; "lldp"] ?b l)
    with (bind (b "cdp") (fun _ => bind (b "lldp") (fun _ => ret tt)) l).
  cbv beta. rewrite Hcdp, Hlldp. simpl negb. cbv iota.
  change (String.eqb "juniper" "juniper" && String.eqb "lldp" "lldp") with true.
  cbv iota. rewrite !run_bind.
  change (run env (ret tt l) w) with (w, (l, @inr exn unit tt)). cbv iota beta.
  rewrite run_bind.
  destruct (run env (juniper_lldp env ip l) w) as [w1 [l1 [e|[]]]]; reflexivity.
Qed.

Lemma run_protocols_juniper ip :
  exists commands,
    VENDOR_COMMANDS !! "juniper" = Some commands /\
    forall l w,
      run env (run_protocols env ip "juniper" commands l) w =
      run env (juniper_lldp env ip l) w.
Proof.
  destruct (VENDOR_COMMANDS !! "juniper") as [commands|] eqn:Hc;
    [|by vm_compute in Hc].
  exists commands. split; [reflexivity|]. intros l w.
  apply run_protocols_lldp_only.
  - assert (H : (VENDOR_COMMANDS !! "juniper") ≫= (fun c => Some (truthy (c !! "cdp" ≫= id)))
                = Some false) by (by vm_compute).
    rewrite Hc in H. simpl in H. by injection H.
  - assert (H : (VENDOR_COMMANDS !! "juniper") ≫= (fun c => Some (truthy (c !! "lldp" ≫= id)))
                = Some true) by (by vm_compute).
    rewrite Hc in H. simpl in H. by injection H.
Qed.

Lemma run_juniper_lldp ip s N w :
  run env (juniper_lldp env ip {| net_connect := s; neighbor_ips := N |}) w =
  match send_command env s lldp_summary_cmd with
  | (inr output, s1) =>
      (add_call (CallSend ip lldp_summary_cmd) w,
       ({| net_connect := s1; neighbor_ips := N ∪ extract_all_ips output |},
        inr tt))
  | (inl e, s1) =>
      let w1 := add_call (CallSend ip lldp_summary_cmd) w in
      if syntax_error_class e then
        let w2 :=
          add_call (CallSend ip lldp_summary_cmd)
            (add_log WARNING ("Falling back to per-interface LLDP for " +:+ ip) w1) in
        match send_command env s1 lldp_summary_cmd with
        | (inr summary_output, s2) =>
            let interfaces := parse_juniper_lldp_interfaces summary_output in
            let p := poll env s2 (iter_order env interfaces) in
            let w3 := add_calls (CallSend ip <$> sent p) w2 in
            (match stopped_by p with
             | Some inner_e =>
                 add_log ERROR ("Fallback LLDP per-interface also failed on "
                                +:+ ip +:+ ": " +:+ inner_e) w3
             | None => w3
             end,
             ({| net_connect := session_after p;
                 neighbor_ips := N ∪ addresses_in (outputs p) |}, inr tt))
        | (inl inner_e, s2) =>
            (add_log ERROR ("Fallback LLDP per-interface also failed on "
                            +:+ ip +:+ ": " +:+ inner_e) w2,
             ({| net_connect := s2; neighbor_ips := N |}, inr tt))
        end
      else
        (add_log ERROR ("LLDP detail failed on " +:+ ip +:+ ": " +:+ e) w1,
         ({| net_connect := s1; neighbor_ips := N |}, inr tt))
  end.
Proof.
  unfold juniper_lldp, lldp_summary_cmd, syntax_error_class.
  rewrite run_try_except. simpl.
  destruct (send_command env s "show lldp neighbors") as [[e|output] s1]; simpl;
    [|reflexivity].
  destruct (PyStr.contains "syntax error" (PyStr.lower e)); [|reflexivity].
  unfold mbind, Py_bind. rewrite run_bind. simpl.
  rewrite !run_tbind.
  destruct (send_command env s1 "show lldp neighbors")
    as [[inner_e|summary_output] s2]; simpl; [reflexivity|].
  rewrite run_detail_loop. simpl.
  destruct (stopped_by _); reflexivity.
Qed.

End Juniper.

(** C3.  On a Juniper device the LLDP step first sends one consolidated
    command.  When that fails with an error whose text, in lower case,
    contains [syntax error], it sends the summary command, takes as
    interface names the first whitespace-delimited token of every line of
    the summary that is neither a header nor blank, and sends one detail
    command per interface, adding the addresses of every output to the
    neighbour set; a failure of the summary command or of a detail command
    is logged and ends the step.  Any other failure of the consolidated
    command is logged.  In every case the step ends without an exception,
    so the worker goes on. *)
Theorem juniper_lldp_fallback {sess} (env : Env sess) (ip : Address)
    (s : sess) (N : gset Address) (w : World) :
  let l := {| net_connect := s; neighbor_ips := N |} in
  (forall output x,
      x ∈ parse_juniper_lldp_interfaces output <->
      exists line, line ∈ PyStr.splitlines (PyStr.strip output)
                   /\ interface_line line
                   /\ head (PyStr.split line) = Some x) /\
  (exists commands,
      VENDOR_COMMANDS !! "juniper" = Some commands /\
      run env (run_protocols env ip "juniper" commands l) w =
      run env (juniper_lldp env ip l) w) /\
  (exists w' l', run env (juniper_lldp env ip l) w = (w', (l', inr tt))
                 /\ same_shared w w') /\
  match send_command env s lldp_summary_cmd with
  | (inr output, s1) =>
      run env (juniper_lldp env ip l) w =
      (add_call (CallSend ip lldp_summary_cmd) w,
       ({| net_connect := s1; neighbor_ips := N ∪ extract_all_ips output |},
        inr tt))
  | (inl e, s1) =>
      let w1 := add_call (CallSend ip lldp_summary_cmd) w in
      if syntax_error_class e then
        let w2 :=
          add_call (CallSend ip lldp_summary_cmd)
            (add_log WARNING ("Falling back to per-interface LLDP for " +:+ ip) w1) in
        match send_command env s1 lldp_summary_cmd with
        | (inr summary_output, s2) =>
            let interfaces := parse_juniper_lldp_interfaces summary_output in
            let p := poll env s2 (iter_order env interfaces) in
            let w3 := add_calls (CallSend ip <$> sent p) w2 in
            run env (juniper_lldp env ip l) w =
            (match stopped_by p with
             | Some inner_e =>
                 add_log ERROR ("Fallback LLDP per-interface also failed on "
                                +:+ ip +:+ ": " +:+ inner_e) w3
             | None => w3
             end,
             ({| net_connect := session_after p;
                 neighbor_ips := N ∪ addresses_in (outputs p) |}, inr tt)) /\
            (stopped_by p = None ->
             sent p = lldp_detail_cmd <$> iter_order env interfaces /\
             length (sent p) = size interfaces /\
             length (outputs p) = size interfaces)
        | (inl inner_e, s2) =>
            run env (juniper_lldp env ip l) w =
            (add_log ERROR ("Fallback LLDP per-interface also failed on "
                            +:+ ip +:+ ": " +:+ inner_e) w2,
             ({| net_connect := s2; neighbor_ips := N |}, inr tt))
        end
      else
        run env (juniper_lldp env ip l) w =
        (add_log ERROR ("LLDP detail failed on " +:+ ip +:+ ": " +:+ e) w1,
         ({| net_connect := s1; neighbor_ips := N |}, inr tt))
  end.
Proof.
  intros l.
  split; [apply parse_juniper_lldp_interfaces_spec|].
  split.
  { destruct (run_protocols_juniper env ip) as (c & Hc & Hrun). eauto. }
  unfold l. rewrite run_juniper_lldp.
  destruct (send_command env s lldp_summary_cmd) as [[e|output] s1].
  - cbv zeta. destruct (syntax_error_class e).
    + destruct (send_command env s1 lldp_summary_cmd) as [[inner_e|out] s2].
      * split; [|reflexivity]. do 2 eexists. split; [reflexivity | by split].
      * split.
        -- do 2 eexists. split; [reflexivity|]. destruct (stopped_by _); by split.
        -- split; [reflexivity|]. intros Hnone.
           destruct (poll_all env _ _ Hnone) as [Hsent Hlen].
           assert (Hsize :
             length (iter_order env (parse_juniper_lldp_interfaces out))
             = size (parse_juniper_lldp_interfaces out)).
           { rewrite (iter_order_perm env). reflexivity. }
           rewrite Hsent, Hlen, length_fmap, Hsize. done.
    + split; [|reflexivity]. do 2 eexists. split; [reflexivity | by split].
  - split; [|reflexivity]. do 2 eexists. split; [reflexivity | by split].
Qed.

(** ** Credentials, detection and connection *)

Section Connect.

Context {sess : Type}.
Variable env : Env sess.

Lemma device_params_host ip device_cred device_type auth_method p :
  device_params ip device_cred device_type = inr (auth_method, Some p) ->
  dp_host p = ip /\ dp_device_type p = device_type.
Proof.
  unfold device_params.
  destruct (get device_cred "username" _); [discriminate|].
  destruct (get device_cred "optional_args" _) as [|oa]; [discriminate|].
  destruct (get oa "port" _); [discriminate|].
  destruct (get device_cred "secret" _); [discriminate|].
  destruct (get device_cred "auth_method" _) as [|am]; [discriminate|].
  destruct (eq_str am "password").
  - destruct (get device_cred "password" _); [discriminate|]. by intros [= _ <-].
  - destruct (eq_str am "ssh_key"); [|discriminate].
    destruct (get device_cred "ssh_key_file" _); [discriminate|]. by intros [= _ <-].
Qed.

(** [detect_device_type] run alone: an exception of the look-ups of
    lines 117 and 122-129 leaves it; one of the detector is logged. *)
Lemma run_detect_device_type {L} ip creds (l : L) w :
  run env (detect_device_type ip creds l) w =
  match get_device_cred ip creds with
  | inl e => (w, (l, inl e))
  | inr device_cred =>
      if truth device_cred then
        match base_params ip device_cred with
        | inl e => (w, (l, inl e))
        | inr p =>
            let w1 := add_call (CallDetect ip) w in
            match SSHDetect env p with
            | inr best_match =>
                (add_log INFO ("Detected device type for " +:+ ip +:+ ": "
                               +:+ fmt best_match) w1, (l, inr best_match))
            | inl e =>
                (add_log ERROR ("Failed to autodetect device type for " +:+ ip
                                +:+ ": " +:+ e) w1, (l, inr None))
            end
        end
      else
        (add_log ERROR ("No credentials found for device " +:+ ip) w, (l, inr None))
  end.
Proof.
  unfold detect_device_type.
  destruct (get_device_cred ip creds) as [e | device_cred]; [reflexivity|].
  lift_step. destruct (truth device_cred); simpl negb; cbv iota; [|reflexivity].
  destruct (base_params ip device_cred) as [e | p] eqn:Hp; [reflexivity|].
  lift_step. simpl. rewrite (base_params_host _ _ _ Hp).
  destruct (SSHDetect env p) as [e | best]; reflexivity.
Qed.

(** [ssh_connect] run alone. *)
Lemma run_ssh_connect {L} ip creds device_type (l : L) w :
  run env (ssh_connect ip creds device_type l) w =
  match get_device_cred ip creds with
  | inl e => (w, (l, inl e))
  | inr device_cred =>
      if truth device_cred then
        match device_params ip device_cred device_type with
        | inl e => (w, (l, inl e))
        | inr (auth_method, None) =>
            (add_log ERROR ("Unknown auth_method '" +:+ py_str auth_method
                            +:+ "' for " +:+ ip) w, (l, inr None))
        | inr (_, Some p) =>
            let w1 := add_calls (fst (connection env p)) w in
            match snd (connection env p) with
            | inr s =>
                (add_log DEBUG ("SSH connection established to " +:+ ip +:+ " ("
                                +:+ device_type +:+ ")") w1, (l, inr (Some s)))
            | inl e =>
                (add_log ERROR ("Failed to connect to " +:+ ip +:+ " ("
                                +:+ device_type +:+ "): " +:+ e) w1, (l, inr None))
            end
        end
      else
        (add_log ERROR ("No credentials found for device " +:+ ip) w, (l, inr None))
  end.
Proof.
  unfold ssh_connect.
  destruct (get_device_cred ip creds) as [e | device_cred]; [reflexivity|].
  lift_step. destruct (truth device_cred); simpl negb; cbv iota; [|reflexivity].
  destruct (device_params ip device_cred device_type) as [e | [auth_method [p|]]]
    eqn:Hp; [reflexivity | | reflexivity].
  lift_step. cbv iota beta.
  destruct (device_params_host _ _ _ _ _ Hp) as [Hhost Hdt].
  unfold connection. simpl. rewrite !Hhost, !Hdt.
  destruct (ConnectHandler env p) as [e | s]; [reflexivity|].
  simpl. destruct (truth (dp_secret p)); simpl; [|reflexivity].
  rewrite <- (add_calls_add_call (CallConnect ip device_type) [CallEnable ip] w).
  destruct (enable env s) as [e | s']; reflexivity.
Qed.

End Connect.

(** ** The scheduler *)

Section Machine.

Context {sess : Type}.
Variable env : Env sess.
Variables (creds : Creds) (templates_path : string).
Variables (max_depth : Z) (max_workers : nat).

Local Abbreviation step' := (step env creds templates_path max_depth max_workers).
Local Abbreviation exec' := (exec env creds templates_path max_depth max_workers).

Lemma exec_app sched1 sched2 (st : @Sched sess) :
  exec' (sched1 ++ sched2) st =
  match exec' sched1 st with Some st' => exec' sched2 st' | None => None end.
Proof.
  revert st. induction sched1 as [|a sched1 IH]; intros st; simpl; [reflexivity|].
  destruct (step' a st); [apply IH | reflexivity].
Qed.

(** An invariant of the steps holds after every schedule. *)
Lemma exec_invariant (Inv : @Sched sess -> Prop) :
  (forall a st st', Inv st -> step' a st = Some st' -> Inv st') ->
  forall sched st st', Inv st -> exec' sched st = Some st' -> Inv st'.
Proof.
  intros Hstep. induction sched as [|a sched IH]; intros st st' Hst H; simpl in H.
  - by injection H as <-.
  - destruct (step' a st) as [st1|] eqn:Ha; [|discriminate].
    eapply IH; [|exact H]. eapply Hstep; eauto.
Qed.

(** Every step is one of the cases of [Stepped]. *)
Lemma step_Stepped a (st st' : @Sched sess) :
  step' a st = Some st' ->
  Stepped env creds templates_path max_depth max_workers st a st'.
Proof.
  destruct a as [|i|i]; simpl.
  - unfold main_step. destruct (mode st) as [tv | tv futs next | | e] eqn:Hm;
      try discriminate.
    + destruct (_ && _) eqn:Htest.
      * destruct (max_workers =? 0) eqn:Hw; intros [= <-].
        -- apply Nat.eqb_eq in Hw. by eapply S_no_pool.
        -- apply Nat.eqb_neq in Hw. by eapply S_enter.
      * intros [= <-]. by eapply S_return.
    + destruct (forallb _ _) eqn:Hall; [|discriminate]. intros [= <-].
      by eapply S_next_level.
  - unfold work_step. destruct (mode st) as [tv | tv futs next | | e] eqn:Hm;
      try discriminate.
    destruct (futs !! i) as [f|] eqn:Hf; [|discriminate].
    destruct (task f) as [o | X ins k] eqn:Ht; [discriminate|].
    destruct (_ || _); [|discriminate].
    destruct (do_instr env ins (world st)) as [w x] eqn:Hdo.
    pose proof (f_equal fst Hdo) as Hw. pose proof (f_equal snd Hdo) as Hx.
    simpl in Hw, Hx. clear Hdo. subst w x. intros [= <-].
    by eapply S_work.
  - unfold yield_step. destruct (mode st) as [tv | tv futs next | | e] eqn:Hm;
      try discriminate.
    destruct (futs !! i) as [f|] eqn:Hf; [|discriminate].
    destruct (task f) as [[u [e|[nb rs]]] | X ins k] eqn:Ht;
      destruct (yielded f) eqn:Hy; try discriminate; intros [= <-].
    + rewrite <- Ht. by eapply S_caught.
    + rewrite <- Ht. by eapply S_collect.
Qed.

(** *** What an instruction does to the shared state *)

Lemma attempts_add_log l m w ip :
  attempts (add_log l m w) ip =
  attempts w ip + (if is_attempt ip {| lvl := l; msg := m |} then 1 else 0).
Proof.
  unfold attempts, add_log. simpl. rewrite filter_app, length_app. f_equal.
  rewrite filter_cons, filter_nil.
  destruct (is_attempt ip _); [rewrite decide_True by done | rewrite decide_False by done];
    reflexivity.
Qed.

Lemma do_instr_grows {X} (i : instr sess X) w : grows w (fst (do_instr env i w)).
Proof.
  unfold grows. destruct i; simpl; try (split; [set_solver | done]).
  - destruct (bool_decide _); simpl; split; done.
  - split; [done | by apply prefix_app_r].
Qed.

Lemma settled_do_instr {X} (i : instr sess X) w :
  settled i ->
  visited_global (fst (do_instr env i w)) = visited_global w /\
  forall ip, attempts (fst (do_instr env i w)) ip = attempts w ip.
Proof.
  destruct i; simpl; intros Hi; try done.
  - split; [done|]. intros ip. rewrite attempts_add_log, Hi. lia.
  - destruct (bool_decide _); simpl; [|done]. split; [done|]. intros ip'.
    rewrite attempts_add_log. simpl. lia.
Qed.

Lemma quiet_settled {X} (i : instr sess X) : quiet i -> settled i.
Proof. destruct i; simpl; done. Qed.

Lemma grows_refl w : grows w w.
Proof. split; done. Qed.

Lemma grows_trans w1 w2 w3 : grows w1 w2 -> grows w2 w3 -> grows w1 w3.
Proof. intros [? ?] [? ?]. split; [set_solver | by etrans]. Qed.

Lemma grows_add_log l m w : grows w (add_log l m w).
Proof. split; done. Qed.

(** *** The shared state only grows *)

Lemma step_grows a (st st' : @Sched sess) :
  step' a st = Some st' -> grows (world st) (world st').
Proof.
  destruct a as [|i|i]; simpl.
  - unfold main_step. destruct (mode st); try discriminate.
    + destruct (_ && _).
      * destruct (max_workers =? 0); intros [= <-]; apply grows_add_log.
      * intros [= <-]. apply grows_refl.
    + destruct (forallb _ _); [|discriminate]. intros [= <-]. apply grows_refl.
  - unfold work_step. destruct (mode st); try discriminate.
    destruct (futures !! i) as [f|]; [|discriminate].
    destruct (task f) as [o | X ins k]; [discriminate|].
    destruct (_ || _); [|discriminate].
    pose proof (do_instr_grows ins (world st)) as Hg.
    destruct (do_instr env ins (world st)) as [w x]. intros [= <-]. exact Hg.
  - unfold yield_step. destruct (mode st); try discriminate.
    destruct (futures !! i) as [f|]; [|discriminate].
    destruct (task f) as [[u [e|[nb rs]]] | X ins k]; destruct (yielded f);
      try discriminate; intros [= <-]; simpl;
      [apply grows_add_log | apply grows_refl].
Qed.

Lemma exec_grows sched (st st' : @Sched sess) :
  exec' sched st = Some st' -> grows (world st) (world st').
Proof.
  revert st. induction sched as [|a sched IH]; intros st H; simpl in H.
  - injection H as <-. apply grows_refl.
  - destruct (step' a st) as [st1|] eqn:Ha; [|discriminate].
    eapply grows_trans; [eapply step_grows, Ha | apply IH, H].
Qed.

End Machine.

(** ** The next frontier, and a run on a visited seed *)

Section Frontier.

Context {sess : Type}.
Variable env : Env sess.
Variables (creds : Creds) (templates_path : string).
Variables (max_depth : Z) (max_workers : nat).

Local Abbreviation step' := (step env creds templates_path max_depth max_workers).
Local Abbreviation exec' := (exec env creds templates_path max_depth max_workers).

Lemma elem_of_collected x (futures : list (@Future sess)) :
  x ∈ collected futures <->
  exists i f, futures !! i = Some f /\ yielded f = true /\ x ∈ neighbours_of f.
Proof.
  unfold collected. rewrite elem_of_union_list. split.
  - intros (X & HX & Hx). apply list_elem_of_fmap in HX as (f & -> & Hf).
    apply list_elem_of_lookup in Hf as [i Hi].
    destruct (yielded f) eqn:Hy; [eauto | by apply not_elem_of_empty in Hx].
  - intros (i & f & Hi & Hy & Hx). exists (neighbours_of f). split; [|done].
    apply list_elem_of_fmap. exists f. rewrite Hy. split; [done|].
    by eapply list_elem_of_lookup_2.
Qed.

Lemma elem_of_level_union x (futures : list (@Future sess)) :
  x ∈ level_union futures <->
  exists i f, futures !! i = Some f /\ x ∈ neighbours_of f.
Proof.
  unfold level_union. rewrite elem_of_union_list. split.
  - intros (X & HX & Hx). apply list_elem_of_fmap in HX as (f & -> & Hf).
    apply list_elem_of_lookup in Hf as [i Hi]. eauto.
  - intros (i & f & Hi & Hx). exists (neighbours_of f). split; [|done].
    apply list_elem_of_fmap. exists f. split; [done|].
    by eapply list_elem_of_lookup_2.
Qed.

Lemma collected_insert_same i (f f' : @Future sess) futures :
  futures !! i = Some f -> yielded f = false -> yielded f' = false ->
  collected (<[ i := f' ]> futures) = collected futures.
Proof.
  intros Hi Hy Hy'. apply set_eq. intros x. rewrite !elem_of_collected. split.
  - intros (j & g & Hj & Hg & Hx).
    apply list_lookup_insert_Some in Hj as [(-> & <- & _) | [Hne Hj]];
      [congruence | eauto].
  - intros (j & g & Hj & Hg & Hx). exists j, g. split; [|done].
    destruct (decide (i = j)) as [-> | Hne]; [congruence|].
    by rewrite list_lookup_insert_ne.
Qed.

Lemma collected_insert_yield i (f f' : @Future sess) futures :
  futures !! i = Some f -> yielded f = false -> yielded f' = true ->
  collected (<[ i := f' ]> futures) = collected futures ∪ neighbours_of f'.
Proof.
  intros Hi Hy Hy'. apply set_eq. intros x.
  rewrite elem_of_union, !elem_of_collected. split.
  - intros (j & g & Hj & Hg & Hx).
    apply list_lookup_insert_Some in Hj as [(-> & <- & _) | [Hne Hj]];
      [by right | left; eauto].
  - intros [(j & g & Hj & Hg & Hx) | Hx].
    + exists j, g. split; [|done].
      destruct (decide (i = j)) as [-> | Hne]; [congruence|].
      by rewrite list_lookup_insert_ne.
    + exists i, f'. split; [|done].
      apply list_lookup_insert_eq. by eapply lookup_lt_Some.
Qed.

Lemma collected_submitted (ips : list Address) :
  collected (submit env creds templates_path <$> ips) = ∅.
Proof.
  apply set_eq. intros x. rewrite elem_of_collected. split.
  - intros (i & f & Hi & Hy & _). rewrite list_lookup_fmap in Hi.
    destruct (ips !! i); simpl in Hi; [|discriminate].
    injection Hi as <-. discriminate.
  - by intros ?%not_elem_of_empty.
Qed.

Lemma collected_all (futures : list (@Future sess)) :
  forallb yielded futures = true -> collected futures = level_union futures.
Proof.
  intros Hall. apply set_eq. intros x.
  rewrite elem_of_collected, elem_of_level_union. split.
  - intros (i & f & ? & ? & ?). eauto.
  - intros (i & f & Hi & Hx). exists i, f. repeat split; [done| |done].
    rewrite forallb_forall in Hall. apply Hall.
    apply list_elem_of_In. by eapply list_elem_of_lookup_2.
Qed.

Lemma step_frontier_inv a (st st' : @Sched sess) :
  frontier_inv st -> step' a st = Some st' -> frontier_inv st'.
Proof.
  intros Hinv Hstep. apply step_Stepped in Hstep.
  destruct Hstep as [ tv Hm Ht Hw | tv Hm Ht Hw | tv Hm Ht | tv futs next Hm Hall
                    | i tv futs next f X ins k Hm Hf Htask
                    | i tv futs next f u nb rs Hm Hf Htask Hy
                    | i tv futs next f u e Hm Hf Htask Hy ];
    unfold frontier_inv in *; simpl; try exact I.
  - rewrite collected_submitted. repeat split; [set_solver | set_solver |].
    intros i f Hi Hy. rewrite list_lookup_fmap in Hi.
    destruct (elements tv !! i); simpl in Hi; [|discriminate].
    injection Hi as <-. discriminate.
  - rewrite Hm in Hinv. destruct Hinv as (H1 & H2 & H3).
    assert (Hy : yielded f = false).
    { destruct (yielded f) eqn:Hy; [|done].
      specialize (H3 i f Hf Hy). by rewrite Htask in H3. }
    pose proof (do_instr_grows env ins (world st)) as [Hgrow _].
    erewrite collected_insert_same by (try exact Hf; done).
    repeat split; [done | set_solver |].
    intros j g Hj Hg.
    apply list_lookup_insert_Some in Hj as [(-> & <- & _) | [Hne Hj]];
      [simpl in Hg; congruence | eauto].
  - rewrite Hm in Hinv. destruct Hinv as (H1 & H2 & H3).
    erewrite collected_insert_yield by (try exact Hf; done).
    unfold neighbours_of at 1 2. simpl. rewrite Htask.
    repeat split; [set_solver | set_solver |].
    intros j g Hj Hg.
    apply list_lookup_insert_Some in Hj as [(-> & <- & _) | [Hne Hj]];
      [simpl; first [done | by rewrite Htask] | eauto].
  - rewrite Hm in Hinv. destruct Hinv as (H1 & H2 & H3).
    erewrite collected_insert_yield by (try exact Hf; done).
    unfold neighbours_of at 1 2. simpl. rewrite Htask.
    repeat split; [set_solver | set_solver |].
    intros j g Hj Hg.
    apply list_lookup_insert_Some in Hj as [(-> & <- & _) | [Hne Hj]];
      [simpl; first [done | by rewrite Htask] | eauto].
Qed.

Lemma exec_frontier_inv sched seed_ip w0 (st : @Sched sess) :
  exec' sched (init seed_ip w0) = Some st -> frontier_inv st.
Proof.
  apply (exec_invariant env creds templates_path max_depth max_workers frontier_inv).
  - intros a s s' Hs Ha. eapply step_frontier_inv; eauto.
  - exact I.
Qed.

(** *** A run on a seed that is already visited *)

Lemma step_noop_inv seed w0 a (st st' : @Sched sess) :
  seed ∈ visited_global w0 ->
  noop_inv seed w0 st -> step' a st = Some st' -> noop_inv seed w0 st'.
Proof.
  intros Hseed (Hv & Hr & Hc & Hmode) Hstep. apply step_Stepped in Hstep.
  destruct Hstep as [ tv Hm Ht Hw | tv Hm Ht Hw | tv Hm Ht | tv futs next Hm Hall
                    | i tv futs next f X ins k Hm Hf Htask
                    | i tv futs next f u nb rs Hm Hf Htask Hy
                    | i tv futs next f u e Hm Hf Htask Hy ];
    unfold noop_inv; simpl; rewrite Hm in Hmode.
  - repeat split; try done.
    intros i f Hi. rewrite list_lookup_fmap in Hi.
    destruct Hmode as [-> | ->].
    + rewrite elements_singleton in Hi. destruct i as [|i]; simpl in Hi; [|discriminate].
      injection Hi as <-. simpl. done.
    + rewrite elements_empty in Hi. discriminate.
  - done.
  - done.
  - destruct Hmode as [-> _]. repeat split; try done. by right.
  - destruct Hmode as [-> Htasks].
    pose proof (Htasks i f Hf) as Hnoop. rewrite Htask in Hnoop.
    destruct ins; simpl in Hnoop; try done. destruct Hnoop as [-> Hk].
    simpl. rewrite bool_decide_eq_true_2 by (by rewrite Hv). simpl.
    repeat split; try done.
    intros j g Hj.
    apply list_lookup_insert_Some in Hj as [(-> & <- & _) | [Hne Hj]]; [|eauto].
    simpl. by rewrite Hk.
  - destruct Hmode as [-> Htasks].
    pose proof (Htasks i f Hf) as Hnoop. rewrite Htask in Hnoop. simpl in Hnoop.
    injection Hnoop as -> -> ->.
    repeat split; try done; [set_solver|].
    intros j g Hj.
    apply list_lookup_insert_Some in Hj as [(-> & <- & _) | [Hne Hj]]; [|eauto].
    simpl. by rewrite Htask.
  - destruct Hmode as [-> Htasks].
    pose proof (Htasks i f Hf) as Hnoop. rewrite Htask in Hnoop. simpl in Hnoop.
    discriminate.
Qed.

Lemma exec_noop_inv seed w0 sched (st : @Sched sess) :
  seed ∈ visited_global w0 ->
  exec' sched (init seed w0) = Some st -> noop_inv seed w0 st.
Proof.
  intros Hseed.
  apply (exec_invariant env creds templates_path max_depth max_workers
           (noop_inv seed w0)).
  - intros a s s' Hs Ha. eapply step_noop_inv; eauto.
  - repeat split. by left.
Qed.

End Frontier.

(** ** The worker adds its address before it ends *)

Section Claim.

Context {sess : Type}.
Variable env : Env sess.

Lemma not_attempt_level l m :
  l <> INFO -> forall ip, is_attempt ip {| lvl := l; msg := m |} = false.
Proof. intros Hl ip. unfold is_attempt. simpl. by destruct l. Qed.

Lemma owes_tbind_quiet ip {A B} (t : Thread sess A) (k : A -> Thread sess B) :
  always env (@quiet sess) t ->
  (forall a, may_end env t a -> owes env ip (k a)) ->
  owes env ip (tbind t k).
Proof.
  induction t as [a | X i h IH]; intros Ht Hk.
  - simpl. by apply Hk.
  - destruct Ht as [Hi Hh].
    assert (Hrec : forall w, owes env ip (tbind (h (snd (do_instr env i w))) k)).
    { intros w. apply IH; [apply Hh|]. intros a Ha. apply Hk. by exists w. }
    destruct i; simpl in *; try done.
Qed.

Lemma owes_tbind_left ip {A B} (t : Thread sess A) (k : A -> Thread sess B) :
  owes env ip t ->
  (forall a, always env (@settled sess) (k a)) ->
  owes env ip (tbind t k).
Proof.
  induction t as [a | X i h IH]; intros Ht Hk; [done|].
  destruct i; simpl in *;
    try (destruct Ht as [Hq Hh]; split; [done | intros w; apply IH; [exact (Hh w) | done]]).
  destruct Ht as [-> Hs]. split; [done|]. by apply always_tbind.
Qed.

Lemma owes_bind ip {L A B} (m : Py sess L A) (k : A -> Py sess L B) l :
  always env (@quiet sess) (m l) ->
  raises_only env (fun _ => False) m ->
  (forall a l', owes env ip (k a l')) ->
  owes env ip (bind m k l).
Proof.
  intros Hm Hr Hk. unfold bind. apply owes_tbind_quiet; [done|].
  intros [l' [e|a]] Ha; [by destruct (Hr _ _ _ Ha) | apply Hk].
Qed.

Lemma owes_bind_left ip {L A B} (m : Py sess L A) (k : A -> Py sess L B) l :
  owes env ip (m l) ->
  (forall a l', always env (@settled sess) (k a l')) ->
  owes env ip (bind m k l).
Proof.
  intros Hm Hk. unfold bind. apply owes_tbind_left; [done|].
  intros [l' [e|a]]; [exact I | apply Hk].
Qed.

Lemma owes_with_locals ip {L L' A} (l0 : L') (m : Py sess L' A) (l : L) :
  owes env ip (m l0) -> owes env ip (with_locals l0 m l).
Proof.
  intros Hm. unfold with_locals. apply owes_tbind_left; [done|].
  by intros [l' r].
Qed.

(** The line that adds the address, followed by code that is settled. *)
Lemma owes_add ip {L A} (k : unit -> Py sess L A) l :
  (forall l', always env (@settled sess) (k tt l')) ->
  owes env ip (bind (vis (VisitedAdd ip)) k l).
Proof. intros Hk. simpl. split; [done | apply Hk]. Qed.

Ltac unmonad := unfold mbind, mret, Py_bind, Py_ret in *.

Lemma detect_device_type_quiet {L} ip creds (l : L) :
  always env (@quiet sess) (detect_device_type ip creds l).
Proof.
  unfold detect_device_type. unmonad. revert l.
  apply always_bind; [intros l; apply always_lift | intros device_cred].
  destruct (negb (truth device_cred)).
  - apply always_bind; [intros l'; by apply always_logging | intros _ l'; exact I].
  - apply always_bind; [intros l; apply always_lift | intros base_params].
    apply always_try_except.
    + apply always_bind; [intros l'; by apply always_call|]. intros best l'.
      apply always_bind; [|intros _ l2; exact I].
      intros l2. apply always_logging. intros ip'. reflexivity.
    + intros e. apply always_bind;
        [intros l'; by apply always_logging | intros _ l'; exact I].
Qed.

Lemma ssh_connect_quiet {L} ip creds device_type (l : L) :
  always env (@quiet sess) (ssh_connect ip creds device_type l).
Proof.
  unfold ssh_connect. unmonad. revert l.
  apply always_bind; [intros l; apply always_lift | intros device_cred].
  destruct (negb (truth device_cred)).
  - apply always_bind; [intros l'; by apply always_logging | intros _ l'; exact I].
  - apply always_bind; [intros l; apply always_lift | intros [auth_method [p|]]].
    + apply always_try_except.
      * apply always_bind; [intros l'; by apply always_call|]. intros nc l'.
        revert l'. apply always_bind.
        -- intros l2. destruct (truth _); [by apply always_call | exact I].
        -- intros nc' l2. revert l2. apply always_bind;
             [intros l3; by apply always_logging | intros _ l3; exact I].
      * intros e. apply always_bind;
          [intros l'; by apply always_logging | intros _ l'; exact I].
    + apply always_bind; [intros l'; by apply always_logging | intros _ l'; exact I].
Qed.

Lemma juniper_lldp_settled ip l : always env (@settled sess) (juniper_lldp env ip l).
Proof.
  unfold juniper_lldp. unmonad. apply always_try_except.
  - apply always_bind; [intros l'; by apply always_session_send | intros out l'; exact I].
  - intros e. destruct (PyStr.contains _ _).
    + apply always_bind; [intros l'; by apply always_logging|]. intros _.
      apply always_try_except.
      * apply always_bind; [intros l'; by apply always_session_send|].
        intros summary. apply always_for_each. intros iface.
        apply always_bind;
          [intros l'; by apply always_session_send | intros out l'; exact I].
      * intros e' l'. by apply always_logging.
    + intros l'. by apply always_logging.
Qed.

Lemma run_protocols_settled ip device_type commands l :
  always env (@settled sess) (run_protocols env ip device_type commands l).
Proof.
  unfold run_protocols. unmonad. revert l. apply always_for_each. intros proto l.
  destruct (negb _); [exact I|].
  destruct (_ && _); [apply juniper_lldp_settled|].
  revert l. apply always_try_except.
  - apply always_bind; [intros l'; by apply always_session_send | intros out l'; exact I].
  - intros e l'. by apply always_logging.
Qed.

Lemma session_prompt_total host :
  prompt_total env -> raises_only env (fun _ => False) (session_prompt host).
Proof.
  intros Hp l l' e [w H]. simpl in H. injection H as _ H.
  destruct (Hp (net_connect l)) as [p Hp']. congruence.
Qed.

(** A fresh worker stands before the test; if the test is false it logs
    line 155 and from then on owes the address to the visited set. *)
Lemma worker_unclaimed ip creds templates_path :
  prompt_total env -> (forall e, ~ lookup_raises ip creds e) ->
  unclaimed env ip (worker env ip creds templates_path).
Proof.
  intros Hp Hlook.
  assert (Hnever : forall L A (m : Py sess L A),
             raises_only env (lookup_raises ip creds) m ->
             raises_only env (fun _ => False) m).
  { intros L A m. apply raises_weaken. exact Hlook. }
  unfold worker, discover_single.
  unfold mbind at 1, Py_bind at 1.
  change (bind (vis (SeenUnderLock ip)) ?K tt)
    with (Vis (SeenUnderLock ip) (fun x => K x tt)).
  cbv beta. unfold unclaimed. split; [reflexivity|]. split; [exact I|].
  cbv iota. unfold mbind at 1, Py_bind at 1.
  change (bind (logging INFO ?m) ?K tt)
    with (Vis (Log INFO m) (fun x : unit => K x tt)).
  unfold about_to_claim. split; [reflexivity|]. cbv beta.
  unmonad.
  apply owes_bind;
    [apply detect_device_type_quiet | apply Hnever, detect_device_type_raises |].
  intros device_type l.
  destruct (negb (truthy device_type) || _) eqn:Hsupported.
  - apply owes_bind; [by apply always_logging | apply raises_logging |].
    intros _ l'. apply owes_add. intros l2. exact I.
  - apply owes_bind;
      [apply ssh_connect_quiet | apply Hnever, ssh_connect_raises |].
    intros [nc|] l'.
    + apply owes_with_locals.
      apply owes_bind;
        [by apply always_session_prompt | by apply session_prompt_total |].
      intros prompt l2. apply owes_add. intros l3.
      revert l3. apply always_bind; [intros l3; by apply always_vis|]. intros _.
      apply always_bind; [intros l3; by destruct (VENDOR_COMMANDS !! _)|].
      intros commands.
      apply always_bind; [intros l3; exact I|]. intros _.
      apply always_bind; [intros l3; apply run_protocols_settled|]. intros _.
      apply always_bind; [intros l3; exact I|]. intros nbrs l3. exact I.
    + apply owes_add. intros l2. exact I.
Qed.

End Claim.

(** ** No address is set out on twice *)

Section Once.

Context {sess : Type}.
Variable env : Env sess.
Variables (creds : Creds) (templates_path : string).
Variables (max_depth : Z) (max_workers : nat).

Local Abbreviation step' := (step env creds templates_path max_depth max_workers).
Local Abbreviation exec' := (exec env creds templates_path max_depth max_workers).

Lemma is_attempt_discovering ip ip' :
  is_attempt ip {| lvl := INFO; msg := "Discovering " +:+ ip' |}
  = bool_decide (ip' = ip).
Proof.
  unfold is_attempt. simpl. case_bool_decide as H.
  - subst. apply String.eqb_refl.
  - apply String.eqb_neq. intros [= ?]. done.
Qed.

Lemma is_attempt_level_start ip n k :
  is_attempt ip
    {| lvl := INFO;
       msg := "Starting discovery depth " +:+ n +:+ " with " +:+ k
              +:+ " device(s)" |} = false.
Proof. reflexivity. Qed.

Lemma attempts_add_visited ip a w : attempts (add_visited a w) ip = attempts w ip.
Proof. reflexivity. Qed.

Lemma unclaimed_not_owes ip {A} (t : Thread sess A) :
  unclaimed env ip t -> ~ owes env ip t.
Proof.
  destruct t as [a | X ins k]; [done|]. destruct ins; try done.
  simpl. intros (-> & Hseen & _) [_ Hk].
  specialize (Hk (add_visited ip initial_world)). simpl in Hk.
  rewrite bool_decide_eq_true_2 in Hk by set_solver. simpl in Hk.
  destruct (k true); done.
Qed.

Lemma phase_frame ip w w' (t : Thread sess Outcome) :
  phase env ip w t ->
  visited_global w ⊆ visited_global w' ->
  (ip ∈ visited_global w' -> ip ∈ visited_global w) ->
  attempts w' ip = attempts w ip ->
  phase env ip w' t.
Proof.
  intros [H | [(H & Hv & Ha) | [H | [H Hv]]]] Hsub Hback Hatt.
  - by left.
  - right; left. split; [done|]. split; [tauto | congruence].
  - right; right; by left.
  - right; right; right. split; [done | by apply Hsub].
Qed.

(** One instruction of the worker of [ip]. *)
Lemma phase_step ip w {X} (ins : instr sess X) (k : X -> Thread sess Outcome) :
  phase env ip w (Vis ins k) ->
  attempts w ip <= 1 ->
  (attempts w ip = 1 -> ip ∈ visited_global w \/ owes env ip (Vis ins k)) ->
  phase env ip (fst (do_instr env ins w)) (k (snd (do_instr env ins w)))
  /\ visited_global w ⊆ visited_global (fst (do_instr env ins w))
  /\ (forall ip', ip' <> ip ->
        (ip' ∈ visited_global (fst (do_instr env ins w)) -> ip' ∈ visited_global w)
        /\ attempts (fst (do_instr env ins w)) ip' = attempts w ip')
  /\ attempts (fst (do_instr env ins w)) ip <= 1
  /\ (attempts (fst (do_instr env ins w)) ip = 1 ->
        ip ∈ visited_global (fst (do_instr env ins w))
        \/ owes env ip (k (snd (do_instr env ins w)))).
Proof.
  intros [H | [(H & Hv & Ha) | [H | [H Hv]]]] Hle Hone.
  - (* before the test *)
    pose proof (unclaimed_not_owes _ _ H) as Hno.
    destruct ins; try done. simpl in H. destruct H as (-> & Hseen & Hclaim).
    simpl. case_bool_decide as Hin; simpl.
    + split.
      { right; right; right. split; [|done]. by destruct (k true). }
      split; [done|]. split.
      { intros ip' _. split; [done|]. rewrite attempts_add_log. simpl. lia. }
      rewrite attempts_add_log. simpl. rewrite Nat.add_0_r.
      split; [done | by left].
    + assert (attempts w ip = 0) as Hzero.
      { destruct (attempts w ip) as [|[|n]] eqn:Hn; [done | | lia].
        destruct Hone as [? | ?]; done. }
      split; [right; left; done|]. split; [done|]. split; [done|].
      split; [done|]. intros ?; congruence.
  - (* before line 155 *)
    destruct ins; try done. destruct l; try done. simpl in H.
    destruct H as [-> Howes]. cbn [do_instr fst snd].
    split; [right; right; by left|]. split; [done|]. split.
    { intros ip' Hne. split; [done|].
      rewrite attempts_add_log, is_attempt_discovering.
      rewrite bool_decide_eq_false_2 by congruence. lia. }
    rewrite attempts_add_log, is_attempt_discovering.
    rewrite bool_decide_eq_true_2 by done.
    split; [lia | by right].
  - (* between line 155 and the add *)
    destruct ins; simpl in H;
      try (destruct H as [Hq Hk];
           match goal with |- context [do_instr env ?i w] =>
             destruct (settled_do_instr env i w (quiet_settled i Hq)) as [Hvis Hatt]
           end;
           split; [right; right; left; exact (Hk w)|];
           split; [by rewrite Hvis|];
           split; [intros ip' _; rewrite Hvis, Hatt; done|];
           split; [by rewrite Hatt | intros _; right; exact (Hk w)]).
    destruct H as [-> Hk]. simpl.
    split; [right; right; right; split; [done | set_solver]|].
    split; [set_solver|]. split; [intros ip' Hne; split; [set_solver | done]|].
    split; [done | intros _; left; set_solver].
  - (* after the add *)
    simpl in H. destruct H as [Hs Hk].
    destruct (settled_do_instr env _ w Hs) as [Hvis Hatt].
    split; [right; right; right; split; [exact (Hk w) | by rewrite Hvis]|].
    split; [by rewrite Hvis|].
    split; [intros ip' _; rewrite Hvis, Hatt; done|].
    split; [by rewrite Hatt | intros _; left; by rewrite Hvis].
Qed.

Lemma step_once_inv a (st st' : @Sched sess) :
  prompt_total env -> lookups_total creds ->
  once_inv env st -> step' a st = Some st' -> once_inv env st'.
Proof.
  intros Hp Hlook [Hle Hmode] Hstep. apply step_Stepped in Hstep.
  destruct Hstep as
    [ tv Hm Htest Hw | tv Hm Htest Hw | tv Hm Htest | tv futs next Hm Hall
    | i tv futs next f X ins k Hm Hi Htask
    | i tv futs next f u nb rs Hm Hi Htask Hy
    | i tv futs next f u e Hm Hi Htask Hy ];
    rewrite Hm in Hmode; unfold once_inv; simpl.
  - (* the pool of a level is filled *)
    assert (forall ip, attempts (level_logged st tv) ip = attempts (world st) ip)
      as Hatt.
    { intros ip. unfold level_logged.
      rewrite attempts_add_log, is_attempt_level_start. lia. }
    split; [intros ip; by rewrite Hatt|].
    split; [by rewrite length_fmap|]. split.
    { intros i ip f Hip Hf. rewrite list_lookup_fmap, Hip in Hf.
      injection Hf as <-. left. apply worker_unclaimed; [done | apply Hlook]. }
    split.
    { intros i f Hf. rewrite list_lookup_fmap in Hf.
      destruct (elements tv !! i); [|done]. by injection Hf as <-. }
    intros ip Hone. left. apply Hmode. by rewrite <- Hatt.
  - assert (forall ip, attempts (level_logged st tv) ip = attempts (world st) ip)
      as Hatt.
    { intros ip. unfold level_logged.
      rewrite attempts_add_log, is_attempt_level_start. lia. }
    split; [intros ip; by rewrite Hatt|].
    intros ip Hone. apply Hmode. by rewrite <- Hatt.
  - done.
  - (* the level ends *)
    split; [done|]. destruct Hmode as (_ & _ & Hended & Hone).
    intros ip H1. destruct (Hone ip H1) as [? | (i & f & _ & Hf & Howes)]; [done|].
    assert (yielded f = true) as Hy.
    { rewrite forallb_forall in Hall. apply Hall, list_elem_of_In.
      by eapply list_elem_of_lookup_2. }
    specialize (Hended i f Hf Hy). destruct (task f); done.
  - (* a worker runs one instruction *)
    destruct Hmode as (Hlen & Hphase & Hended & Hone).
    destruct (lookup_lt_is_Some_2 (elements tv) i) as [ip0 Hip0].
    { rewrite <- Hlen. by eapply lookup_lt_Some. }
    assert (forall j, elements tv !! j = Some ip0 -> j = i) as Huniq.
    { intros j Hj. eapply NoDup_lookup; eauto. apply NoDup_elements. }
    pose proof (Hphase i ip0 f Hip0 Hi) as Hph. rewrite Htask in Hph.
    destruct (phase_step ip0 (world st) ins k Hph (Hle ip0))
      as (Hph' & Hsub & Hother & Hle' & Hone').
    { intros H1. destruct (Hone ip0 H1) as [? | (j & g & Hj & Hg & Howes)];
        [by left | right].
      apply Huniq in Hj as ->. rewrite Hi in Hg. injection Hg as <-.
      by rewrite <- Htask. }
    split.
    { intros ip. destruct (decide (ip = ip0)) as [-> | Hne]; [done|].
      destruct (Hother ip Hne) as [_ ->]. apply Hle. }
    split; [by rewrite length_insert|]. split.
    { intros j ip g Hip Hg.
      apply list_lookup_insert_Some in Hg as [(Hij & <- & _) | [Hne Hg]]; [subst j|].
      - simpl. rewrite Hip0 in Hip. by injection Hip as <-.
      - assert (ip <> ip0) as Hne'. { intros ->. by apply Huniq in Hip. }
        destruct (Hother ip Hne') as [Hback Hatt].
        eapply phase_frame; eauto. }
    split.
    { intros j g Hg Hyg.
      apply list_lookup_insert_Some in Hg as [(Hij & <- & _) | [Hne Hg]]; [subst j|]; [|eauto].
      simpl in Hyg. specialize (Hended i f Hi Hyg). by rewrite Htask in Hended. }
    intros ip H1. destruct (decide (ip = ip0)) as [-> | Hne].
    + destruct (Hone' H1) as [? | Howes]; [by left | right].
      exists i, {| task := k (snd (do_instr env ins (world st)));
                   started := true; yielded := yielded f |}.
      split; [done|]. split; [|done].
      apply list_lookup_insert_eq. by eapply lookup_lt_Some.
    + destruct (Hother ip Hne) as [_ Hatt]. rewrite Hatt in H1.
      destruct (Hone ip H1) as [? | (j & g & Hj & Hg & Howes)];
        [left; by apply Hsub | right].
      exists j, g. split; [done|]. split; [|done].
      rewrite list_lookup_insert_ne; [done|]. intros ->. congruence.
  - (* a result is handed out *)
    destruct Hmode as (Hlen & Hphase & Hended & Hone).
    split; [done|]. split; [by rewrite length_insert|]. split.
    { intros j ip g Hip Hg.
      apply list_lookup_insert_Some in Hg as [(Hij & <- & _) | [Hne Hg]]; [subst j|]; simpl; eauto. }
    split.
    { intros j g Hg Hyg.
      apply list_lookup_insert_Some in Hg as [(Hij & <- & _) | [Hne Hg]]; [subst j|]; [|eauto].
      simpl. by rewrite Htask. }
    intros ip H1. destruct (Hone ip H1) as [? | (j & g & Hj & Hg & Howes)];
      [by left | right].
    destruct (decide (i = j)) as [-> | Hne].
    + rewrite Hi in Hg. injection Hg as <-. rewrite Htask in Howes. done.
    + exists j, g. by rewrite list_lookup_insert_ne.
  - (* an exception is handed out *)
    destruct Hmode as (Hlen & Hphase & Hended & Hone).
    assert (forall ip, attempts (add_log ERROR
              ("Error in thread during discovery: " +:+ e) (world st)) ip
            = attempts (world st) ip) as Hatt.
    { intros ip. rewrite attempts_add_log. simpl. lia. }
    split; [intros ip; by rewrite Hatt|].
    split; [by rewrite length_insert|]. split.
    { intros j ip g Hip Hg.
      apply list_lookup_insert_Some in Hg as [(Hij & <- & _) | [Hne Hg]]; [subst j|]; simpl.
      - eapply phase_frame; [by eapply Hphase | done | done | apply Hatt].
      - eapply phase_frame; [by eapply Hphase | done | done | apply Hatt]. }
    split.
    { intros j g Hg Hyg.
      apply list_lookup_insert_Some in Hg as [(Hij & <- & _) | [Hne Hg]]; [subst j|]; [|eauto].
      simpl. by rewrite Htask. }
    intros ip H1. rewrite Hatt in H1.
    destruct (Hone ip H1) as [? | (j & g & Hj & Hg & Howes)]; [by left | right].
    destruct (decide (i = j)) as [-> | Hne].
    + rewrite Hi in Hg. injection Hg as <-. rewrite Htask in Howes. done.
    + exists j, g. by rewrite list_lookup_insert_ne.
Qed.

Lemma init_once_inv seed (w : World) :
  (forall ip, attempts w ip <= 1) ->
  (forall ip, attempts w ip = 1 -> ip ∈ visited_global w) ->
  once_inv env (init seed w).
Proof. intros H1 H2. split; done. Qed.

Lemma exec_once_inv sched (st st' : @Sched sess) :
  prompt_total env -> lookups_total creds ->
  once_inv env st -> exec' sched st = Some st' -> once_inv env st'.
Proof.
  intros Hp Hlook. apply exec_invariant. intros a s s'. by apply step_once_inv.
Qed.

End Once.

(** ** Every schedule is among the ones [reach] tries *)

Section Reach.

Context {sess : Type}.
Variable env : Env sess.
Variables (creds : Creds) (templates_path : string).
Variables (max_depth : Z) (max_workers : nat).

Local Abbreviation step' := (step env creds templates_path max_depth max_workers).
Local Abbreviation exec' := (exec env creds templates_path max_depth max_workers).
Local Abbreviation reach' := (reach env creds templates_path max_depth max_workers).

Lemma step_candidates a (st st' : @Sched sess) :
  step' a st = Some st' -> In a (candidates st).
Proof.
  intros Hstep. apply step_Stepped in Hstep. unfold candidates.
  destruct Hstep as [ tv Hm Ht Hw | tv Hm Ht Hw | tv Hm Ht | tv futs next Hm Hall
                    | i tv futs next f X ins k Hm Hf Htask
                    | i tv futs next f u nb rs Hm Hf Htask Hy
                    | i tv futs next f u e Hm Hf Htask Hy ];
    rewrite Hm; try (left; reflexivity); right;
    apply in_flat_map; exists i;
    (split; [apply in_seq; apply lookup_lt_Some in Hf; lia | simpl; tauto]).
Qed.

Lemma exec_reach sched (st st' : @Sched sess) :
  exec' sched st = Some st' -> In st' (reach' (length sched) st).
Proof.
  revert st. induction sched as [|a sched IH]; intros st H; simpl in H.
  - injection H as <-. by left.
  - destruct (step' a st) as [st1|] eqn:Ha; [|discriminate].
    simpl. apply in_flat_map. exists a. split; [by eapply step_candidates|].
    rewrite Ha. by apply IH.
Qed.

(** When no schedule of length [n] can happen, no longer one can. *)
Lemma reach_dead n sched (st : @Sched sess) :
  reach' n st = [] -> n <= length sched -> exec' sched st = None.
Proof.
  intros Hdead Hlen. rewrite <- (take_drop n sched), exec_app.
  destruct (exec' (take n sched) st) as [s|] eqn:Hs; [|reflexivity].
  apply exec_reach in Hs. rewrite length_take, Nat.min_l in Hs by exact Hlen.
  rewrite Hdead in Hs. destruct Hs.
Qed.

(** A test that holds of every state [reach] finds up to length [n], and
    no schedule is longer: it holds of every state of every schedule. *)
Lemma reach_check (check : @Sched sess -> bool) n (st : @Sched sess) :
  forallb (fun m => forallb check (reach' m st)) (seq 0 n) = true ->
  reach' n st = [] ->
  forall sched st', exec' sched st = Some st' -> check st' = true.
Proof.
  intros Hall Hdead sched st' Hexec.
  destruct (decide (n <= length sched)) as [Hle | Hlt].
  - rewrite (reach_dead n sched st Hdead Hle) in Hexec. discriminate.
  - rewrite forallb_forall in Hall.
    specialize (Hall (length sched)). rewrite forallb_forall in Hall.
    apply Hall; [apply in_seq; lia | by apply exec_reach].
Qed.

End Reach.

(** ** The worker: what its callers can rely on *)

Section WorkerRuns.

Context {sess : Type}.
Variable env : Env sess.

(** The detector raises: lines 135-137 log the error and return [None],
    lines 158-162 log the warning, add the address and return. *)
Lemma worker_detect_raises ip creds templates_path w device_cred p e :
  ip ∉ visited_global w ->
  get_device_cred ip creds = inr device_cred ->
  truth device_cred = true ->
  base_params ip device_cred = inr p ->
  SSHDetect env p = inl e ->
  run env (worker env ip creds templates_path) w =
  (add_visited ip
     (add_log WARNING
        ("Skipping " +:+ ip +:+ ": unsupported or undetected device type 'None'")
        (add_log ERROR
           ("Failed to autodetect device type for " +:+ ip +:+ ": " +:+ e)
           (add_call (CallDetect ip)
              (add_log INFO ("Discovering " +:+ ip) w)))),
   (tt, inr (∅, []))).
Proof.
  intros Hin Hg Ht Hp Hd. unfold worker, discover_single. simpl.
  rewrite bool_decide_eq_false_2 by exact Hin. simpl.
  unfold detect_device_type. rewrite Hg. lift_step. rewrite Ht. simpl negb.
  cbv iota. rewrite Hp. lift_step. simpl. rewrite Hd.
  rewrite (base_params_host _ _ _ Hp). reflexivity.
Qed.

End WorkerRuns.

Section YieldStep.

Context {sess : Type}.
Variable env : Env sess.
Variables (creds : Creds) (templates_path : string).
Variables (max_depth : Z) (max_workers : nat).

(** What collecting a future does (lines 247-252). *)
Lemma yield_step_cases i (st st' : @Sched sess) :
  step env creds templates_path max_depth max_workers (Yield i) st = Some st' ->
  exists to_visit futures next_to_visit f u r,
    mode st = InPool to_visit futures next_to_visit /\
    futures !! i = Some f /\ task f = Ret (u, r) /\ yielded f = false /\
    current_depth st' = current_depth st /\
    match r with
    | inr (neighbor_ips, _) =>
        world st' = world st /\
        mode st' =
          InPool to_visit
            (<[ i := {| task := task f; started := started f; yielded := true |} ]>
               futures)
            (next_to_visit ∪ (neighbor_ips ∖ visited_global (world st)))
    | inl e =>
        world st' =
          add_log ERROR ("Error in thread during discovery: " +:+ e) (world st) /\
        mode st' =
          InPool to_visit
            (<[ i := {| task := task f; started := started f; yielded := true |} ]>
               futures)
            next_to_visit
    end.
Proof.
  simpl. unfold yield_step.
  destruct (mode st) as [tv | tv futs next | | e]; try discriminate.
  destruct (futs !! i) as [f|] eqn:Hf; [|discriminate].
  destruct (task f) as [[u [e|[nb rs]]] | X ins k] eqn:Ht;
    destruct (yielded f) eqn:Hy; try discriminate; intros [= <-].
  - exists tv, futs, next, f, u, (inl e). rewrite Ht. by repeat split.
  - exists tv, futs, next, f, u, (inr (nb, rs)). rewrite Ht. by repeat split.
Qed.

Lemma yield_filters_visited i (st st' : @Sched sess) ip :
  step env creds templates_path max_depth max_workers (Yield i) st = Some st' ->
  ip ∈ visited_global (world st) ->
  ip ∈ next_frontier st' -> ip ∈ next_frontier st.
Proof.
  intros Hstep Hin.
  destruct (yield_step_cases i st st' Hstep)
    as (tv & futs & next & f & u & r & Hm & _ & _ & _ & _ & Hr).
  unfold next_frontier. rewrite Hm.
  destruct r as [e | [nb rs]]; destruct Hr as [_ ->]; set_solver.
Qed.

End YieldStep.

(** C8.  Called on an address that is in the visited set, [discover_single]
    returns the empty neighbour set and no record after its first
    instruction, the test under the lock; the visited set, the results and
    the trace of outside calls are as before, and the log has one debug
    line more. *)
Theorem discover_single_visited {sess} (env : Env sess) (ip : Address)
    (creds : Creds) (templates_path : string) (w : World) :
  ip ∈ visited_global w ->
  let r := run env (discover_single env ip creds templates_path tt) w in
  snd r = (tt, inr (∅, [])) /\
  visited_global (fst r) = visited_global w /\
  results_global (fst r) = results_global w /\
  calls (fst r) = calls w /\
  log (fst r)
    = log w ++ [{| lvl := DEBUG; msg := ip +:+ " already visited, skipping" |}] /\
  exists k,
    discover_single env ip creds templates_path tt = Vis (SeenUnderLock ip) k /\
    k true = Ret (tt, inr (∅, [])) /\
    snd (do_instr env (SeenUnderLock ip) w) = true.
Proof.
  intros Hin r.
  assert (Hrun : r = (add_log DEBUG (ip +:+ " already visited, skipping") w,
                      (tt, inr (∅, []))))
    by exact (worker_seen env ip creds templates_path w Hin).
  clearbody r. subst r. simpl. repeat split.
  destruct (worker_first_instruction env ip creds templates_path) as (k & Hk & Hret).
  exists k. repeat split; [exact Hk | exact Hret |].
  rewrite bool_decide_eq_true_2 by exact Hin. reflexivity.
Qed.

Lemma discover_single_visited_twice :
  let w := add_visited "10.0.0.1" initial_world in
  "10.0.0.1" ∈ visited_global w /\
  snd (run (Lab.network_env Lab.two_neighbours)
         (discover_single (Lab.network_env Lab.two_neighbours)
            "10.0.0.1" Lab.admin "" tt) w)
  = (tt, inr (∅, [])).
Proof.
  assert (H : "10.0.0.1" ∈ visited_global (add_visited "10.0.0.1" initial_world))
    by (apply (bool_decide_unpack _); vm_compute; exact I).
  split; [exact H|].
  apply (discover_single_visited (Lab.network_env Lab.two_neighbours)
           "10.0.0.1" Lab.admin "" _ H).
Defined.

(** C2.  [PLATFORM_MAPPING] sends [cisco_xe] and [cisco_xr] to [cisco_ios],
    a key of [VENDOR_COMMANDS]; but the worker looks the detector's own
    answer up in [VENDOR_COMMANDS], where neither is a key: when the
    credentials of the address are found and the detector, called with
    the parameters built from them, answers one of the two, it logs the
    warning of line 159, adds the address to the visited set and returns
    with no neighbour, no record, no connection and no command sent. *)
Theorem raw_platform_skipped {sess} (env : Env sess) (ip : Address)
    (creds : Creds) (templates_path : string) (w : World) (raw : string)
    (device_cred : Value) (p : BaseParams) :
  raw = "cisco_xe" \/ raw = "cisco_xr" ->
  ip ∉ visited_global w ->
  get_device_cred ip creds = inr device_cred ->
  truth device_cred = true ->
  base_params ip device_cred = inr p ->
  SSHDetect env p = inr (Some raw) ->
  PLATFORM_MAPPING !! raw = Some "cisco_ios" /\
  is_Some (VENDOR_COMMANDS !! "cisco_ios") /\
  VENDOR_COMMANDS !! raw = None /\
  run env (discover_single env ip creds templates_path tt) w =
  ({| visited_global := visited_global w ∪ {[ ip ]};
      results_global := results_global w;
      log := log w ++
        [ {| lvl := INFO; msg := "Discovering " +:+ ip |};
          {| lvl := INFO;
             msg := "Detected device type for " +:+ ip +:+ ": " +:+ raw |};
          {| lvl := WARNING;
             msg := "Skipping " +:+ ip
                    +:+ ": unsupported or undetected device type '"
                    +:+ raw +:+ "'" |} ];
      calls := calls w ++ [CallDetect ip] |},
   (tt, inr (∅, []))).
Proof.
  intros Hraw Hin Hg Ht Hp Hd.
  assert (Hmap : PLATFORM_MAPPING !! raw = Some "cisco_ios")
    by (destruct Hraw as [-> | ->]; by vm_compute).
  assert (Hkey : VENDOR_COMMANDS !! raw = None)
    by (destruct Hraw as [-> | ->]; by vm_compute).
  split; [exact Hmap|].
  split; [apply (bool_decide_unpack _); by vm_compute|]. split; [exact Hkey|].
  etrans; [exact (worker_unsupported env ip creds templates_path w raw
                    device_cred p Hin Hg Ht Hp Hd Hkey)|].
  rewrite (base_params_host _ _ _ Hp).
  unfold add_visited, add_log, add_call. simpl.
  rewrite <- !app_assoc. reflexivity.
Qed.

Lemma raw_platform_skipped_xe_switch :
  VENDOR_COMMANDS !! "cisco_xe" = None /\
  run (Lab.network_env Lab.xe_switch)
    (discover_single (Lab.network_env Lab.xe_switch) "10.0.0.1" Lab.admin "" tt)
    initial_world
  = ({| visited_global := ∅ ∪ {[ "10.0.0.1" ]};
        results_global := [];
        log := [ {| lvl := INFO; msg := "Discovering 10.0.0.1" |};
                 {| lvl := INFO;
                    msg := "Detected device type for 10.0.0.1: cisco_xe" |};
                 {| lvl := WARNING;
                    msg := "Skipping 10.0.0.1: unsupported or undetected device type 'cisco_xe'" |} ];
        calls := [CallDetect "10.0.0.1"] |},
     (tt, inr (∅, []))).
Proof.
  edestruct (raw_platform_skipped (Lab.network_env Lab.xe_switch) "10.0.0.1"
               Lab.admin "" initial_world "cisco_xe") as (_ & _ & Hkey & Hrun).
  - by left.
  - apply (bool_decide_unpack _). vm_compute. exact I.
  - reflexivity.
  - reflexivity.
  - reflexivity.
  - reflexivity.
  - split; [exact Hkey | exact Hrun].
Defined.


(** C6.  Inside a level the next frontier is the union, over the futures
    collected so far, of each returned neighbour set less the visited set
    as it was when that future was collected.  So at every moment it is
    contained in the union of the collected neighbour sets and contains
    every collected address that is not visited yet; when the level ends
    the collected sets are those of all the futures that returned.
    Collecting a future that raised logs the error, adds nothing to the
    next frontier and leaves the level running. *)
Theorem next_frontier_bounds {sess} (env : Env sess) (creds : Creds)
    (templates_path : string) (max_depth : Z) (max_workers : nat)
    (seed_ip : Address) (w0 : World) (sched : list Action) (st : @Sched sess) :
  concurrent_discover env creds templates_path max_depth max_workers
    seed_ip sched w0 = Some st ->
  match mode st with
  | InPool _ futures next_to_visit =>
      next_to_visit ⊆ collected futures /\
      collected futures ∖ visited_global (world st) ⊆ next_to_visit /\
      (forallb yielded futures = true ->
       collected futures = level_union futures /\
       level_union futures ∖ visited_global (world st) ⊆ next_to_visit /\
       next_to_visit ⊆ level_union futures)
  | _ => True
  end /\
  forall i st',
    step env creds templates_path max_depth max_workers (Yield i) st = Some st' ->
    exists to_visit futures next_to_visit f u r,
      mode st = InPool to_visit futures next_to_visit /\
      futures !! i = Some f /\ task f = Ret (u, r) /\ yielded f = false /\
      current_depth st' = current_depth st /\
      match r with
      | inr (neighbor_ips, _) =>
          world st' = world st /\
          mode st' =
            InPool to_visit
              (<[ i := {| task := task f; started := started f; yielded := true |} ]>
                 futures)
              (next_to_visit ∪ (neighbor_ips ∖ visited_global (world st)))
      | inl e =>
          world st' =
            add_log ERROR ("Error in thread during discovery: " +:+ e) (world st) /\
          mode st' =
            InPool to_visit
              (<[ i := {| task := task f; started := started f; yielded := true |} ]>
                 futures)
              next_to_visit
      end.
Proof.
  intros Hrun. split; [|intros i st'; apply yield_step_cases].
  pose proof (exec_frontier_inv env creds templates_path max_depth max_workers
                sched seed_ip w0 st Hrun) as Hinv.
  unfold frontier_inv in Hinv.
  destruct (mode st) as [tv | tv futs next | | e]; try exact I.
  destruct Hinv as (Hsub & Hsup & _). repeat split; try assumption.
  - by apply collected_all.
  - rewrite <- (collected_all futs) by assumption. exact Hsup.
  - rewrite <- (collected_all futs) by assumption. exact Hsub.
Qed.

Lemma next_frontier_bounds_diamond :
  exists st,
    Lab.discover Lab.diamond "10.0.0.1" 2 Schedule.overtaken = Some st /\
    match mode st with
    | InPool _ futures next_to_visit =>
        next_to_visit ⊆ collected futures /\
        collected futures ∖ visited_global (world st) ⊆ next_to_visit /\
        (forallb yielded futures = true ->
         collected futures = level_union futures /\
         level_union futures ∖ visited_global (world st) ⊆ next_to_visit /\
         next_to_visit ⊆ level_union futures)
    | _ => True
    end.
Proof.
  destruct (Lab.discover Lab.diamond "10.0.0.1" 2 Schedule.overtaken)
    as [st|] eqn:Hrun; [|vm_compute in Hrun; discriminate].
  exists st. split; [reflexivity|].
  exact (proj1 (next_frontier_bounds (Lab.network_env Lab.diamond) Lab.admin
                  "~/ntc-templates" 2 10 "10.0.0.1" initial_world
                  Schedule.overtaken st Hrun)).
Defined.

(** Against C6 as stated: on [Lab.diamond], with the result of the worker
    of 10.0.0.2 collected while the workers of 10.0.0.3 and 10.0.0.4 have
    not started, level 1 ends with the next frontier {10.0.0.3}.  The
    neighbour sets returned at that level are {10.0.0.3} and {10.0.0.4};
    less the visited set of any state of the run, their union is never
    {10.0.0.3}. *)
Lemma next_frontier_is_not_union_less_visited :
  exists st,
    Lab.discover Lab.diamond "10.0.0.1" 2 Schedule.overtaken = Some st /\
    level_done st /\
    level_union (pool_futures st) = {[ "10.0.0.3"; "10.0.0.4" ]} /\
    next_frontier st = {[ "10.0.0.3" ]} /\
    visited_global (world st)
      = {[ "10.0.0.1"; "10.0.0.2"; "10.0.0.3"; "10.0.0.4" ]} /\
    Forall (fun s : @Sched Lab.Session =>
              level_union (pool_futures st) ∖ visited_global (world s)
              <> next_frontier st)
      (states (Lab.network_env Lab.diamond) Lab.admin "~/ntc-templates" 2 10
         Schedule.overtaken (init "10.0.0.1" initial_world)).
Proof.
  destruct (Lab.discover Lab.diamond "10.0.0.1" 2 Schedule.overtaken)
    as [st|] eqn:Hrun; [|vm_compute in Hrun; discriminate].
  exists st. split; [reflexivity|].
  assert (Hlevel : option_map (fun st : @Sched Lab.Session =>
                       match mode st with
                       | InPool _ futures _ => forallb yielded futures
                       | _ => false
                       end)
                     (Lab.discover Lab.diamond "10.0.0.1" 2 Schedule.overtaken)
                   = Some true) by (by vm_compute).
  assert (Hunion : option_map (fun st : @Sched Lab.Session =>
                     bool_decide (level_union (pool_futures st)
                                  = {[ "10.0.0.3"; "10.0.0.4" ]}))
                     (Lab.discover Lab.diamond "10.0.0.1" 2 Schedule.overtaken)
                   = Some true) by (by vm_compute).
  assert (Hnext : option_map (fun st : @Sched Lab.Session =>
                     bool_decide (next_frontier st = {[ "10.0.0.3" ]}))
                     (Lab.discover Lab.diamond "10.0.0.1" 2 Schedule.overtaken)
                   = Some true) by (by vm_compute).
  assert (Hvis : option_map (fun st : @Sched Lab.Session =>
                     bool_decide (visited_global (world st)
                       = {[ "10.0.0.1"; "10.0.0.2"; "10.0.0.3"; "10.0.0.4" ]}))
                     (Lab.discover Lab.diamond "10.0.0.1" 2 Schedule.overtaken)
                   = Some true) by (by vm_compute).
  assert (Hall : option_map (fun st : @Sched Lab.Session =>
                     bool_decide
                       (Forall (fun s : @Sched Lab.Session =>
                                  level_union (pool_futures st)
                                  ∖ visited_global (world s)
                                  <> next_frontier st)
                          (states (Lab.network_env Lab.diamond) Lab.admin
                             "~/ntc-templates" 2 10 Schedule.overtaken
                             (init "10.0.0.1" initial_world))))
                     (Lab.discover Lab.diamond "10.0.0.1" 2 Schedule.overtaken)
                   = Some true) by (by vm_compute).
  rewrite Hrun in Hlevel, Hunion, Hnext, Hvis, Hall.
  cbv [option_map] in Hlevel, Hunion, Hnext, Hvis, Hall.
  injection Hlevel as Hlevel. injection Hunion as Hunion.
  injection Hnext as Hnext. injection Hvis as Hvis. injection Hall as Hall.
  apply bool_decide_eq_true_1 in Hunion, Hnext, Hvis, Hall.
  clear Hrun. repeat split; try assumption.
  unfold level_done.
  destruct (mode st); first [exact Hlevel | discriminate Hlevel].
Qed.

(** The credentials of the laboratory are well formed: no look-up
    raises. *)
Lemma admin_lookups_total : lookups_total Lab.admin.
Proof.
  intros ip e [H | (device_cred & Hg & _ & Hb)].
  - vm_compute in H. discriminate H.
  - vm_compute in Hg. injection Hg as <-. vm_compute in Hb. discriminate Hb.
Qed.

(** C1.  In a run of [concurrent_discover] in which the credential
    look-ups and the reading of the prompt of a session return, started
    in a world where every address set out on so far was set out on once
    and is in the visited set, line 155 is reached at most once for every
    address, whatever the schedule; and outside a level every address set
    out on is in the visited set. *)
Theorem discovery_attempted_at_most_once {sess} (env : Env sess) (creds : Creds)
    (templates_path : string) (max_depth : Z) (max_workers : nat)
    (seed_ip : Address) (w0 : World) (sched : list Action) (st : @Sched sess) :
  prompt_total env ->
  lookups_total creds ->
  (forall ip, attempts w0 ip <= 1) ->
  (forall ip, attempts w0 ip = 1 -> ip ∈ visited_global w0) ->
  concurrent_discover env creds templates_path max_depth max_workers
    seed_ip sched w0 = Some st ->
  forall ip,
    attempts (world st) ip <= 1 /\
    (pool_futures st = [] -> attempts (world st) ip = 1 ->
     ip ∈ visited_global (world st)).
Proof.
  intros Hp Hlook H0 H1 Hrun ip.
  pose proof (exec_once_inv env creds templates_path max_depth max_workers
                sched (init seed_ip w0) st Hp Hlook
                (init_once_inv env seed_ip w0 H0 H1) Hrun) as [Hle Hmode].
  split; [apply Hle|]. intros Hout Hone. unfold pool_futures in Hout.
  destruct (mode st) as [tv | tv futs next | | e]; try (by apply Hmode).
  subst futs. destruct Hmode as (_ & _ & _ & Hmode).
  destruct (Hmode ip Hone) as [? | (i & f & _ & Hf & _)]; [done|].
  discriminate Hf.
Qed.

Lemma discovery_attempted_at_most_once_pair :
  exists st,
    Lab.discover Lab.pair "10.0.0.1" 1 Schedule.two_levels = Some st /\
    attempts (world st) "10.0.0.1" <= 1 /\
    attempts (world st) "10.0.0.2" <= 1.
Proof.
  destruct (Lab.discover Lab.pair "10.0.0.1" 1 Schedule.two_levels)
    as [st|] eqn:Hrun; [|vm_compute in Hrun; discriminate].
  exists st. split; [reflexivity|].
  assert (Hp : prompt_total (Lab.network_env Lab.pair))
    by (intros s; eexists; reflexivity).
  assert (H0 : forall ip, attempts initial_world ip <= 1)
    by (intros ip; apply Nat.le_0_l).
  assert (H1 : forall ip, attempts initial_world ip = 1 ->
                          ip ∈ visited_global initial_world)
    by (intros ip H; discriminate H).
  split.
  - exact (proj1 (discovery_attempted_at_most_once (Lab.network_env Lab.pair)
                    Lab.admin "~/ntc-templates" 1 10 "10.0.0.1" initial_world
                    Schedule.two_levels st Hp admin_lookups_total H0 H1 Hrun
                    "10.0.0.1")).
  - exact (proj1 (discovery_attempted_at_most_once (Lab.network_env Lab.pair)
                    Lab.admin "~/ntc-templates" 1 10 "10.0.0.1" initial_world
                    Schedule.two_levels st Hp admin_lookups_total H0 H1 Hrun
                    "10.0.0.2")).
Defined.

(** Against C1 as stated.  The first instruction of the worker tests the
    visited set and adds nothing: two callers of [discover_single] on one
    address that take turns both find it absent, both set out on it and
    both append a record. *)
Lemma address_attempted_twice :
  (visited_global
     (fst (advance (Lab.network_env Lab.two_neighbours)
             (discover_single (Lab.network_env Lab.two_neighbours)
                "10.0.0.1" Lab.admin "" tt) initial_world)) = ∅) /\
  (attempts
     (fst (interleave (Lab.network_env Lab.two_neighbours)
             (Schedule.alternate 12)
             (discover_single (Lab.network_env Lab.two_neighbours)
                "10.0.0.1" Lab.admin "" tt)
             (discover_single (Lab.network_env Lab.two_neighbours)
                "10.0.0.1" Lab.admin "" tt)
             initial_world)) "10.0.0.1" = 2) /\
  (results_global
     (fst (interleave (Lab.network_env Lab.two_neighbours)
             (Schedule.alternate 12)
             (discover_single (Lab.network_env Lab.two_neighbours)
                "10.0.0.1" Lab.admin "" tt)
             (discover_single (Lab.network_env Lab.two_neighbours)
                "10.0.0.1" Lab.admin "" tt)
             initial_world)) = [seed_record; seed_record]).
Proof.
  split; [by vm_compute|]. split; by vm_compute.
Qed.

(** The theorem needs its hypothesis on the prompt.  In a run of
    [concurrent_discover] on [Lab.relapse], one worker at a time,
    [find_prompt] raises in the worker of 10.0.0.2 after line 155 and
    before line 173; 10.0.0.3 names 10.0.0.2, which is set out on again
    at level 2 and is not in the visited set when the run returns. *)
Lemma prompt_failure_revisited :
  exists st,
    Lab.discover Lab.relapse "10.0.0.1" 2 Schedule.relapse_run = Some st /\
    is_Some (returned st) /\
    attempts (world st) "10.0.0.2" = 2 /\
    "10.0.0.2" ∉ visited_global (world st).
Proof.
  destruct (Lab.discover Lab.relapse "10.0.0.1" 2 Schedule.relapse_run)
    as [st|] eqn:Hrun; [|vm_compute in Hrun; discriminate].
  exists st. split; [reflexivity|].
  assert (Hret : option_map (fun st : @Sched Lab.Session =>
                     bool_decide (is_Some (returned st)))
                   (Lab.discover Lab.relapse "10.0.0.1" 2 Schedule.relapse_run)
                 = Some true) by (by vm_compute).
  assert (Hatt : option_map (fun st : @Sched Lab.Session =>
                     attempts (world st) "10.0.0.2")
                   (Lab.discover Lab.relapse "10.0.0.1" 2 Schedule.relapse_run)
                 = Some 2) by (by vm_compute).
  assert (Hvis : option_map (fun st : @Sched Lab.Session =>
                     bool_decide ("10.0.0.2" ∉ visited_global (world st)))
                   (Lab.discover Lab.relapse "10.0.0.1" 2 Schedule.relapse_run)
                 = Some true) by (by vm_compute).
  rewrite Hrun in Hret, Hatt, Hvis. cbv [option_map] in Hret, Hatt, Hvis.
  injection Hret as Hret. injection Hatt as Hatt. injection Hvis as Hvis.
  apply bool_decide_eq_true_1 in Hret, Hvis. clear Hrun.
  repeat split; assumption.
Qed.

(** ** The loop over the levels *)

Section Levels.

Context {sess : Type}.
Variable env : Env sess.
Variables (creds : Creds) (templates_path : string).
Variables (max_depth : Z) (max_workers : nat).

Local Abbreviation step' := (step env creds templates_path max_depth max_workers).

Lemma loop_test_false (st : @Sched sess) to_visit :
  loop_test max_depth st to_visit = false <->
  (max_depth < Z.of_nat (current_depth st))%Z \/ to_visit = ∅.
Proof.
  unfold loop_test. rewrite andb_false_iff, Z.leb_gt, negb_false_iff.
  by rewrite bool_decide_eq_true.
Qed.

(** A step returns exactly when it is the test of [while] and the test
    fails. *)
Lemma step_returns a (st st' : @Sched sess) :
  step' a st = Some st' ->
  (is_Some (returned st') <->
   a = Main /\ exists to_visit,
     mode st = AtLoop to_visit /\
     ((max_depth < Z.of_nat (current_depth st))%Z \/ to_visit = ∅)).
Proof.
  intros Hstep. apply step_Stepped in Hstep.
  destruct Hstep as [ tv Hm Ht Hw | tv Hm Ht Hw | tv Hm Ht | tv futs next Hm Hall
                    | i tv futs next f X ins k Hm Hf Htask
                    | i tv futs next f u nb rs Hm Hf Htask Hy
                    | i tv futs next f u e Hm Hf Htask Hy ];
    unfold returned; cbn [mode world]; rewrite Hm.
  - split; [by intros [? ?]|]. intros (_ & tv' & [= <-] & Hno).
    apply loop_test_false in Hno. congruence.
  - split; [by intros [? ?]|]. intros (_ & tv' & [= <-] & Hno).
    apply loop_test_false in Hno. congruence.
  - split; [|by eexists]. intros _. split; [reflexivity|].
    exists tv. split; [reflexivity|]. by apply loop_test_false.
  - split; [by intros [? ?]|]. by intros (_ & tv' & ? & _).
  - split; [by intros [? ?]|]. by intros [? _].
  - split; [by intros [? ?]|]. by intros [? _].
  - split; [by intros [? ?]|]. by intros [? _].
Qed.

(** Once the function has returned nothing happens any more. *)
Lemma returned_final a (st : @Sched sess) :
  is_Some (returned st) -> step' a st = None.
Proof.
  unfold returned. intros [res Hres].
  destruct a; simpl; unfold main_step, work_step, yield_step;
    destruct (mode st); try discriminate Hres; reflexivity.
Qed.

(** At the test of [while] the main thread can always move; a level that
    ends moves to the next depth with the frontier it computed. *)
Lemma loop_head_moves (st : @Sched sess) to_visit :
  mode st = AtLoop to_visit -> is_Some (step' Main st).
Proof.
  intros Hm. simpl. unfold main_step. rewrite Hm.
  destruct (_ && _); [destruct (max_workers =? 0)|]; by eexists.
Qed.

Lemma level_end (st st' : @Sched sess) to_visit futures next_to_visit :
  mode st = InPool to_visit futures next_to_visit ->
  step' Main st = Some st' ->
  forallb yielded futures = true /\
  st' = {| world := world st; current_depth := S (current_depth st);
           mode := AtLoop next_to_visit |}.
Proof.
  intros Hm. simpl. unfold main_step. rewrite Hm.
  destruct (forallb yielded futures); [|discriminate]. by intros [= <-].
Qed.

End Levels.

Lemma depth0_check_spec (st : @Sched Lab.Session) :
  depth0_check st = true ->
  results_global (world st) `prefix_of` [seed_record] /\
  visited_global (world st) ⊆ {[ "10.0.0.1" ]} /\
  attempts (world st) "10.0.0.2" = 0 /\
  attempts (world st) "10.0.0.3" = 0 /\
  (forall res, returned st = Some res -> res = ({[ "10.0.0.1" ]}, [seed_record])) /\
  (forall to_visit, mode st = AtLoop to_visit -> current_depth st = 1 ->
                    to_visit = {[ "10.0.0.2"; "10.0.0.3" ]}) /\
  (forall e, mode st <> Failed e).
Proof.
  unfold depth0_check. intros H.
  apply andb_prop in H as [H Hmode]. apply andb_prop in H as [H H3].
  apply andb_prop in H as [H H2]. apply andb_prop in H as [Hres Hvis].
  apply bool_decide_eq_true_1 in Hres, Hvis. apply Nat.eqb_eq in H2, H3.
  split; [exact Hres|]. split; [exact Hvis|]. split; [exact H2|].
  split; [exact H3|]. unfold returned.
  destruct (mode st) as [tv | tv futs next | | e].
  - split; [intros res Hr; discriminate Hr|]. split; [|intros e He; discriminate He].
    intros tv' [= <-] Hd. rewrite Hd in Hmode. cbn [Nat.eqb] in Hmode.
    by apply bool_decide_eq_true_1 in Hmode.
  - split; [intros res Hr; discriminate Hr|].
    split; [intros tv' Heq; discriminate Heq | intros e He; discriminate He].
  - apply andb_prop in Hmode as [Hv Hr]. apply bool_decide_eq_true_1 in Hv, Hr.
    split; [|split; [intros tv' Heq; discriminate Heq | intros e He; discriminate He]].
    intros res [= <-]. by rewrite Hv, Hr.
  - discriminate Hmode.
Qed.

(** C5.  [concurrent_discover] starts at depth 0 with the seed as its
    frontier.  A step returns exactly when it is the test of [while] and
    the depth exceeds [max_depth] or the frontier is empty; the test can
    always be made, a level that ends moves on to the next depth with the
    frontier it computed, and after the return nothing happens.  On
    [Lab.two_neighbours] with [max_depth = 0], under every schedule: no
    schedule is longer than 16 actions, the only record ever appended is
    that of 10.0.0.1, neither 10.0.0.2 nor 10.0.0.3 is ever set out on,
    the frontier computed at level 0 is {10.0.0.2, 10.0.0.3}, and what is
    returned is the visited set {10.0.0.1} and the one record; the schedule
    [Schedule.seed_only] does return. *)
Theorem scheduler_levels {sess} (env : Env sess) (creds : Creds)
    (templates_path : string) (max_depth : Z) (max_workers : nat) :
  (forall seed_ip w,
      concurrent_discover env creds templates_path max_depth max_workers
        seed_ip [] w
      = Some {| world := w; current_depth := 0; mode := AtLoop {[ seed_ip ]} |}) /\
  (forall a (st st' : @Sched sess),
      step env creds templates_path max_depth max_workers a st = Some st' ->
      (is_Some (returned st') <->
       a = Main /\ exists to_visit,
         mode st = AtLoop to_visit /\
         ((max_depth < Z.of_nat (current_depth st))%Z \/ to_visit = ∅))) /\
  (forall (st : @Sched sess) to_visit,
      mode st = AtLoop to_visit ->
      is_Some (step env creds templates_path max_depth max_workers Main st)) /\
  (forall (st st' : @Sched sess) to_visit futures next_to_visit,
      mode st = InPool to_visit futures next_to_visit ->
      step env creds templates_path max_depth max_workers Main st = Some st' ->
      forallb yielded futures = true /\
      st' = {| world := world st; current_depth := S (current_depth st);
               mode := AtLoop next_to_visit |}) /\
  (forall a (st : @Sched sess),
      is_Some (returned st) ->
      step env creds templates_path max_depth max_workers a st = None) /\
  (forall sched st,
      Lab.discover Lab.two_neighbours "10.0.0.1" 0 sched = Some st ->
      length sched <= 16 /\
      results_global (world st) `prefix_of` [seed_record] /\
      visited_global (world st) ⊆ {[ "10.0.0.1" ]} /\
      attempts (world st) "10.0.0.2" = 0 /\
      attempts (world st) "10.0.0.3" = 0 /\
      (forall res, returned st = Some res ->
                   res = ({[ "10.0.0.1" ]}, [seed_record])) /\
      (forall to_visit, mode st = AtLoop to_visit -> current_depth st = 1 ->
                        to_visit = {[ "10.0.0.2"; "10.0.0.3" ]}) /\
      (forall e, mode st <> Failed e)) /\
  (exists st,
      Lab.discover Lab.two_neighbours "10.0.0.1" 0 Schedule.seed_only = Some st /\
      returned st = Some ({[ "10.0.0.1" ]}, [seed_record])).
Proof.
  split; [reflexivity|].
  split; [intros a st st'; apply step_returns|].
  split; [intros st tv; apply loop_head_moves|].
  split; [intros st st' tv futs next; apply level_end|].
  split; [intros a st; apply returned_final|].
  assert (Hdead : reach (Lab.network_env Lab.two_neighbours) Lab.admin
                    "~/ntc-templates" 0 10 17 (init "10.0.0.1" initial_world) = [])
    by (by vm_compute).
  assert (Hall : forallb (fun m =>
                    forallb depth0_check
                      (reach (Lab.network_env Lab.two_neighbours) Lab.admin
                         "~/ntc-templates" 0 10 m (init "10.0.0.1" initial_world)))
                   (seq 0 17) = true)
    by (by vm_compute).
  split.
  - intros sched st Hrun. split.
    + destruct (decide (17 <= length sched)) as [Hlong | Hshort]; [|lia].
      unfold Lab.discover, concurrent_discover in Hrun.
      rewrite (reach_dead _ _ _ _ _ 17 sched _ Hdead Hlong) in Hrun.
      discriminate Hrun.
    + apply depth0_check_spec.
      exact (reach_check _ _ _ _ _ depth0_check 17 _ Hall Hdead sched st Hrun).
  - destruct (Lab.discover Lab.two_neighbours "10.0.0.1" 0 Schedule.seed_only)
      as [st|] eqn:Hrun; [|vm_compute in Hrun; discriminate].
    exists st. split; [reflexivity|].
    assert (Hret : option_map (fun st : @Sched Lab.Session =>
                       bool_decide (returned st
                                    = Some ({[ "10.0.0.1" ]}, [seed_record])))
                     (Lab.discover Lab.two_neighbours "10.0.0.1" 0
                        Schedule.seed_only)
                   = Some true) by (by vm_compute).
    rewrite Hrun in Hret. cbv [option_map] in Hret. injection Hret as Hret.
    by apply bool_decide_eq_true_1 in Hret.
Qed.

(** C9.  With no record [save_to_csv] touches no file and logs a warning.
    With records, and no failure of the file system, it opens the file,
    writes the header [ip, device_type, hostname] and then one row per
    record, in order, and logs the export; a file operation is attempted
    exactly when there is a record.  When an operation fails the writing
    stops there and the error is logged. *)
Theorem save_to_csv_spec (io_error : option (nat * exn))
    (results : list DeviceRecord) (filename : string) :
  let rows :=
    OpenForWrite filename
    :: WriteRow ["ip"; "device_type"; "hostname"]
    :: ((fun r => WriteRow [rec_ip r; rec_device_type r; rec_hostname r])
          <$> results) in
  (results = [] ->
   save_to_csv io_error results filename =
   {| file_ops := [];
      csv_log := [{| lvl := WARNING;
                     msg := "No devices discovered, skipping CSV export" |}] |}) /\
  (results <> [] ->
   save_to_csv None results filename =
   {| file_ops := rows;
      csv_log := [{| lvl := INFO;
                     msg := "Exported discovered devices to " +:+ filename |}] |}) /\
  (results <> [] ->
   length (file_ops (save_to_csv None results filename)) = 2 + length results) /\
  (file_ops (save_to_csv io_error results filename) <> [] <-> results <> []) /\
  (forall n e,
      results <> [] -> io_error = Some (n, e) -> n < 2 + length results ->
      save_to_csv io_error results filename =
      {| file_ops := take (S n) rows;
         csv_log := [{| lvl := ERROR;
                        msg := "Failed to write CSV file '" +:+ filename
                               +:+ "': " +:+ e |}] |}).
Proof.
  intros rows.
  assert (Hrows : forall first rest, results = first :: rest ->
            OpenForWrite filename
            :: WriteRow (keys first)
            :: map (fun r => WriteRow (map (field r) (keys first))) results
            = rows).
  { intros first rest _. reflexivity. }
  split; [intros ->; reflexivity|].
  split.
  { intros Hne. destruct results as [|first rest] eqn:E; [done|].
    unfold save_to_csv. by rewrite (Hrows first rest). }
  split.
  { intros Hne. destruct results as [|first rest] eqn:E; [done|].
    unfold save_to_csv. rewrite (Hrows first rest) by reflexivity.
    subst rows. cbn [file_ops length]. by rewrite length_fmap. }
  split.
  { destruct results as [|first rest] eqn:E; [by split|].
    split; [done|]. intros _. unfold save_to_csv.
    destruct io_error as [[n e]|]; [|done].
    destruct (n <? _); done. }
  intros n e Hne -> Hn. destruct results as [|first rest] eqn:E; [done|].
  unfold save_to_csv. rewrite (Hrows first rest) by reflexivity.
  assert (Hlen : length rows = 2 + length (first :: rest)).
  { subst rows. cbn [length]. by rewrite length_fmap. }
  rewrite Hlen. apply Nat.ltb_lt in Hn. by rewrite Hn.
Qed.

(** C10.  [concurrent_discover] works on the two module-global objects and
    returns them: what a call returns is the visited set and the results
    as they stand; a call never removes an address or a record that was
    there when it started, so a second call returns a visited set and
    results that extend those of the first; and a second call on a seed
    that is already visited appends no record, adds no address and makes
    no outside call. *)
Theorem globals_persist {sess} (env : Env sess)
    (creds1 creds2 : Creds) (path1 path2 : string)
    (max_depth1 max_depth2 : Z) (max_workers1 max_workers2 : nat)
    (seed1 seed2 : Address) (w0 : World) (sched1 sched2 : list Action)
    (st1 st2 : @Sched sess) :
  concurrent_discover env creds1 path1 max_depth1 max_workers1
    seed1 sched1 w0 = Some st1 ->
  concurrent_discover env creds2 path2 max_depth2 max_workers2
    seed2 sched2 (world st1) = Some st2 ->
  (forall res, returned st2 = Some res ->
               res = (visited_global (world st2), results_global (world st2))) /\
  visited_global w0 ⊆ visited_global (world st1) /\
  results_global w0 `prefix_of` results_global (world st1) /\
  visited_global (world st1) ⊆ visited_global (world st2) /\
  results_global (world st1) `prefix_of` results_global (world st2) /\
  (seed2 ∈ visited_global (world st1) ->
   visited_global (world st2) = visited_global (world st1) /\
   results_global (world st2) = results_global (world st1) /\
   calls (world st2) = calls (world st1)).
Proof.
  intros Hrun1 Hrun2.
  pose proof (exec_grows env creds1 path1 max_depth1 max_workers1
                sched1 (init seed1 w0) st1 Hrun1) as [Hv1 Hr1].
  pose proof (exec_grows env creds2 path2 max_depth2 max_workers2
                sched2 (init seed2 (world st1)) st2 Hrun2) as [Hv2 Hr2].
  split.
  { intros res. unfold returned. destruct (mode st2); intros [= <-]. reflexivity. }
  repeat (split; [assumption|]).
  intros Hseed.
  destruct (exec_noop_inv env creds2 path2 max_depth2 max_workers2
              seed2 (world st1) sched2 st2 Hseed Hrun2) as (Hv & Hr & Hc & _).
  by repeat split.
Qed.

Lemma globals_persist_second_call :
  exists st1 st2,
    Lab.discover Lab.two_neighbours "10.0.0.1" 0 Schedule.seed_only = Some st1 /\
    concurrent_discover (Lab.network_env Lab.two_neighbours) Lab.admin
      "~/ntc-templates" 0 10 "10.0.0.1"
      (Schedule.level_of_one 1 ++ [Main]) (world st1) = Some st2 /\
    results_global (world st2) = results_global (world st1) /\
    visited_global (world st2) = visited_global (world st1).
Proof.
  assert (Hboth :
    match Lab.discover Lab.two_neighbours "10.0.0.1" 0 Schedule.seed_only with
    | Some st1 =>
        match concurrent_discover (Lab.network_env Lab.two_neighbours) Lab.admin
                "~/ntc-templates" 0 10 "10.0.0.1"
                (Schedule.level_of_one 1 ++ [Main]) (world st1) with
        | Some st2 => bool_decide ("10.0.0.1" ∈ visited_global (world st1))
        | None => false
        end
    | None => false
    end = true) by (vm_compute; reflexivity).
  destruct (Lab.discover Lab.two_neighbours "10.0.0.1" 0 Schedule.seed_only)
    as [st1|] eqn:Hrun1; [|discriminate Hboth].
  destruct (concurrent_discover (Lab.network_env Lab.two_neighbours) Lab.admin
              "~/ntc-templates" 0 10 "10.0.0.1"
              (Schedule.level_of_one 1 ++ [Main]) (world st1))
    as [st2|] eqn:Hrun2; [|discriminate Hboth].
  apply bool_decide_eq_true_1 in Hboth.
  exists st1, st2. split; [reflexivity|]. split; [exact Hrun2|].
  destruct (globals_persist (Lab.network_env Lab.two_neighbours)
              Lab.admin Lab.admin "~/ntc-templates" "~/ntc-templates" 0 0 10 10
              "10.0.0.1" "10.0.0.1" initial_world
              Schedule.seed_only (Schedule.level_of_one 1 ++ [Main])
              st1 st2 Hrun1 Hrun2) as (_ & _ & _ & _ & _ & Hsame).
  destruct (Hsame Hboth) as (Hv & Hr & _). split; [exact Hr | exact Hv].
Defined.

(** ** Failures are caught and logged *)

Lemma string_append_assoc (a b c : string) : (a +:+ b) +:+ c = a +:+ b +:+ c.
Proof.
  induction a as [|x a IH]; [reflexivity|].
  change (String x ((a +:+ b) +:+ c) = String x (a +:+ b +:+ c)).
  by rewrite IH.
Qed.

Section HandledLemmas.

Context {sess : Type}.
Variable env : Env sess.

Ltac unmonad := unfold mbind, mret, Py_bind, Py_ret in *.

Lemma reports_reports_or_raises b e {L A} (t : Thread sess (L * (exn + A))) :
  reports e t -> reports_or_raises b e t.
Proof. destruct t as [[l [e'|a]] | X i k]; simpl; done. Qed.

Lemma handled_tbind b b' {L A L' B} (t : Thread sess (L * (exn + A)))
    (k : L * (exn + A) -> Thread sess (L' * (exn + B))) :
  handled env b t ->
  (forall a, handled env b' (k a)) ->
  (b = true -> forall l e, reports_or_raises b' e (k (l, inl e))) ->
  handled env b' (tbind t k).
Proof.
  intros Ht Hk Hpass. induction t as [a | X i h IH]; [apply Hk|].
  simpl. intros w. destruct (Ht w) as [Hf Hh]. split; [|by apply IH].
  destruct (failure i _) as [e|]; [|done].
  destruct (h _) as [[l [e'|a]] | X' i' h']; simpl in *.
  - destruct Hf as [-> ->]. by apply Hpass.
  - done.
  - exact Hf.
Qed.

Lemma handled_bind b {L A B} (m : Py sess L A) (k : A -> Py sess L B) :
  (forall l, handled env b (m l)) -> (forall a l, handled env b (k a l)) ->
  forall l, handled env b (bind m k l).
Proof.
  intros Hm Hk l. unfold bind. apply (handled_tbind b b); [apply Hm | |].
  - intros [l' [e|a]]; [exact I | apply Hk].
  - intros -> l' e. by split.
Qed.

Lemma handled_try_except b {L A} (m : Py sess L A) (h : exn -> Py sess L A) :
  (forall l, handled env true (m l)) ->
  (forall e l, reports e (h e l) /\ handled env b (h e l)) ->
  forall l, handled env b (try_except m h l).
Proof.
  intros Hm Hh l. unfold try_except. apply (handled_tbind true b); [apply Hm | |].
  - intros [l' [e|a]]; [apply Hh | exact I].
  - intros _ l' e. apply reports_reports_or_raises, Hh.
Qed.

Lemma handled_with_locals b {L L' A} (l0 : L') (m : Py sess L' A) (l : L) :
  handled env b (m l0) -> handled env b (with_locals l0 m l).
Proof.
  intros Hm. unfold with_locals. apply (handled_tbind b b); [exact Hm | |].
  - by intros [l' r].
  - intros -> l' e. by split.
Qed.

Lemma handled_for_each b {L X} (xs : list X) (body : X -> Py sess L unit) :
  (forall x l, handled env b (body x l)) ->
  forall l, handled env b (for_each xs body l).
Proof.
  intros Hb. induction xs as [|x xs IH]; intros l; simpl; [exact I|].
  apply handled_bind; [apply Hb | intros _; apply IH].
Qed.

Lemma handled_vis b {L X} (i : instr sess X) (l : L) :
  (forall x, failure i x = None) -> handled env b (vis i l).
Proof. intros Hi. simpl. intros w. by rewrite Hi. Qed.

Lemma handled_logging b {L} lv m (l : L) : handled env b (logging lv m l).
Proof. by apply handled_vis. Qed.

(** An outside call inside a [try]: its failure ends the block. *)
Lemma handled_call {L X} (i : instr sess (exn + X)) (l : L) :
  (forall e, failure i (inl e) = Some e) ->
  (forall x, failure i (inr x) = None) ->
  handled env true (call i l).
Proof.
  intros Hi Hx. simpl. intros w. split; [|exact I].
  destruct (snd (do_instr env i w)) as [e|x]; [by rewrite Hi | by rewrite Hx].
Qed.

Lemma handled_session_send host cmd (l : @Locals sess) :
  handled env true (session_send host cmd l).
Proof.
  simpl. intros w. destruct (send_command env _ cmd) as [[e|out] s']; simpl; done.
Qed.

Lemma handled_session_prompt b host (l : @Locals sess) :
  handled env b (session_prompt host l).
Proof. simpl. by intros w. Qed.

Lemma reports_error e {L A} m (k : unit -> Py sess L A) l :
  (exists prefix, m = prefix +:+ e) -> reports e (bind (logging ERROR m) k l).
Proof. intros H. exact H. Qed.

(** [detect_device_type]: lines 135-137 log what the detector raises. *)
Lemma detect_device_type_handled b {L} ip creds (l : L) :
  handled env b (detect_device_type ip creds l).
Proof.
  unfold detect_device_type. unmonad. revert l.
  apply handled_bind; [by intros l | intros device_cred].
  destruct (negb (truth device_cred)).
  - apply handled_bind; [intros l; apply handled_logging | by intros _ l].
  - apply handled_bind; [by intros l | intros base_params].
    apply handled_try_except.
    + apply handled_bind; [intros l; by apply handled_call | intros best].
      apply handled_bind; [intros l; apply handled_logging | by intros _ l].
    + intros e l. split.
      * apply reports_error.
        exists ("Failed to autodetect device type for " +:+ ip +:+ ": ").
        by rewrite !string_append_assoc.
      * revert l. apply handled_bind;
          [intros l; apply handled_logging | by intros _ l].
Qed.

(** [ssh_connect]: lines 112-114 log what [ConnectHandler] or [enable]
    raises. *)
Lemma ssh_connect_handled b {L} ip creds device_type (l : L) :
  handled env b (ssh_connect ip creds device_type l).
Proof.
  unfold ssh_connect. unmonad. revert l.
  apply handled_bind; [by intros l | intros device_cred].
  destruct (negb (truth device_cred)).
  - apply handled_bind; [intros l; apply handled_logging | by intros _ l].
  - apply handled_bind; [by intros l | intros [auth_method [p|]]].
    + apply handled_try_except.
      * apply handled_bind; [intros l; by apply handled_call | intros nc].
        apply handled_bind.
        -- intros l. destruct (truth _); [by apply handled_call | exact I].
        -- intros nc'. apply handled_bind;
             [intros l; apply handled_logging | by intros _ l].
      * intros e l. split.
        -- apply reports_error.
           exists ("Failed to connect to " +:+ ip +:+ " (" +:+ device_type +:+ "): ").
           by rewrite !string_append_assoc.
        -- revert l. apply handled_bind;
             [intros l; apply handled_logging | by intros _ l].
    + apply handled_bind; [intros l; apply handled_logging | by intros _ l].
Qed.

(** The Juniper branch: lines 194-205 log what its commands raise. *)
Lemma juniper_lldp_handled b ip l : handled env b (juniper_lldp env ip l).
Proof.
  unfold juniper_lldp. unmonad. revert l. apply handled_try_except.
  - apply handled_bind; [apply handled_session_send | by intros output l].
  - intros e l. destruct (PyStr.contains _ _) eqn:Hsyntax.
    + split; [exact Hsyntax|]. revert l.
      apply handled_bind; [intros l; apply handled_logging | intros _].
      apply handled_try_except.
      * apply handled_bind; [apply handled_session_send | intros summary].
        apply handled_for_each. intros iface.
        apply handled_bind; [apply handled_session_send | by intros output l].
      * intros e' l. split; [|apply handled_logging].
        exists ("Fallback LLDP per-interface also failed on " +:+ ip +:+ ": ").
        by rewrite !string_append_assoc.
    + split; [|apply handled_logging].
      exists ("LLDP detail failed on " +:+ ip +:+ ": ").
      by rewrite !string_append_assoc.
Qed.

(** The loop over the protocols: lines 215-217 log what a command
    raises. *)
Lemma run_protocols_handled b ip device_type commands l :
  handled env b (run_protocols env ip device_type commands l).
Proof.
  unfold run_protocols. unmonad. revert l. apply handled_for_each. intros proto.
  destruct (negb _); [by intros l|].
  destruct (_ && _); [apply juniper_lldp_handled|].
  apply handled_try_except.
  - apply handled_bind; [apply handled_session_send | by intros output l].
  - intros e l. split; [|apply handled_logging].
    exists ("Failed to run '" +:+ default "" (commands !! proto ≫= id)
            +:+ "' on " +:+ ip +:+ ": ").
    by rewrite !string_append_assoc.
Qed.

(** The worker: every failure of the detector, of the connection or of a
    command is followed by its log record. *)
Lemma discover_single_handled ip creds templates_path l :
  handled env false (discover_single env ip creds templates_path l).
Proof.
  unfold discover_single. unmonad. revert l.
  apply handled_bind; [intros l; by apply handled_vis | intros seen].
  destruct seen; [by intros l|].
  apply handled_bind; [intros l; apply handled_logging | intros _].
  apply handled_bind; [intros l; apply detect_device_type_handled | intros device_type].
  destruct (negb (truthy device_type) || _).
  - apply handled_bind; [intros l; apply handled_logging | intros _].
    apply handled_bind; [intros l; by apply handled_vis | by intros _ l].
  - apply handled_bind; [intros l; apply ssh_connect_handled | intros [nc|]].
    + intros l. apply handled_with_locals. generalize
        {| net_connect := nc; neighbor_ips := ∅ |}. clear l.
      apply handled_bind; [apply handled_session_prompt | intros prompt].
      apply handled_bind; [intros l; by apply handled_vis | intros _].
      apply handled_bind; [intros l; by apply handled_vis | intros _].
      apply handled_bind; [intros l; by destruct (VENDOR_COMMANDS !! _) | intros commands].
      apply handled_bind; [by intros l | intros _].
      apply handled_bind; [apply run_protocols_handled | intros _].
      apply handled_bind; [by intros l | by intros nbrs l].
    + apply handled_bind; [intros l; by apply handled_vis | by intros _ l].
Qed.

End HandledLemmas.

(** C7.  In every worker, a failure of the platform detection (the
    detector raises), of the session establishment ([ConnectHandler] or
    [enable] raises) or of the command execution ([send_command] raises)
    is followed by its log record in the same worker, and none of them
    leaves [detect_device_type], [ssh_connect], the loop over the
    protocols or [discover_single]: an exception that leaves one of these
    comes from somewhere else.  When the detector raises, the error and
    the warning of line 159 are logged, the address is added to the
    visited set, no record is appended, no connection is made, and the
    worker returns the empty neighbour set; the same holds, but for the
    messages, however the detection fails: no credentials, an exception
    or no answer of the detector.  When the connection raises, the error
    is logged and [ssh_connect] returns [None].  A result collected when
    an address is already in the visited set does not add the address to
    the next frontier. *)
Theorem worker_failures_contained {sess} (env : Env sess) (creds : Creds)
    (templates_path : string) (max_depth : Z) (max_workers : nat) :
  (forall ip, handled env false (discover_single env ip creds templates_path tt)) /\
  (forall (L : Type) ip,
      raises_only env (L := L) (lookup_raises ip creds)
        (detect_device_type ip creds)) /\
  (forall (L : Type) ip device_type,
      raises_only env (L := L) (lookup_raises ip creds)
        (ssh_connect ip creds device_type)) /\
  (forall ip device_type commands,
      raises_only env (fun _ => False) (run_protocols env ip device_type commands)) /\
  (forall ip,
      raises_only env
        (fun e => (exists s, find_prompt env s = inl e) \/ lookup_raises ip creds e)
        (discover_single env ip creds templates_path)) /\
  (forall ip w device_cred p e,
      ip ∉ visited_global w ->
      get_device_cred ip creds = inr device_cred ->
      truth device_cred = true ->
      base_params ip device_cred = inr p ->
      SSHDetect env p = inl e ->
      run env (discover_single env ip creds templates_path tt) w =
      ({| visited_global := visited_global w ∪ {[ ip ]};
          results_global := results_global w;
          log := log w ++
            [ {| lvl := INFO; msg := "Discovering " +:+ ip |};
              {| lvl := ERROR;
                 msg := "Failed to autodetect device type for " +:+ ip
                        +:+ ": " +:+ e |};
              {| lvl := WARNING;
                 msg := "Skipping " +:+ ip
                        +:+ ": unsupported or undetected device type 'None'" |} ];
          calls := calls w ++ [CallDetect ip] |},
       (tt, inr (∅, [])))) /\
  (forall ip w device_cred,
      ip ∉ visited_global w ->
      get_device_cred ip creds = inr device_cred ->
      (truth device_cred = false \/
       exists p, truth device_cred = true /\ base_params ip device_cred = inr p /\
                 forall dt, SSHDetect env p <> inr (Some dt)) ->
      exists w',
        run env (discover_single env ip creds templates_path tt) w
        = (w', (tt, inr (∅, []))) /\
        visited_global w' = visited_global w ∪ {[ ip ]} /\
        results_global w' = results_global w /\
        (forall c, c ∈ calls w' -> c ∈ calls w \/ c = CallDetect ip)) /\
  (forall (L : Type) ip device_type (l : L) w device_cred auth_method p e,
      get_device_cred ip creds = inr device_cred ->
      truth device_cred = true ->
      device_params ip device_cred device_type = inr (auth_method, Some p) ->
      snd (connection env p) = inl e ->
      run env (ssh_connect ip creds device_type l) w =
      (add_log ERROR ("Failed to connect to " +:+ ip +:+ " (" +:+ device_type
                      +:+ "): " +:+ e)
         (add_calls (fst (connection env p)) w),
       (l, inr None))) /\
  (forall i (st st' : @Sched sess) ip,
      step env creds templates_path max_depth max_workers (Yield i) st = Some st' ->
      ip ∈ visited_global (world st) ->
      ip ∈ next_frontier st' -> ip ∈ next_frontier st).
Proof.
  split; [intros ip; apply discover_single_handled|].
  split; [intros L ip; apply detect_device_type_raises|].
  split; [intros L ip dt; apply ssh_connect_raises|].
  split; [intros ip dt commands; apply run_protocols_never_raises|].
  split; [intros ip; apply discover_single_raises|].
  split.
  { intros ip w c p e Hin Hg Ht Hp Hd.
    etrans; [exact (worker_detect_raises env ip creds templates_path w c p e
                      Hin Hg Ht Hp Hd)|].
    unfold add_visited, add_log, add_call. simpl.
    rewrite <- !app_assoc. reflexivity. }
  split; [intros ip w c; exact (worker_undetected env ip creds templates_path w c)|].
  split.
  { intros L ip dt l w c a p e Hg Ht Hp He.
    rewrite run_ssh_connect, Hg, Ht, Hp. cbv zeta. by rewrite He. }
  intros i st st' ip. apply yield_filters_visited.
Qed.

Lemma worker_failures_contained_silent :
  run (Lab.network_env Lab.diamond)
    (discover_single (Lab.network_env Lab.diamond) "10.0.0.3" Lab.admin "" tt)
    initial_world
  = ({| visited_global := ∅ ∪ {[ "10.0.0.3" ]};
        results_global := [];
        log := [ {| lvl := INFO; msg := "Discovering 10.0.0.3" |};
                 {| lvl := ERROR;
                    msg := "Failed to autodetect device type for 10.0.0.3: timed out" |};
                 {| lvl := WARNING;
                    msg := "Skipping 10.0.0.3: unsupported or undetected device type 'None'" |} ];
        calls := [CallDetect "10.0.0.3"] |},
     (tt, inr (∅, []))).
Proof.
  destruct (worker_failures_contained (Lab.network_env Lab.diamond) Lab.admin ""
              2%Z 10) as (_ & _ & _ & _ & _ & Hdetect & _).
  eapply (Hdetect "10.0.0.3" initial_world _ _ "timed out").
  - apply (bool_decide_unpack _). vm_compute. exact I.
  - reflexivity.
  - reflexivity.
  - reflexivity.
  - reflexivity.
Defined.

(** Against C7 as stated: on [Lab.diamond] the detector fails for 10.0.0.3.
    At level 1 the result of the worker of 10.0.0.2, which names 10.0.0.3,
    is collected before the worker of 10.0.0.3 has added its address; at
    the end of the level 10.0.0.3 is in the visited set, has no record,
    and is in the next frontier. *)
Lemma undetected_address_in_next_frontier :
  exists st,
    Lab.discover Lab.diamond "10.0.0.1" 2 Schedule.overtaken = Some st /\
    Lab.detect (Lab.diamond "10.0.0.3") = inl "timed out" /\
    level_done st /\
    "10.0.0.3" ∈ visited_global (world st) /\
    Forall (fun r => rec_ip r <> "10.0.0.3") (results_global (world st)) /\
    "10.0.0.3" ∈ next_frontier st.
Proof.
  destruct (Lab.discover Lab.diamond "10.0.0.1" 2 Schedule.overtaken)
    as [st|] eqn:Hrun; [|vm_compute in Hrun; discriminate].
  exists st. split; [reflexivity|]. split; [reflexivity|].
  assert (Hlevel : option_map (fun st : @Sched Lab.Session =>
                       match mode st with
                       | InPool _ futures _ => forallb yielded futures
                       | _ => false
                       end)
                     (Lab.discover Lab.diamond "10.0.0.1" 2 Schedule.overtaken)
                   = Some true) by (by vm_compute).
  assert (Hvis : option_map (fun st : @Sched Lab.Session =>
                     bool_decide ("10.0.0.3" ∈ visited_global (world st)))
                     (Lab.discover Lab.diamond "10.0.0.1" 2 Schedule.overtaken)
                   = Some true) by (by vm_compute).
  assert (Hrec : option_map (fun st : @Sched Lab.Session =>
                     bool_decide (Forall (fun r => rec_ip r <> "10.0.0.3")
                                    (results_global (world st))))
                     (Lab.discover Lab.diamond "10.0.0.1" 2 Schedule.overtaken)
                   = Some true) by (by vm_compute).
  assert (Hnext : option_map (fun st : @Sched Lab.Session =>
                     bool_decide ("10.0.0.3" ∈ next_frontier st))
                     (Lab.discover Lab.diamond "10.0.0.1" 2 Schedule.overtaken)
                   = Some true) by (by vm_compute).
  rewrite Hrun in Hlevel, Hvis, Hrec, Hnext.
  cbv [option_map] in Hlevel, Hvis, Hrec, Hnext.
  injection Hlevel as Hlevel. injection Hvis as Hvis.
  injection Hrec as Hrec. injection Hnext as Hnext.
  apply bool_decide_eq_true_1 in Hvis, Hrec, Hnext.
  clear Hrun. repeat split; try assumption.
  unfold level_done.
  destruct (mode st); first [exact Hlevel | discriminate Hlevel].
Qed.

(** ** The worker, path by path *)

Section WorkerPaths.

Context {sess : Type}.
Variable env : Env sess.

Lemma run_with_locals {L L' A} (l0 : L') (m : Py sess L' A) (l : L) w :
  run env (with_locals l0 m l) w =
  let '(w1, (_, r)) := run env (m l0) w in (w1, (l, r)).
Proof.
  unfold with_locals. rewrite run_tbind.
  destruct (run env (m l0) w) as [w1 [l1 r]]; reflexivity.
Qed.

(** The worker of an unvisited address whose platform is a key of
    [VENDOR_COMMANDS], from the connection on. *)
Lemma run_worker_to_connect ip creds templates_path w device_cred p dt commands :
  ip ∉ visited_global w ->
  get_device_cred ip creds = inr device_cred ->
  truth device_cred = true ->
  base_params ip device_cred = inr p ->
  SSHDetect env p = inr (Some dt) ->
  VENDOR_COMMANDS !! dt = Some commands ->
  run env (worker env ip creds templates_path) w =
  let w1 := add_log INFO ("Detected device type for " +:+ ip +:+ ": " +:+ dt)
              (add_call (CallDetect ip) (add_log INFO ("Discovering " +:+ ip) w)) in
  let '(w2, (_, r)) := run env (ssh_connect ip creds dt tt) w1 in
  match r with
  | inr (Some s) =>
      let w3 := add_call (CallPrompt ip) w2 in
      match find_prompt env s with
      | inl e => (w3, (tt, inl e))
      | inr prompt =>
          let w4 :=
            add_result {| rec_ip := ip; rec_device_type := dt;
                          rec_hostname :=
                            PyStr.strip (PyStr.strip_chars "#>" prompt) |}
              (add_visited ip w3) in
          let '(w5, (l5, r5)) :=
            run env (run_protocols env ip dt commands
                       {| net_connect := s; neighbor_ips := ∅ |}) w4 in
          match r5 with
          | inr _ => (w5, (tt, inr (neighbor_ips l5, [(ip, dt)])))
          | inl e => (w5, (tt, inl e))
          end
      end
  | inr None => (add_visited ip w2, (tt, inr (∅, [])))
  | inl e => (w2, (tt, inl e))
  end.
Proof.
  intros Hin Hg Ht Hp Hd Hv.
  assert (Hdt : negb (String.eqb dt "") = true).
  { destruct (String.eqb_spec dt "") as [-> | Hne]; [by vm_compute in Hv | done]. }
  unfold worker, discover_single. simpl.
  rewrite bool_decide_eq_false_2 by exact Hin. simpl.
  unfold detect_device_type. rewrite Hg. lift_step. rewrite Ht. simpl negb.
  cbv iota. rewrite Hp. lift_step. simpl. rewrite Hd. simpl.
  rewrite (base_params_host _ _ _ Hp), Hdt, Hv. simpl.
  unfold mbind, mret, Py_bind, Py_ret.
  etrans; [apply run_bind|].
  destruct (run env (ssh_connect ip creds dt ()) _) as [w2 [[] [e | [s|]]]];
    [reflexivity | | reflexivity].
  rewrite run_with_locals.
  rewrite run_bind. simpl.
  destruct (find_prompt env s) as [e | prompt]; [reflexivity|]. simpl.
  rewrite run_bind. simpl. rewrite run_bind. simpl. rewrite run_bind.
  destruct (run env (run_protocols env ip dt commands _) _) as [w5 [l5 [e | []]]];
    reflexivity.
Qed.

(** *** Code that leaves the two global objects alone *)

Lemma same_shared_refl w : same_shared w w.
Proof. by split. Qed.

Lemma same_shared_trans w1 w2 w3 :
  same_shared w1 w2 -> same_shared w2 w3 -> same_shared w1 w3.
Proof. intros [? ?] [? ?]. split; congruence. Qed.

Lemma quiet_do_instr {X} (i : instr sess X) w :
  quiet i -> same_shared w (fst (do_instr env i w)).
Proof.
  destruct i; simpl; try done.
  intros _. destruct (bool_decide _); by split.
Qed.

Lemma run_quiet {A} (t : Thread sess A) w :
  always env (@quiet sess) t -> same_shared w (fst (run env t w)).
Proof.
  revert w. induction t as [a | X i h IH]; intros w Ht; simpl.
  - apply same_shared_refl.
  - destruct Ht as [Hi Hh]. pose proof (quiet_do_instr i w Hi) as Hq.
    specialize (Hh w). destruct (do_instr env i w) as [w' x]. simpl in *.
    eapply same_shared_trans; [exact Hq | by apply IH].
Qed.

Lemma juniper_lldp_quiet ip l : always env (@quiet sess) (juniper_lldp env ip l).
Proof.
  unfold juniper_lldp. unfold mbind, mret, Py_bind, Py_ret.
  apply always_try_except.
  - apply always_bind; [intros l'; by apply always_session_send | intros out l'; exact I].
  - intros e. destruct (PyStr.contains _ _).
    + apply always_bind; [intros l'; by apply always_logging|]. intros _.
      apply always_try_except.
      * apply always_bind; [intros l'; by apply always_session_send|].
        intros summary. apply always_for_each. intros iface.
        apply always_bind;
          [intros l'; by apply always_session_send | intros out l'; exact I].
      * intros e' l'. by apply always_logging.
    + intros l'. by apply always_logging.
Qed.

Lemma run_protocols_quiet ip device_type commands l :
  always env (@quiet sess) (run_protocols env ip device_type commands l).
Proof.
  unfold run_protocols. unfold mbind, mret, Py_bind, Py_ret.
  revert l. apply always_for_each. intros proto l.
  destruct (negb _); [exact I|].
  destruct (_ && _); [apply juniper_lldp_quiet|].
  revert l. apply always_try_except.
  - apply always_bind; [intros l'; by apply always_session_send | intros out l'; exact I].
  - intros e l'. by apply always_logging.
Qed.

(** *** The neighbour set through the loop over the protocols *)

Lemma gains_refl (l : @Locals sess) : gains_addresses l l.
Proof. split; [done | by left]. Qed.

Lemma gains_trans (l1 l2 l3 : @Locals sess) :
  gains_addresses l1 l2 -> gains_addresses l2 l3 -> gains_addresses l1 l3.
Proof.
  intros [H1 H1'] [H2 H2']. split; [set_solver|].
  intros x Hx. destruct (H2' x Hx) as [Hx2 | ?]; [|by right]. by apply H1'.
Qed.

Section Keeps.

Context {L : Type} (R : L -> L -> Prop).
Hypothesis R_refl : forall l, R l l.
Hypothesis R_trans : forall l1 l2 l3, R l1 l2 -> R l2 l3 -> R l1 l3.

Lemma keeps_ret {A} (a : A) : keeps env R (ret a).
Proof. intros l l' r H. simpl in H. injection H as <- _. apply R_refl. Qed.

Lemma keeps_vis {X} (i : instr sess X) : keeps env R (vis i).
Proof. intros l l' r [w H]. simpl in H. injection H as <- _. apply R_refl. Qed.

Lemma keeps_bind {A B} (m : Py sess L A) (k : A -> Py sess L B) :
  keeps env R m -> (forall a, keeps env R (k a)) -> keeps env R (bind m k).
Proof.
  intros Hm Hk l l' r H. unfold bind in H.
  apply may_end_tbind in H as ([l1 [e1|a]] & H1 & H2).
  - simpl in H2. injection H2 as <- _. eapply Hm, H1.
  - eapply R_trans; [eapply Hm, H1 | eapply Hk, H2].
Qed.

Lemma keeps_try_except {A} (m : Py sess L A) (h : exn -> Py sess L A) :
  keeps env R m -> (forall e, keeps env R (h e)) -> keeps env R (try_except m h).
Proof.
  intros Hm Hh l l' r H. unfold try_except in H.
  apply may_end_tbind in H as ([l1 [e1|a]] & H1 & H2).
  - eapply R_trans; [eapply Hm, H1 | eapply Hh, H2].
  - simpl in H2. injection H2 as <- _. eapply Hm, H1.
Qed.

Lemma keeps_for_each {X} (xs : list X) (body : X -> Py sess L unit) :
  (forall x, keeps env R (body x)) -> keeps env R (for_each xs body).
Proof.
  intros Hb. induction xs as [|x xs IH]; simpl.
  - apply keeps_ret.
  - apply keeps_bind; [apply Hb | intros _; apply IH].
Qed.

End Keeps.

Lemma keeps_session_send host cmd :
  keeps env gains_addresses (session_send host cmd).
Proof.
  intros l l' r [w H]. simpl in H.
  destruct (send_command env (net_connect l) cmd) as [r0 s'].
  simpl in H. injection H as <- _. split; [done | by left].
Qed.

Lemma keeps_neighbor_ips_update ips :
  (forall x, x ∈ ips -> dotted_quad x) ->
  keeps env gains_addresses (@neighbor_ips_update sess ips).
Proof.
  intros Hips l l' r H. simpl in H. injection H as <- _.
  split; simpl; [set_solver|].
  intros x [Hx | Hx]%elem_of_union; [by left | right; by apply Hips].
Qed.

Lemma extracted_dotted_quad output x :
  x ∈ extract_all_ips output -> dotted_quad x.
Proof.
  intros Hx. unfold extract_all_ips in Hx. apply elem_of_list_to_set in Hx.
  apply elem_of_findall in Hx as (pre & post & Ht & Hm).
  apply ipv4_pattern_shape in Hm. by rewrite text_chars in Hm.
Qed.

End WorkerPaths.

Section Neighbours.

Context {sess : Type}.
Variable env : Env sess.

Lemma juniper_lldp_gains ip : keeps env gains_addresses (juniper_lldp env ip).
Proof.
  unfold juniper_lldp. unfold mbind, mret, Py_bind, Py_ret.
  apply keeps_try_except; try apply gains_refl; try apply gains_trans.
  - apply keeps_bind; try apply gains_refl; try apply gains_trans;
      [apply keeps_session_send|].
    intros output. apply keeps_neighbor_ips_update.
    intros x. apply extracted_dotted_quad.
  - intros e. destruct (PyStr.contains _ _).
    + apply keeps_bind; try apply gains_refl; try apply gains_trans;
        [apply keeps_vis, gains_refl|].
      intros _. apply keeps_try_except; try apply gains_refl; try apply gains_trans.
      * apply keeps_bind; try apply gains_refl; try apply gains_trans;
          [apply keeps_session_send|].
        intros summary. apply keeps_for_each; try apply gains_refl;
          try apply gains_trans.
        intros iface. apply keeps_bind; try apply gains_refl; try apply gains_trans;
          [apply keeps_session_send|].
        intros output. apply keeps_neighbor_ips_update.
        intros x. apply extracted_dotted_quad.
      * intros e'. apply keeps_vis, gains_refl.
    + apply keeps_vis, gains_refl.
Qed.

Lemma run_protocols_gains ip device_type commands :
  keeps env gains_addresses (run_protocols env ip device_type commands).
Proof.
  unfold run_protocols. unfold mbind, mret, Py_bind, Py_ret.
  apply keeps_for_each; try apply gains_refl; try apply gains_trans.
  intros proto. destruct (negb _); [apply keeps_ret, gains_refl|].
  destruct (_ && _); [apply juniper_lldp_gains|].
  apply keeps_try_except; try apply gains_refl; try apply gains_trans.
  - apply keeps_bind; try apply gains_refl; try apply gains_trans;
      [apply keeps_session_send|].
    intros output. apply keeps_neighbor_ips_update.
    intros x. apply extracted_dotted_quad.
  - intros e. apply keeps_vis, gains_refl.
Qed.

Lemma run_protocols_returns ip device_type commands l w :
  snd (snd (run env (run_protocols env ip device_type commands l) w)) = inr tt.
Proof.
  pose proof (run_may_end env (run_protocols env ip device_type commands l) w) as H.
  destruct (run env _ w) as [w' [l' [e | []]]]; [|reflexivity].
  by destruct (run_protocols_never_raises env ip device_type commands _ _ _ H).
Qed.

End Neighbours.

(** The loop over the protocols never raises and leaves the visited set
    and the results alone.  The neighbour set it ends with contains the
    one it started with, and every address it has gained has the shape of
    an IPv4 address: four groups of one to three digits separated by
    dots. *)
Theorem run_protocols_outcome {sess} (env : Env sess) (ip : Address)
    (device_type : string) (commands : gmap string (option string))
    (l : @Locals sess) (w : World) :
  let r := run env (run_protocols env ip device_type commands l) w in
  snd (snd r) = inr tt /\
  same_shared w (fst r) /\
  neighbor_ips l ⊆ neighbor_ips (fst (snd r)) /\
  (forall x, x ∈ neighbor_ips (fst (snd r)) ->
             x ∈ neighbor_ips l \/ dotted_quad x).
Proof.
  intros r. subst r.
  split; [apply run_protocols_returns|].
  split; [apply run_quiet, run_protocols_quiet|].
  pose proof (run_may_end env (run_protocols env ip device_type commands l) w) as H.
  destruct (run env _ w) as [w' [l' r]]. simpl.
  exact (run_protocols_gains env ip device_type commands l l' r H).
Qed.

(** [ssh_connect] leaves the visited set and the results alone.  An
    exception leaves it exactly when a look-up of lines 80 or 85-101
    raises, and then nothing has been logged and no outside call made.
    Without credentials for the address ([not device_cred]), or with an
    [auth_method] that is equal to neither [password] nor [ssh_key], it
    makes no outside call, logs an error and returns [None].  Otherwise
    it calls [ConnectHandler] once and, when the secret is true, [enable];
    it returns the session when both succeed and [None] when either
    raises: a session on which [enable] raises is dropped. *)
Theorem ssh_connect_outcome {sess} (env : Env sess) {L : Type} (ip : Address)
    (creds : Creds) (device_type : string) (l : L) (w : World) :
  let r := run env (ssh_connect ip creds device_type l) w in
  same_shared w (fst r) /\
  fst (snd r) = l /\
  (forall e,
      snd (snd r) = inl e <->
      get_device_cred ip creds = inl e \/
      exists c, get_device_cred ip creds = inr c /\ truth c = true /\
                device_params ip c device_type = inl e) /\
  (forall e, snd (snd r) = inl e -> fst r = w) /\
  (forall c,
      get_device_cred ip creds = inr c -> truth c = false ->
      r = (add_log ERROR ("No credentials found for device " +:+ ip) w,
           (l, inr None))) /\
  (forall c auth_method,
      get_device_cred ip creds = inr c -> truth c = true ->
      device_params ip c device_type = inr (auth_method, None) ->
      get c "auth_method" (VStr "password") = inr auth_method /\
      eq_str auth_method "password" = false /\
      eq_str auth_method "ssh_key" = false /\
      r = (add_log ERROR ("Unknown auth_method '" +:+ py_str auth_method
                          +:+ "' for " +:+ ip) w, (l, inr None))) /\
  (forall c auth_method p,
      get_device_cred ip creds = inr c -> truth c = true ->
      device_params ip c device_type = inr (auth_method, Some p) ->
      dp_host p = ip /\ dp_device_type p = device_type /\
      get c "secret" (VStr "") = inr (dp_secret p) /\
      calls (fst r) = calls w ++ fst (connection env p) /\
      (exists rcd, log (fst r) = log w ++ [rcd]) /\
      snd (snd r) = inr (match snd (connection env p) with
                         | inr s => Some s
                         | inl _ => None
                         end)) /\
  (forall c auth_method p s e,
      get_device_cred ip creds = inr c -> truth c = true ->
      device_params ip c device_type = inr (auth_method, Some p) ->
      ConnectHandler env p = inr s -> truth (dp_secret p) = true ->
      enable env s = inl e ->
      snd (snd r) = inr None /\
      calls (fst r) = calls w ++ [CallConnect ip device_type; CallEnable ip]).
Proof.
  intros r.
  assert (Hr : r = run env (ssh_connect ip creds device_type l) w) by reflexivity.
  clearbody r. rewrite run_ssh_connect in Hr.
  assert (Hparams : forall c a p,
             device_params ip c device_type = inr (a, Some p) ->
             get c "secret" (VStr "") = inr (dp_secret p)).
  { intros c a p. unfold device_params.
    destruct (get c "username" _); [discriminate|].
    destruct (get c "optional_args" _) as [|oa]; [discriminate|].
    destruct (get oa "port" _); [discriminate|].
    destruct (get c "secret" _); [discriminate|].
    destruct (get c "auth_method" _) as [|am]; [discriminate|].
    destruct (eq_str am "password").
    - destruct (get c "password" _); [discriminate|]. by intros [= _ <-].
    - destruct (eq_str am "ssh_key"); [|discriminate].
      destruct (get c "ssh_key_file" _); [discriminate|]. by intros [= _ <-]. }
  assert (Hauth : forall c a,
             device_params ip c device_type = inr (a, None) ->
             get c "auth_method" (VStr "password") = inr a /\
             eq_str a "password" = false /\ eq_str a "ssh_key" = false).
  { intros c a. unfold device_params.
    destruct (get c "username" _); [discriminate|].
    destruct (get c "optional_args" _) as [|oa]; [discriminate|].
    destruct (get oa "port" _); [discriminate|].
    destruct (get c "secret" _); [discriminate|].
    destruct (get c "auth_method" _) as [|am]; [discriminate|].
    destruct (eq_str am "password") eqn:H1.
    - destruct (get c "password" _); discriminate.
    - destruct (eq_str am "ssh_key") eqn:H2.
      + destruct (get c "ssh_key_file" _); discriminate.
      + by intros [= <-]. }
  destruct (get_device_cred ip creds) as [e0 | c] eqn:Hg.
  { subst r. simpl. split; [by split|]. split; [reflexivity|].
    split; [intros e; split; [intros [= ->]; by left
                             | intros [[= ->] | (c & Hc & _)]; [done | discriminate Hc]]|].
    repeat split; try done; intros; discriminate. }
  destruct (truth c) eqn:Ht.
  2:{ subst r. simpl. split; [by split|]. split; [reflexivity|].
      split; [intros e; split; [discriminate
                               | intros [Hf | (c' & [= <-] & Ht' & _)]; congruence]|].
      split; [discriminate|]. split; [by intros c' [= <-] _|].
      repeat split; intros; simplify_eq; congruence. }
  destruct (device_params ip c device_type) as [e0 | [a [p|]]] eqn:Hp.
  - subst r. simpl. split; [by split|]. split; [reflexivity|].
    split; [intros e; split; [intros [= ->]; right; by exists c
                             | intros [Hf | (c' & [= <-] & _ & Hp')]; congruence]|].
    split; [done|]. split; [intros c' [= <-] Ht'; congruence|].
    repeat split; intros; simplify_eq; congruence.
  - destruct (device_params_host _ _ _ _ _ Hp) as [Hhost Hdt].
    assert (Hcalls : forall w', calls (add_calls (fst (connection env p)) w')
                                = calls w' ++ fst (connection env p))
      by reflexivity.
    cbv zeta in Hr.
    destruct (snd (connection env p)) as [e | s] eqn:Hconn; subst r; simpl;
      (split; [by split|]); (split; [reflexivity|]);
      (split; [intros e'; split; [discriminate
                                 | intros [Hf | (c' & [= <-] & _ & Hp')]; congruence]|]);
      (split; [discriminate|]); (split; [intros c' [= <-] Ht'; congruence|]);
      (split; [intros c' a' [= <-] _ Hp'; congruence|]).
    + split.
      * intros c' a' p' [= <-] _ Hp'. rewrite Hp in Hp'. injection Hp' as <- <-.
        rewrite Hconn. repeat split; try done; [by eapply Hparams | by eexists].
      * intros c' a' p' s e' [= <-] _ Hp' Hs Htr He.
        rewrite Hp in Hp'. injection Hp' as <- <-. split; [reflexivity|].
        unfold connection. rewrite Hs, Htr, Hhost, Hdt. reflexivity.
    + split.
      * intros c' a' p' [= <-] _ Hp'. rewrite Hp in Hp'. injection Hp' as <- <-.
        rewrite Hconn. repeat split; try done; [by eapply Hparams | by eexists].
      * intros c' a' p' s' e' [= <-] _ Hp' Hs Htr He. exfalso.
        rewrite Hp in Hp'. injection Hp' as <- <-.
        unfold connection in Hconn. rewrite Hs, Htr in Hconn. simpl in Hconn.
        congruence.
  - destruct (Hauth c a Hp) as (Ha & H1 & H2).
    subst r. simpl. split; [by split|]. split; [reflexivity|].
    split; [intros e; split; [discriminate
                             | intros [Hf | (c' & [= <-] & _ & Hp')]; congruence]|].
    split; [discriminate|]. split; [intros c' [= <-] Ht'; congruence|].
    split; [intros c' a' [= <-] _ Hp'; rewrite Hp in Hp'; by injection Hp' as <-|].
    split; intros; simplify_eq; congruence.
Qed.

(** [detect_device_type] leaves the visited set and the results alone.
    The credentials of an address are its entry under [devices] when
    there is one, even a null one, and the default entry otherwise.  An
    exception leaves the function exactly when a look-up of lines 117 or
    122-129 raises, and then nothing has been logged and the detector has
    not been called.  Without credentials ([not device_cred]) the
    detector is not called and the answer is [None].  With credentials
    the detector is called once, for this address; the answer is the
    detector's, and [None] when it raises. *)
Theorem detect_device_type_outcome {sess} (env : Env sess) {L : Type}
    (ip : Address) (creds : Creds) (l : L) (w : World) :
  let r := run env (detect_device_type ip creds l) w in
  same_shared w (fst r) /\
  fst (snd r) = l /\
  (forall items other shown entries other' shown' entry,
      creds = VDict items other shown ->
      lookup_key "devices" items = Some (VDict entries other' shown') ->
      lookup_key ip entries = Some entry ->
      get_device_cred ip creds = inr entry) /\
  (forall items other shown entries other' shown',
      creds = VDict items other shown ->
      lookup_key "devices" items = Some (VDict entries other' shown') ->
      lookup_key ip entries = None ->
      get_device_cred ip creds
      = inr (default empty_dict (lookup_key "default" items))) /\
  (forall e, snd (snd r) = inl e <-> lookup_raises ip creds e) /\
  (forall e, snd (snd r) = inl e -> fst r = w) /\
  (forall c,
      get_device_cred ip creds = inr c -> truth c = false ->
      r = (add_log ERROR ("No credentials found for device " +:+ ip) w,
           (l, inr None))) /\
  (forall c p,
      get_device_cred ip creds = inr c -> truth c = true ->
      base_params ip c = inr p ->
      bp_host p = ip /\
      calls (fst r) = calls w ++ [CallDetect ip] /\
      (exists rcd, log (fst r) = log w ++ [rcd]) /\
      snd (snd r) = inr (match SSHDetect env p with
                         | inr best_match => best_match
                         | inl _ => None
                         end)).
Proof.
  intros r.
  assert (Hr : r = run env (detect_device_type ip creds l) w) by reflexivity.
  clearbody r. rewrite run_detect_device_type in Hr.
  assert (H1 : forall items other shown entries other' shown' entry,
             creds = VDict items other shown ->
             lookup_key "devices" items = Some (VDict entries other' shown') ->
             lookup_key ip entries = Some entry ->
             get_device_cred ip creds = inr entry).
  { intros items other shown entries other' shown' entry -> Hd He.
    unfold get_device_cred. simpl. rewrite Hd. simpl. by rewrite He. }
  assert (H2 : forall items other shown entries other' shown',
             creds = VDict items other shown ->
             lookup_key "devices" items = Some (VDict entries other' shown') ->
             lookup_key ip entries = None ->
             get_device_cred ip creds
             = inr (default empty_dict (lookup_key "default" items))).
  { intros items other shown entries other' shown' -> Hd He.
    unfold get_device_cred. simpl. rewrite Hd. simpl. by rewrite He. }
  split; [|split; [|split; [exact H1 | split; [exact H2|]]]].
  - destruct (get_device_cred ip creds) as [e0 | c]; [by subst r|].
    destruct (truth c); [|by subst r].
    destruct (base_params ip c) as [e0 | p]; [by subst r|].
    cbv zeta in Hr. destruct (SSHDetect env p); by subst r.
  - destruct (get_device_cred ip creds) as [e0 | c]; [by subst r|].
    destruct (truth c); [|by subst r].
    destruct (base_params ip c) as [e0 | p]; [by subst r|].
    cbv zeta in Hr. destruct (SSHDetect env p); by subst r.
  - clear H1 H2. unfold lookup_raises.
    destruct (get_device_cred ip creds) as [e0 | c] eqn:Hg.
    { subst r. simpl.
      split; [intros e; split; [intros [= ->]; by left
                               | intros [[= ->] | (c & Hc & _)]; [done | discriminate Hc]]|].
      repeat split; try done; intros; discriminate. }
    destruct (truth c) eqn:Ht.
    2:{ subst r. simpl.
        split; [intros e; split; [discriminate
                                 | intros [Hf | (c' & [= <-] & Ht' & _)]; congruence]|].
        split; [discriminate|]. split; [by intros c' [= <-] _|].
        intros c' p [= <-] Ht'. congruence. }
    destruct (base_params ip c) as [e0 | p] eqn:Hp.
    { subst r. simpl.
      split; [intros e; split; [intros [= ->]; right; by exists c
                               | intros [Hf | (c' & [= <-] & _ & Hp')]; congruence]|].
      split; [done|]. split; [intros c' [= <-] Ht'; congruence|].
      intros c' p [= <-] _ Hp'. congruence. }
    cbv zeta in Hr.
    destruct (SSHDetect env p) as [e | best] eqn:Hd; subst r; simpl;
      (split; [intros e'; split; [discriminate
                                 | intros [Hf | (c' & [= <-] & _ & Hp')]; congruence]|]);
      (split; [discriminate|]); (split; [intros c' [= <-] Ht'; congruence|]);
      intros c' p' [= <-] _ Hp'; rewrite Hp in Hp'; injection Hp' as <-;
      rewrite Hd;
      (split; [by eapply base_params_host|]); (split; [reflexivity|]);
      (split; [by eexists | reflexivity]).
Qed.

(** An unvisited address whose credentials are found and whose platform,
    as the detector names it, is a key of [VENDOR_COMMANDS]: the look-ups
    of [ssh_connect] then return too.  When no connection is made (unknown
    [auth_method], or [ConnectHandler] or [enable] raises) the worker adds
    the address to the visited set and returns no neighbour and no record.
    When [find_prompt] raises on the session, the exception leaves
    [discover_single]: the address is not added to the visited set and no
    record is appended.  Otherwise the address is added, one record is
    appended with the platform and, as hostname, the prompt stripped of
    [#], [>] and then of white space at both ends; the worker returns the
    addresses the commands' outputs held, each of the shape of an IPv4
    address, and the pair of the address and the platform. *)
Theorem discover_single_supported {sess} (env : Env sess) (ip : Address)
    (creds : Creds) (templates_path : string) (w : World) (dt : string)
    (commands : gmap string (option string)) (c : Value) (base : BaseParams) :
  ip ∉ visited_global w ->
  get_device_cred ip creds = inr c ->
  truth c = true ->
  base_params ip c = inr base ->
  SSHDetect env base = inr (Some dt) ->
  VENDOR_COMMANDS !! dt = Some commands ->
  let r := run env (discover_single env ip creds templates_path tt) w in
  ((exists auth_method, device_params ip c dt = inr (auth_method, None)) \/
   (exists auth_method p e,
       device_params ip c dt = inr (auth_method, Some p) /\
       snd (connection env p) = inl e) ->
   snd r = (tt, inr (∅, [])) /\
   visited_global (fst r) = visited_global w ∪ {[ ip ]} /\
   results_global (fst r) = results_global w) /\
  (forall auth_method p s e,
      device_params ip c dt = inr (auth_method, Some p) ->
      snd (connection env p) = inr s ->
      find_prompt env s = inl e ->
      snd r = (tt, inl e) /\
      visited_global (fst r) = visited_global w /\
      results_global (fst r) = results_global w) /\
  (forall auth_method p s prompt,
      device_params ip c dt = inr (auth_method, Some p) ->
      snd (connection env p) = inr s ->
      find_prompt env s = inr prompt ->
      visited_global (fst r) = visited_global w ∪ {[ ip ]} /\
      results_global (fst r) =
        results_global w ++
        [{| rec_ip := ip; rec_device_type := dt;
            rec_hostname := PyStr.strip (PyStr.strip_chars "#>" prompt) |}] /\
      exists neighbor_ips,
        snd r = (tt, inr (neighbor_ips, [(ip, dt)])) /\
        forall x, x ∈ neighbor_ips -> dotted_quad x) /\
  (exists auth_method chosen, device_params ip c dt = inr (auth_method, chosen)).
Proof.
  intros Hin Hg Ht Hb Hd Hv r.
  assert (Hr : r = run env (worker env ip creds templates_path) w) by reflexivity.
  clearbody r.
  rewrite (run_worker_to_connect env ip creds templates_path w c base dt commands
             Hin Hg Ht Hb Hd Hv) in Hr.
  cbv zeta in Hr. rewrite run_ssh_connect, Hg, Ht in Hr.
  destruct (device_params ip c dt) as [e0 | [a [p|]]] eqn:Hp.
  - apply device_params_raises in Hp. congruence.
  - cbv zeta in Hr. destruct (snd (connection env p)) as [e | s] eqn:Hconn.
    + subst r. simpl. split; [intros _; by repeat split|].
      split; [intros a' p' s' e' [= _ <-] Hs; congruence|].
      split; [intros a' p' s' prompt [= _ <-] Hs; congruence | by eexists _, _].
    + split.
      { intros [[a' Hf] | (a' & p' & e & [= _ <-] & Hf)];
          [discriminate Hf | congruence]. }
      split; [|split; [|by eexists _, _]].
      * intros a' p' s' e [= _ <-] Hs He. rewrite Hconn in Hs. injection Hs as <-.
        rewrite He in Hr. subst r.
        by repeat split.
      * intros a' p' s' prompt [= _ <-] Hs Hpr. rewrite Hconn in Hs.
        injection Hs as <-. rewrite Hpr in Hr.
        match type of Hr with
        | context [run env (run_protocols env ip dt commands ?l0) ?w0] =>
            pose proof (run_protocols_returns env ip dt commands l0 w0) as Hret;
            pose proof (run_quiet env (run_protocols env ip dt commands l0) w0
                          (run_protocols_quiet env ip dt commands l0)) as [Hv5 Hr5];
            pose proof (run_may_end env (run_protocols env ip dt commands l0) w0)
              as Hend;
            destruct (run env (run_protocols env ip dt commands l0) w0)
              as [w5 [l5 r5]]
        end.
        simpl in Hret, Hv5, Hr5. subst r5.
        apply run_protocols_gains in Hend as [_ Hshape]. subst r. simpl.
        split; [by rewrite Hv5|]. split; [by rewrite Hr5|].
        exists (neighbor_ips l5). split; [reflexivity|].
        intros x Hx. destruct (Hshape x Hx) as [Hx0 | ?]; [|done].
        by apply not_elem_of_empty in Hx0.
  - subst r. simpl. split; [intros _; by repeat split|].
    split; [intros a' p s e Hf; discriminate Hf|].
    split; [intros a' p s prompt Hf; discriminate Hf | by eexists _, _].
Qed.

Lemma discover_single_supported_sw1 :
  exists neighbor_ips,
    snd (run (Lab.network_env Lab.two_neighbours)
           (discover_single (Lab.network_env Lab.two_neighbours)
              "10.0.0.1" Lab.admin "" tt) initial_world)
    = (tt, inr (neighbor_ips, [("10.0.0.1", "cisco_ios")])) /\
    forall x, x ∈ neighbor_ips -> dotted_quad x.
Proof.
  assert (Hin : "10.0.0.1" ∉ visited_global initial_world)
    by (apply (bool_decide_unpack _); vm_compute; exact I).
  assert (Hv : is_Some (VENDOR_COMMANDS !! "cisco_ios"))
    by (apply (bool_decide_unpack _); vm_compute; exact I).
  destruct Hv as [commands Hv].
  destruct (discover_single_supported (Lab.network_env Lab.two_neighbours)
              "10.0.0.1" Lab.admin "" initial_world "cisco_ios" commands _ _
              Hin eq_refl eq_refl eq_refl eq_refl Hv) as (_ & _ & Hok & _).
  destruct (Hok _ _ ("10.0.0.1", 0) "sw1#" eq_refl eq_refl eq_refl)
    as (_ & _ & Hret).
  exact Hret.
Defined.

(** ** The records of a run *)

Section Records.

Context {sess : Type}.
Variable env : Env sess.
Variables (creds : Creds) (templates_path : string).
Variables (max_depth : Z) (max_workers : nat).

Local Abbreviation step' := (step env creds templates_path max_depth max_workers).
Local Abbreviation exec' := (exec env creds templates_path max_depth max_workers).

Lemma adds_then_appends_tbind_quiet ip {A B} (t : Thread sess A)
    (k : A -> Thread sess B) :
  always env (@quiet sess) t ->
  (forall a, adds_then_appends env ip (k a)) ->
  adds_then_appends env ip (tbind t k).
Proof.
  induction t as [a | X i h IH]; intros Ht Hk; [apply Hk|].
  destruct Ht as [Hi Hh].
  assert (Hrec : forall w, adds_then_appends env ip
                             (tbind (h (snd (do_instr env i w))) k)).
  { intros w. apply IH; [apply Hh | exact Hk]. }
  destruct i; simpl in *; done.
Qed.

Lemma adds_then_appends_bind ip {L A B} (m : Py sess L A) (k : A -> Py sess L B) l :
  always env (@quiet sess) (m l) ->
  (forall a l', adds_then_appends env ip (k a l')) ->
  adds_then_appends env ip (bind m k l).
Proof.
  intros Hm Hk. unfold bind. apply adds_then_appends_tbind_quiet; [done|].
  intros [l' [e|a]]; [exact I | apply Hk].
Qed.

Lemma quiet_appends_own ip {A} (t : Thread sess A) :
  always env (@quiet sess) t -> appends_own env ip t.
Proof.
  induction t as [b | X i h IH]; intros Ht; [exact I|].
  destruct Ht as [Hi Hh].
  destruct i; simpl in *; try done; intros w; apply IH; exact (Hh w).
Qed.

Lemma quiet_adds_then_appends ip {A} (t : Thread sess A) :
  always env (@quiet sess) t -> adds_then_appends env ip t.
Proof.
  induction t as [b | X i h IH]; intros Ht; [exact I|].
  destruct Ht as [Hi Hh].
  destruct i; simpl in *; try done; intros w; apply IH; exact (Hh w).
Qed.

Lemma appends_own_tbind ip {A B} (t : Thread sess A) (k : A -> Thread sess B) :
  appends_own env ip t ->
  (forall a, always env (@quiet sess) (k a)) ->
  appends_own env ip (tbind t k).
Proof.
  induction t as [a | X i h IH]; intros Ht Hk.
  - simpl. apply quiet_appends_own, Hk.
  - destruct i; simpl in *;
      try (intros w; apply IH; [exact (Ht w) | exact Hk]); try done.
    destruct Ht as (Hip & Hsup & Hq). repeat split; try done.
    by apply always_tbind.
Qed.

Lemma adds_then_appends_tbind_left ip {A B} (t : Thread sess A)
    (k : A -> Thread sess B) :
  adds_then_appends env ip t ->
  (forall a, always env (@quiet sess) (k a)) ->
  adds_then_appends env ip (tbind t k).
Proof.
  induction t as [a | X i h IH]; intros Ht Hk.
  - simpl. apply quiet_adds_then_appends, Hk.
  - destruct i; simpl in *;
      try (intros w; apply IH; [exact (Ht w) | exact Hk]); try done.
    destruct Ht as [-> Hown]. split; [done|]. by apply appends_own_tbind.
Qed.

Lemma adds_then_appends_with_locals ip {L L' A} (l0 : L') (m : Py sess L' A) (l : L) :
  adds_then_appends env ip (m l0) -> adds_then_appends env ip (with_locals l0 m l).
Proof.
  intros Hm. unfold with_locals. apply adds_then_appends_tbind_left; [done|].
  by intros [l' r].
Qed.

(** A fresh worker tests first; what it appends, it appends after it has
    added its address. *)
Lemma worker_tests_first ip :
  tests_first env ip (worker env ip creds templates_path).
Proof.
  unfold worker, discover_single.
  unfold mbind at 1, Py_bind at 1.
  change (bind (vis (SeenUnderLock ip)) ?K tt)
    with (Vis (SeenUnderLock ip) (fun x => K x tt)).
  cbv beta. unfold tests_first. split; [reflexivity|]. split; [exact I|].
  cbv iota. unfold mbind at 1, Py_bind at 1.
  change (bind (logging INFO ?m) ?K tt)
    with (Vis (Log INFO m) (fun x : unit => K x tt)).
  simpl adds_then_appends. intros _. cbv beta.
  unfold mbind, mret, Py_bind, Py_ret.
  apply adds_then_appends_bind; [apply detect_device_type_quiet|].
  intros device_type l.
  destruct (negb (truthy device_type)
            || negb (bool_decide (is_Some (VENDOR_COMMANDS !! fmt device_type))))
    eqn:Hsupported.
  - apply adds_then_appends_bind; [by apply always_logging|].
    intros _ l'. simpl. by split.
  - apply orb_false_elim in Hsupported as [_ Hsup].
    apply negb_false_iff, bool_decide_eq_true_1 in Hsup.
    apply adds_then_appends_bind; [apply ssh_connect_quiet|].
    intros [nc|] l'; [|simpl; by split].
    apply adds_then_appends_with_locals.
    apply adds_then_appends_bind; [by apply always_session_prompt|].
    intros prompt l2. simpl. split; [reflexivity|].
    split; [reflexivity|]. split; [exact Hsup|].
    apply always_tbind.
    + by destruct (VENDOR_COMMANDS !! fmt device_type).
    + intros [l3 [e | commands]]; [exact I|].
      apply always_bind; [intros l4; exact I|]. intros _.
      apply always_bind; [intros l4; apply run_protocols_quiet|]. intros _.
      apply always_bind; [intros l4; exact I|]. intros nbrs l4. exact I.
Qed.

Lemma records_ok_same_shared w w' :
  same_shared w w' -> records_ok w -> records_ok w'.
Proof.
  intros [Hv Hr] [Hnd Hrec]. unfold records_ok, recorded in *.
  rewrite Hr, Hv. by split.
Qed.

Lemma other_do_instr {X} (i : instr sess X) w :
  match i with VisitedAdd _ | ResultsAppend _ => False | _ => True end ->
  same_shared w (fst (do_instr env i w)).
Proof.
  destruct i; simpl; try done.
  intros _. destruct (bool_decide _); by split.
Qed.

Lemma record_phase_frame ip w w' (t : Thread sess Outcome) :
  record_phase env ip w t ->
  visited_global w ⊆ visited_global w' ->
  (ip ∈ recorded w' -> ip ∈ recorded w) ->
  record_phase env ip w' t.
Proof.
  intros [H | [[H Hn] | [(H & Hv & Hn) | H]]] Hsub Hback.
  - by left.
  - right; left. split; [done | tauto].
  - right; right; left. split; [done|]. split; [by apply Hsub | tauto].
  - by right; right; right.
Qed.

(** One instruction of the worker of [ip]. *)
Lemma record_phase_step ip w {X} (ins : instr sess X)
    (k : X -> Thread sess Outcome) :
  records_ok w ->
  record_phase env ip w (Vis ins k) ->
  records_ok (fst (do_instr env ins w))
  /\ record_phase env ip (fst (do_instr env ins w)) (k (snd (do_instr env ins w)))
  /\ visited_global w ⊆ visited_global (fst (do_instr env ins w))
  /\ (forall ip', ip' <> ip ->
        ip' ∈ recorded (fst (do_instr env ins w)) -> ip' ∈ recorded w).
Proof.
  intros Hok [H | [[H Hn] | [(H & Hv & Hn) | H]]].
  - (* before the test *)
    destruct ins; try done. simpl in H. destruct H as (-> & Hseen & Hrest).
    simpl. case_bool_decide as Hin; simpl.
    + split; [by eapply records_ok_same_shared|].
      split; [|done]. right; right; right. by destruct (k true).
    + split; [done|]. split; [|done]. right; left. split; [done|].
      intros (r & Hr & Hrin)%list_elem_of_fmap.
      destruct Hok as [_ Hrec]. destruct (Hrec r Hrin) as [Hvis _].
      by rewrite <- Hr in Hvis.
  - (* before the add *)
    destruct ins; simpl in H;
      try (match goal with |- context [do_instr env ?i w] =>
             pose proof (other_do_instr i w I) as Hsame end;
           split; [by eapply records_ok_same_shared|];
           destruct Hsame as [Hsv Hsr];
           split; [right; left; split; [exact (H w) |
                     unfold recorded; by rewrite Hsr]|];
           split; [by rewrite Hsv|];
           intros ip' _; unfold recorded; by rewrite Hsr); try done.
    destruct H as [-> Hown]. simpl.
    split.
    { destruct Hok as [Hnd Hrec]. split; [done|]. intros r Hr.
      destruct (Hrec r Hr) as [? ?]. split; [set_solver | done]. }
    split; [right; right; left; split; [done|]; split; [set_solver | done]|].
    split; [set_solver | done].
  - (* between the add and the record *)
    destruct ins; simpl in H;
      try (match goal with |- context [do_instr env ?i w] =>
             pose proof (other_do_instr i w I) as Hsame end;
           split; [by eapply records_ok_same_shared|];
           destruct Hsame as [Hsv Hsr];
           split; [right; right; left; split; [exact (H w)|];
                   split; [by rewrite Hsv | unfold recorded; by rewrite Hsr]|];
           split; [by rewrite Hsv|];
           intros ip' _; unfold recorded; by rewrite Hsr); try done.
    destruct H as (Hip & Hsup & Hq). simpl.
    destruct Hok as [Hnd Hrec].
    split.
    { split.
      - unfold recorded. simpl. rewrite fmap_app. simpl.
        apply NoDup_app. split; [exact Hnd|]. split; [|apply NoDup_singleton].
        intros x Hx Hx'. apply list_elem_of_singleton in Hx'. subst x.
        rewrite Hip in Hx. by apply Hn.
      - intros r' [Hr' | Hr']%elem_of_app.
        + by apply Hrec.
        + apply list_elem_of_singleton in Hr'. subst r'. simpl.
          rewrite Hip. by split. }
    split; [by right; right; right|]. split; [done|].
    intros ip' Hne. unfold recorded. simpl. rewrite fmap_app. simpl.
    intros [? | Hx]%elem_of_app; [done|].
    apply list_elem_of_singleton in Hx. congruence.
  - (* after the record *)
    simpl in H. destruct H as [Hq Hk].
    pose proof (quiet_do_instr env ins w Hq) as Hsame.
    split; [by eapply records_ok_same_shared|].
    destruct Hsame as [Hsv Hsr].
    split; [right; right; right; exact (Hk w)|].
    split; [by rewrite Hsv|].
    intros ip' _. unfold recorded. by rewrite Hsr.
Qed.

Lemma step_records_inv a (st st' : @Sched sess) :
  records_inv env st -> step' a st = Some st' -> records_inv env st'.
Proof.
  intros [Hok Hmode] Hstep. apply step_Stepped in Hstep.
  destruct Hstep as
    [ tv Hm Htest Hw | tv Hm Htest Hw | tv Hm Htest | tv futs next Hm Hall
    | i tv futs next f X ins k Hm Hi Htask
    | i tv futs next f u nb rs Hm Hi Htask Hy
    | i tv futs next f u e Hm Hi Htask Hy ];
    rewrite Hm in Hmode; unfold records_inv; simpl.
  - split; [eapply records_ok_same_shared; [|exact Hok]; by split|].
    split; [by rewrite length_fmap|].
    intros i ip f Hip Hf. rewrite list_lookup_fmap, Hip in Hf.
    injection Hf as <-. left. apply worker_tests_first.
  - split; [|done]. eapply records_ok_same_shared; [|exact Hok]. by split.
  - done.
  - done.
  - destruct Hmode as [Hlen Hphase].
    destruct (lookup_lt_is_Some_2 (elements tv) i) as [ip0 Hip0].
    { rewrite <- Hlen. by eapply lookup_lt_Some. }
    assert (forall j, elements tv !! j = Some ip0 -> j = i) as Huniq.
    { intros j Hj. eapply NoDup_lookup; eauto. apply NoDup_elements. }
    pose proof (Hphase i ip0 f Hip0 Hi) as Hph. rewrite Htask in Hph.
    destruct (record_phase_step ip0 (world st) ins k Hok Hph)
      as (Hok' & Hph' & Hsub & Hother).
    split; [exact Hok'|]. split; [by rewrite length_insert|].
    intros j ip g Hip Hg.
    apply list_lookup_insert_Some in Hg as [(Hij & <- & _) | [Hne Hg]]; [subst j|].
    + simpl. rewrite Hip0 in Hip. by injection Hip as <-.
    + assert (ip <> ip0) as Hne'. { intros ->. by apply Huniq in Hip. }
      eapply record_phase_frame; [by eapply Hphase | exact Hsub |].
      by apply Hother.
  - destruct Hmode as [Hlen Hphase].
    split; [exact Hok|]. split; [by rewrite length_insert|].
    intros j ip g Hip Hg.
    apply list_lookup_insert_Some in Hg as [(Hij & <- & _) | [Hne Hg]];
      [subst j|]; simpl; eauto.
  - destruct Hmode as [Hlen Hphase].
    split; [eapply records_ok_same_shared; [|exact Hok]; by split|].
    split; [by rewrite length_insert|].
    intros j ip g Hip Hg.
    apply list_lookup_insert_Some in Hg as [(Hij & <- & _) | [Hne Hg]];
      [subst j|]; simpl;
      (eapply record_phase_frame; [by eapply Hphase | done | done]).
Qed.

Lemma exec_records_inv sched seed_ip w0 (st : @Sched sess) :
  records_ok w0 ->
  exec' sched (init seed_ip w0) = Some st -> records_inv env st.
Proof.
  intros Hok.
  apply (exec_invariant env creds templates_path max_depth max_workers
           (records_inv env)).
  - intros a s s' Hs Ha. eapply step_records_inv; eauto.
  - by split.
Qed.

End Records.

(** In every run of [concurrent_discover], under every schedule, started
    in a world whose records are each of a visited address and of a
    platform [VENDOR_COMMANDS] has an entry for, no two of the same
    address: the results still are so.  No address is reported twice, and
    every reported address is in the visited set. *)
Theorem records_invariant {sess} (env : Env sess) (creds : Creds)
    (templates_path : string) (max_depth : Z) (max_workers : nat)
    (seed_ip : Address) (w0 : World) (sched : list Action) (st : @Sched sess) :
  records_ok w0 ->
  concurrent_discover env creds templates_path max_depth max_workers
    seed_ip sched w0 = Some st ->
  NoDup (rec_ip <$> results_global (world st)) /\
  forall r, r ∈ results_global (world st) ->
            rec_ip r ∈ visited_global (world st) /\
            is_Some (VENDOR_COMMANDS !! rec_device_type r).
Proof.
  intros Hok Hrun.
  destruct (exec_records_inv env creds templates_path max_depth max_workers
              sched seed_ip w0 st Hok Hrun) as [Hrec _].
  exact Hrec.
Qed.

Lemma records_invariant_pair :
  exists st,
    Lab.discover Lab.pair "10.0.0.1" 1 Schedule.two_levels = Some st /\
    NoDup (rec_ip <$> results_global (world st)).
Proof.
  assert (Hok : records_ok initial_world).
  { split; [apply NoDup_nil_2|]. intros r Hr. by apply elem_of_nil in Hr. }
  destruct (Lab.discover Lab.pair "10.0.0.1" 1 Schedule.two_levels)
    as [st|] eqn:Hrun; [|vm_compute in Hrun; discriminate].
  exists st. split; [reflexivity|].
  exact (proj1 (records_invariant (Lab.network_env Lab.pair) Lab.admin
                  "~/ntc-templates" 1 10 "10.0.0.1" initial_world
                  Schedule.two_levels st Hok Hrun)).
Defined.

Section Bounds.

Context {sess : Type}.
Variable env : Env sess.
Variables (creds : Creds) (templates_path : string).
Variables (max_depth : Z) (max_workers : nat).
Variable w0 : World.

Local Abbreviation step' := (step env creds templates_path max_depth max_workers).

Lemma step_bounds a (st st' : @Sched sess) :
  ((Z.of_nat (current_depth st) <= Z.max 0 (max_depth + 1))%Z /\
   match mode st with
   | InPool to_visit futures _ =>
       (Z.of_nat (current_depth st) <= max_depth)%Z /\ to_visit <> ∅ /\
       length futures = size to_visit /\ max_workers <> 0
   | Failed e =>
       (Z.of_nat (current_depth st) <= max_depth)%Z /\ max_workers = 0 /\
       e = "max_workers must be greater than 0"
   | _ => True
   end /\
   ((max_depth < 0)%Z -> world st = w0) /\
   (max_workers = 0 ->
    visited_global (world st) = visited_global w0 /\
    results_global (world st) = results_global w0 /\
    calls (world st) = calls w0)) ->
  step' a st = Some st' ->
  ((Z.of_nat (current_depth st') <= Z.max 0 (max_depth + 1))%Z /\
   match mode st' with
   | InPool to_visit futures _ =>
       (Z.of_nat (current_depth st') <= max_depth)%Z /\ to_visit <> ∅ /\
       length futures = size to_visit /\ max_workers <> 0
   | Failed e =>
       (Z.of_nat (current_depth st') <= max_depth)%Z /\ max_workers = 0 /\
       e = "max_workers must be greater than 0"
   | _ => True
   end /\
   ((max_depth < 0)%Z -> world st' = w0) /\
   (max_workers = 0 ->
    visited_global (world st') = visited_global w0 /\
    results_global (world st') = results_global w0 /\
    calls (world st') = calls w0)).
Proof.
  intros (Hd & Hmode & Hneg & Hzero) Hstep. apply step_Stepped in Hstep.
  destruct Hstep as
    [ tv Hm Htest Hw | tv Hm Htest Hw | tv Hm Htest | tv futs next Hm Hall
    | i tv futs next f X ins k Hm Hi Htask
    | i tv futs next f u nb rs Hm Hi Htask Hy
    | i tv futs next f u e Hm Hi Htask Hy ];
    rewrite Hm in Hmode; simpl.
  - unfold loop_test in Htest. apply andb_prop in Htest as [Hle Hne].
    apply Z.leb_le in Hle. apply negb_true_iff, bool_decide_eq_false_1 in Hne.
    split; [exact Hd|]. split; [by rewrite length_fmap|].
    split; [intros ?; lia | intros ?; done].
  - unfold loop_test in Htest. apply andb_prop in Htest as [Hle Hne].
    apply Z.leb_le in Hle.
    split; [exact Hd|]. split; [done|]. split; [intros ?; lia|].
    intros _. by apply Hzero.
  - done.
  - destruct Hmode as (Hle & _). split; [lia|]. split; [done|].
    split; [intros ?; lia | done].
  - destruct Hmode as (Hle & Hne & Hlen & Hw).
    split; [exact Hd|]. split; [by rewrite length_insert|].
    split; [intros ?; lia | intros ?; done].
  - destruct Hmode as (Hle & Hne & Hlen & Hw).
    split; [exact Hd|]. split; [by rewrite length_insert|].
    split; [intros ?; lia | intros ?; done].
  - destruct Hmode as (Hle & Hne & Hlen & Hw).
    split; [exact Hd|]. split; [by rewrite length_insert|].
    split; [intros ?; lia | intros ?; done].
Qed.

End Bounds.

(** The depth of a run never exceeds [max_depth + 1], and workers are in
    the pool only at depths up to [max_depth], one for each address of a
    frontier that is not empty.  With a negative [max_depth] the function
    returns without logging or touching anything.  With [max_workers = 0]
    the only failure is that of the pool, raised at the first level, and
    the visited set, the results and the trace of outside calls stay as
    they were. *)
Theorem levels_bounded {sess} (env : Env sess) (creds : Creds)
    (templates_path : string) (max_depth : Z) (max_workers : nat)
    (seed_ip : Address) (w0 : World) (sched : list Action) (st : @Sched sess) :
  concurrent_discover env creds templates_path max_depth max_workers
    seed_ip sched w0 = Some st ->
  (Z.of_nat (current_depth st) <= Z.max 0 (max_depth + 1))%Z /\
  (forall to_visit futures next_to_visit,
      mode st = InPool to_visit futures next_to_visit ->
      (Z.of_nat (current_depth st) <= max_depth)%Z /\ to_visit <> ∅ /\
      length futures = size to_visit /\ max_workers <> 0) /\
  (forall e, mode st = Failed e ->
             (Z.of_nat (current_depth st) <= max_depth)%Z /\ max_workers = 0 /\
             e = "max_workers must be greater than 0") /\
  ((max_depth < 0)%Z -> world st = w0) /\
  (max_workers = 0 ->
   visited_global (world st) = visited_global w0 /\
   results_global (world st) = results_global w0 /\
   calls (world st) = calls w0).
Proof.
  intros Hrun.
  pose proof (exec_invariant env creds templates_path max_depth max_workers _
                (step_bounds env creds templates_path max_depth max_workers w0)
                sched (init seed_ip w0) st) as Hinv.
  destruct Hinv as (Hd & Hmode & Hneg & Hzero); [|exact Hrun|].
  { simpl. split; [lia|]. by repeat split. }
  split; [exact Hd|]. split.
  { intros tv fs n Hm. by rewrite Hm in Hmode. }
  split; [|by split].
  intros e Hm. by rewrite Hm in Hmode.
Qed.

Lemma levels_bounded_seed_only :
  exists st,
    Lab.discover Lab.two_neighbours "10.0.0.1" 0 Schedule.seed_only = Some st /\
    (Z.of_nat (current_depth st) <= Z.max 0 (0 + 1))%Z.
Proof.
  destruct (Lab.discover Lab.two_neighbours "10.0.0.1" 0 Schedule.seed_only)
    as [st|] eqn:Hrun; [|vm_compute in Hrun; discriminate].
  exists st. split; [reflexivity|].
  exact (proj1 (levels_bounded (Lab.network_env Lab.two_neighbours) Lab.admin
                  "~/ntc-templates" 0 10 "10.0.0.1" initial_world
                  Schedule.seed_only st Hrun)).
Defined.

(** ** The instructions of a worker *)

Section Instructions.

Context {sess : Type}.
Variable env : Env sess.
Variable P : forall X, instr sess X -> Prop.
Variable ip : Address.

Hypothesis P_log : forall lv m, P _ (Log lv m).
Hypothesis P_detect : forall p, bp_host p = ip -> P _ (Autodetect p).
Hypothesis P_connect : forall p, dp_host p = ip -> P _ (Connect p).
Hypothesis P_enable : forall s, P _ (Enable ip s).
Hypothesis P_prompt : forall s, P _ (FindPrompt ip s).
Hypothesis P_send : forall s cmd, P _ (SendCommand ip s cmd).

Lemma detect_device_type_always {L} creds (l : L) :
  always env P (detect_device_type ip creds l).
Proof.
  unfold detect_device_type. unfold mbind, mret, Py_bind, Py_ret.
  apply always_bind_lift. intros device_cred _.
  destruct (negb (truth device_cred)).
  - revert l. apply always_bind;
      [intros l'; by apply always_logging | intros _ l'; exact I].
  - apply always_bind_lift. intros base_params Hp. revert l.
    apply always_try_except.
    + apply always_bind;
        [intros l'; apply always_call, P_detect; by eapply base_params_host|].
      intros best l'. revert l'. apply always_bind; [|intros _ l2; exact I].
      intros l2. by apply always_logging.
    + intros e. apply always_bind;
        [intros l'; by apply always_logging | intros _ l'; exact I].
Qed.

Lemma ssh_connect_always {L} creds device_type (l : L) :
  always env P (ssh_connect ip creds device_type l).
Proof.
  unfold ssh_connect. unfold mbind, mret, Py_bind, Py_ret.
  apply always_bind_lift. intros device_cred _.
  destruct (negb (truth device_cred)).
  - revert l. apply always_bind;
      [intros l'; by apply always_logging | intros _ l'; exact I].
  - apply always_bind_lift. intros [auth_method [p|]] Hp; revert l.
    + destruct (device_params_host _ _ _ _ _ Hp) as [Hhost _].
      apply always_try_except.
      * apply always_bind; [intros l'; by apply always_call, P_connect|].
        intros nc. apply always_bind.
        -- intros l2. destruct (truth _); [by apply always_call | exact I].
        -- intros nc'. apply always_bind;
             [intros l3; by apply always_logging | intros _ l3; exact I].
      * intros e. apply always_bind;
          [intros l'; by apply always_logging | intros _ l'; exact I].
    + apply always_bind; [intros l'; by apply always_logging | intros _ l'; exact I].
Qed.

Lemma juniper_lldp_always l : always env P (juniper_lldp env ip l).
Proof.
  unfold juniper_lldp. unfold mbind, mret, Py_bind, Py_ret.
  apply always_try_except.
  - apply always_bind; [intros l'; by apply always_session_send | intros out l'; exact I].
  - intros e. destruct (PyStr.contains _ _).
    + apply always_bind; [intros l'; by apply always_logging|]. intros _.
      apply always_try_except.
      * apply always_bind; [intros l'; by apply always_session_send|].
        intros summary. apply always_for_each. intros iface.
        apply always_bind;
          [intros l'; by apply always_session_send | intros out l'; exact I].
      * intros e' l'. by apply always_logging.
    + intros l'. by apply always_logging.
Qed.

Lemma run_protocols_always device_type commands l :
  always env P (run_protocols env ip device_type commands l).
Proof.
  unfold run_protocols. unfold mbind, mret, Py_bind, Py_ret.
  revert l. apply always_for_each. intros proto l.
  destruct (negb _); [exact I|].
  destruct (_ && _); [apply juniper_lldp_always|].
  revert l. apply always_try_except.
  - apply always_bind; [intros l'; by apply always_session_send | intros out l'; exact I].
  - intros e l'. by apply always_logging.
Qed.

Hypothesis P_seen : P _ (SeenUnderLock ip).
Hypothesis P_add : P _ (VisitedAdd ip).
Hypothesis P_append : forall r, rec_ip r = ip -> P _ (ResultsAppend r).

Lemma worker_always creds templates_path :
  always env P (worker env ip creds templates_path).
Proof.
  unfold worker, discover_single. unfold mbind, mret, Py_bind, Py_ret.
  apply always_bind; [intros l; by apply always_vis|].
  intros [|] l; [exact I|].
  apply always_bind; [intros l'; by apply always_logging|]. intros _.
  apply always_bind; [intros l'; apply detect_device_type_always|].
  intros device_type l'.
  destruct (negb (truthy device_type) || _).
  - revert l'. apply always_bind; [intros l'; by apply always_logging|]. intros _.
    apply always_bind; [intros l'; by apply always_vis | intros _ l'; exact I].
  - revert l'. apply always_bind; [intros l'; apply ssh_connect_always|].
    intros [nc|] l'.
    + apply always_with_locals. 
      apply always_bind; [intros l2; by apply always_session_prompt|].
      intros prompt. apply always_bind; [intros l2; by apply always_vis|]. intros _.
      apply always_bind; [intros l2; by apply always_vis, P_append|]. intros _.
      apply always_bind; [intros l2; by destruct (VENDOR_COMMANDS !! _)|].
      intros commands.
      apply always_bind; [intros l2; exact I|]. intros _.
      apply always_bind; [intros l2; apply run_protocols_always|]. intros _.
      apply always_bind; [intros l2; exact I|]. intros nbrs l2. exact I.
    + revert l'. apply always_bind; [intros l'; by apply always_vis|].
      intros _ l'. exact I.
Qed.

End Instructions.

Section Touches.

Context {sess : Type}.
Variable env : Env sess.

Lemma touches_refl ip w : touches_only ip w w.
Proof.
  split; [done|]. split; [set_solver|].
  split; [exists []; by rewrite app_nil_r|].
  split; [exists []; by rewrite app_nil_r | done].
Qed.

Lemma touches_trans ip w1 w2 w3 :
  touches_only ip w1 w2 -> touches_only ip w2 w3 -> touches_only ip w1 w3.
Proof.
  intros (Ha1 & Hb1 & (rs1 & Hr1 & Hf1) & (cs1 & Hc1 & Hg1) & Hl1)
         (Ha2 & Hb2 & (rs2 & Hr2 & Hf2) & (cs2 & Hc2 & Hg2) & Hl2).
  split; [set_solver|]. split; [set_solver|].
  split.
  { exists (rs1 ++ rs2). rewrite Hr2, Hr1, app_assoc. split; [done|].
    by apply Forall_app. }
  split; [|by etrans].
  exists (cs1 ++ cs2). rewrite Hc2, Hc1, app_assoc. split; [done|].
  by apply Forall_app.
Qed.

Lemma do_instr_touches ip {X} (i : instr sess X) w :
  of_address ip i -> touches_only ip w (fst (do_instr env i w)).
Proof.
  assert (Hcall : forall c, call_host c = ip -> touches_only ip w (add_call c w)).
  { intros c Hc. split; [done|]. split; [set_solver|].
    split; [exists []; by rewrite app_nil_r|].
    split; [|done]. exists [c]. split; [done|]. by apply Forall_singleton. }
  assert (Hlog : forall lv m, touches_only ip w (add_log lv m w)).
  { intros lv m. split; [done|]. split; [set_solver|].
    split; [exists []; by rewrite app_nil_r|].
    split; [exists []; by rewrite app_nil_r|]. by apply prefix_app_r. }
  destruct i; simpl; intros Hi; try (by apply Hcall); try (by apply Hlog).
  - destruct (bool_decide _); simpl; [apply Hlog | apply touches_refl].
  - subst. split; [set_solver|]. split; [done|].
    split; [exists []; by rewrite app_nil_r|].
    split; [exists []; by rewrite app_nil_r | done].
  - split; [done|]. split; [set_solver|].
    split; [exists [r]; split; [done|]; by apply Forall_singleton|].
    split; [exists []; by rewrite app_nil_r | done].
Qed.

Lemma run_touches ip {A} (t : Thread sess A) w :
  always env (@of_address sess ip) t -> touches_only ip w (fst (run env t w)).
Proof.
  revert w. induction t as [a | X i h IH]; intros w Ht; simpl.
  - apply touches_refl.
  - destruct Ht as [Hi Hh]. pose proof (do_instr_touches ip i w Hi) as Hq.
    specialize (Hh w). destruct (do_instr env i w) as [w' x]. simpl in *.
    eapply touches_trans; [exact Hq | by apply IH].
Qed.

Lemma worker_of_address ip creds templates_path :
  always env (@of_address sess ip) (worker env ip creds templates_path).
Proof. apply (worker_always env (@of_address sess ip) ip); try done. Qed.

(** *** At most one record *)

Lemma run_appends_own ip {A} (t : Thread sess A) w :
  appends_own env ip t ->
  exists rs, results_global (fst (run env t w)) = results_global w ++ rs
             /\ length rs <= 1.
Proof.
  revert w. induction t as [a | X i h IH]; intros w Ht; simpl.
  { exists []. rewrite app_nil_r. split; [done | simpl; lia]. }
  destruct i; simpl in Ht;
    try (match goal with |- context [do_instr env ?i w] =>
           pose proof (other_do_instr env i w I) as [_ Hsr];
           specialize (IH (snd (do_instr env i w)) (fst (do_instr env i w))
                         (Ht w))
         end;
         destruct (do_instr env _ w) as [w' x]; simpl in *;
         rewrite Hsr in IH; exact IH); try done.
  destruct Ht as (_ & _ & Hq). simpl.
  destruct (run_quiet env (h tt) (add_result r w) Hq) as [_ Hr].
  exists [r]. rewrite Hr. split; [done | simpl; lia].
Qed.

Lemma run_adds_then_appends ip {A} (t : Thread sess A) w :
  adds_then_appends env ip t ->
  exists rs, results_global (fst (run env t w)) = results_global w ++ rs
             /\ length rs <= 1.
Proof.
  revert w. induction t as [a | X i h IH]; intros w Ht; simpl.
  { exists []. rewrite app_nil_r. split; [done | simpl; lia]. }
  destruct i; simpl in Ht;
    try (match goal with |- context [do_instr env ?i w] =>
           pose proof (other_do_instr env i w I) as [_ Hsr];
           specialize (IH (snd (do_instr env i w)) (fst (do_instr env i w))
                         (Ht w))
         end;
         destruct (do_instr env _ w) as [w' x]; simpl in *;
         rewrite Hsr in IH; exact IH); try done.
  destruct Ht as [_ Hown]. simpl.
  exact (run_appends_own ip (h tt) (add_visited ip0 w) Hown).
Qed.

Lemma run_worker_appends ip creds templates_path w :
  exists rs,
    results_global (fst (run env (worker env ip creds templates_path) w))
    = results_global w ++ rs /\ length rs <= 1.
Proof.
  pose proof (worker_tests_first env creds templates_path ip) as Ht.
  destruct (worker env ip creds templates_path) as [a | X i h]; [done|].
  destruct i; try done. simpl in Ht. destruct Ht as (-> & Hseen & Hrest).
  simpl. destruct (bool_decide _); simpl.
  - destruct (h true); [|done]. simpl. exists []. rewrite app_nil_r.
    split; [done | simpl; lia].
  - by apply (run_adds_then_appends ip).
Qed.

End Touches.

(** Whatever happens, a call of [discover_single] on an address concerns
    this address only: the visited set loses nothing and gains at most
    the address; the results gain at most one record, and it is a record
    of the address; every outside call it makes goes to the address; the
    log only grows. *)
Theorem discover_single_touches_own {sess} (env : Env sess) (ip : Address)
    (creds : Creds) (templates_path : string) (w : World) :
  let w' := fst (run env (discover_single env ip creds templates_path tt) w) in
  visited_global w ⊆ visited_global w' /\
  visited_global w' ⊆ visited_global w ∪ {[ ip ]} /\
  (exists rs, results_global w' = results_global w ++ rs
              /\ length rs <= 1 /\ Forall (fun r => rec_ip r = ip) rs) /\
  (exists cs, calls w' = calls w ++ cs
              /\ Forall (fun c => call_host c = ip) cs) /\
  log w `prefix_of` log w'.
Proof.
  intros w'.
  destruct (run_touches env ip (worker env ip creds templates_path) w
              (worker_of_address env ip creds templates_path))
    as (Ha & Hb & (rs & Hr & Hf) & Hc & Hl).
  destruct (run_worker_appends env ip creds templates_path w) as (rs' & Hr' & Hlen).
  fold w' in Ha, Hb, Hr, Hc, Hl, Hr'.
  split; [exact Ha|]. split; [exact Hb|]. split; [|by split].
  exists rs. split; [exact Hr|]. split; [|exact Hf].
  rewrite Hr in Hr'. apply app_inv_head in Hr'. by subst rs'.
Qed.
